(** * Vacuum-cleaner grid world: environment, search algorithms and agents

    A shallow embedding of [environment.py], [algorithms.py], [agents.py]
    and the step function of [main.py].
    Python integers are [Z], tuples [(x, y)] are pairs, lists are lists,
    dictionaries are [gmap]s and sets are [gset]s.  Python exceptions and
    unbounded [while] loops are made explicit by the result type [res]. *)

From stdpp Require Import gmap list strings sorting.
From Stdlib Require Import ZArith QArith.Qcanon Lia.

Local Open Scope Z_scope.

(** ** Results of Python computations *)

Inductive exn := IndexError | KeyError.

Inductive res (A : Type) : Type :=
  | Ok (a : A)
  | Raise (e : exn)
  | OutOfFuel.
Arguments Ok {A} a.
Arguments Raise {A} e.
Arguments OutOfFuel {A}.

Definition bind {A B} (m : res A) (k : A → res B) : res B :=
  match m with
  | Ok a => k a
  | Raise e => Raise e
  | OutOfFuel => OutOfFuel
  end.

Notation "'let*' x ':=' m 'in' k" := (bind m (λ x, k))
  (at level 10, x pattern, m at level 100, k at level 200,
   format "'[' 'let*'  x  :=  m  'in'  '/' k ']'").

(** [for x in xs: body] over a state threaded through the iterations. *)
Fixpoint for_each {A S} (xs : list A) (body : A → S → res S) (s : S) : res S :=
  match xs with
  | [] => Ok s
  | x :: xs' => let* s' := body x s in for_each xs' body s'
  end.

(** ** Python list indexing

    [l[i]] accepts [-len(l) <= i < len(l)] (negative indices count from the
    end) and raises [IndexError] elsewhere. *)

Definition py_norm (n : nat) (i : Z) : option nat :=
  let j := if decide (i < 0) then i + Z.of_nat n else i in
  if decide (0 ≤ j < Z.of_nat n) then Some (Z.to_nat j) else None.

Definition py_getitem {A} (l : list A) (i : Z) : res A :=
  match py_norm (length l) i with
  | Some j => match l !! j with Some a => Ok a | None => Raise IndexError end
  | None => Raise IndexError
  end.

Definition py_setitem {A} (l : list A) (i : Z) (a : A) : res (list A) :=
  match py_norm (length l) i with
  | Some j => Ok (<[j := a]> l)
  | None => Raise IndexError
  end.

(** [range(n)] *)
Definition range (n : Z) : list Z := seqZ 0 n.

(** ** environment.py *)

Abbreviation coord := (Z * Z)%type.

(** The constants [TileState.CLEAN = 0], [DIRTY = 1] and [OBSTACLE = 2], the
    only values the grid ever holds. *)
Inductive TileState := CLEAN | DIRTY | OBSTACLE.

#[global] Instance TileState_eq_dec : EqDecision TileState.
Proof. solve_decision. Defined.

Record Environment := mkEnv {
  width : Z;
  height : Z;
  grid : list (list TileState);
  robot_pos : coord;
  total_dirt : Z;
  cleaned_dirt : Z
}.

Definition set_grid (e : Environment) (g : list (list TileState)) : Environment :=
  mkEnv (width e) (height e) g (robot_pos e) (total_dirt e) (cleaned_dirt e).
Definition set_robot_pos (e : Environment) (p : coord) : Environment :=
  mkEnv (width e) (height e) (grid e) p (total_dirt e) (cleaned_dirt e).
Definition set_total_dirt (e : Environment) (n : Z) : Environment :=
  mkEnv (width e) (height e) (grid e) (robot_pos e) n (cleaned_dirt e).
Definition set_cleaned_dirt (e : Environment) (n : Z) : Environment :=
  mkEnv (width e) (height e) (grid e) (robot_pos e) (total_dirt e) n.

(** [self.grid[y][x]] *)
Definition grid_get (g : list (list TileState)) (x y : Z) : res TileState :=
  let* row := py_getitem g y in py_getitem row x.

(** [self.grid[y][x] = t] *)
Definition grid_set (g : list (list TileState)) (x y : Z) (t : TileState)
  : res (list (list TileState)) :=
  let* row := py_getitem g y in
  let* row' := py_setitem row x t in
  py_setitem g y row'.

(** The pseudo-random source: [random.random()] returns the next float of a
    stream.  Floats are read as rationals; only their order is used. *)
Definition rng := nat → Qc.

Definition _initialize_cell (dirt_prob obstacle_prob : Qc) (r : rng)
    (y x : Z) (s : Environment * nat) : res (Environment * nat) :=
  let '(e, k) := s in
  if decide ((x, y) = robot_pos e) then Ok (e, k)
  else if decide (r k < obstacle_prob)%Qc then
    let* g := grid_set (grid e) x y OBSTACLE in
    Ok (set_grid e g, S k)
  else if decide (r (S k) < dirt_prob)%Qc then
    let* g := grid_set (grid e) x y DIRTY in
    Ok (set_total_dirt (set_grid e g) (total_dirt e + 1), S (S k))
  else Ok (e, S (S k)).

Definition _initialize_grid (dirt_prob obstacle_prob : Qc) (r : rng)
    (s : Environment * nat) : res (Environment * nat) :=
  for_each (range (height s.1))
    (λ y s, for_each (range (width s.1))
              (_initialize_cell dirt_prob obstacle_prob r y) s) s.

(** [Environment.__init__]; the second component is the number of random
    draws consumed. *)
Definition Environment_init (w h : Z) (dirt_probability obstacle_probability : Qc)
    (r : rng) : res (Environment * nat) :=
  let e := mkEnv w h
             (replicate (Z.to_nat h) (replicate (Z.to_nat w) CLEAN))
             (0, 0) 0 0 in
  _initialize_grid dirt_probability obstacle_probability r (e, 0%nat).

Definition is_valid_position (e : Environment) (x y : Z) : bool :=
  bool_decide (0 ≤ x < width e) && bool_decide (0 ≤ y < height e).

Definition get_tile_state (e : Environment) (x y : Z) : res TileState :=
  if negb (is_valid_position e x y) then Ok OBSTACLE
  else grid_get (grid e) x y.

Definition is_walkable (e : Environment) (x y : Z) : res bool :=
  if is_valid_position e x y then
    let* t := grid_get (grid e) x y in Ok (bool_decide (t ≠ OBSTACLE))
  else Ok false.

Definition move_robot (e : Environment) (new_x new_y : Z) : res (Environment * bool) :=
  let* w := is_walkable e new_x new_y in
  if w then Ok (set_robot_pos e (new_x, new_y), true)
  else Ok (e, false).

Definition clean_current_tile (e : Environment) : res (Environment * bool) :=
  let '(x, y) := robot_pos e in
  let* t := grid_get (grid e) x y in
  if decide (t = DIRTY) then
    let* g := grid_set (grid e) x y CLEAN in
    Ok (set_cleaned_dirt (set_grid e g) (cleaned_dirt e + 1), true)
  else Ok (e, false).

Definition get_dirty_tiles (e : Environment) : res (list coord) :=
  for_each (range (height e))
    (λ y acc, for_each (range (width e))
       (λ x acc, let* t := grid_get (grid e) x y in
                 Ok (if decide (t = DIRTY) then acc ++ [(x, y)] else acc)) acc) [].

Definition directions : list (Z * Z) := [(0, -1); (1, 0); (0, 1); (-1, 0)].

Definition get_neighbors (e : Environment) (x y : Z) : res (list coord) :=
  for_each directions
    (λ '(dx, dy) neighbors,
       let nx := x + dx in
       let ny := y + dy in
       let* w := is_walkable e nx ny in
       Ok (if w then neighbors ++ [(nx, ny)] else neighbors)) [].

Definition is_all_clean (e : Environment) : bool :=
  bool_decide (cleaned_dirt e >= total_dirt e).

(** Default arguments of [__init__]. *)
Definition default_dirt_probability : Qc := Q2Qc (QArith_base.Qmake 3 10).
Definition default_obstacle_probability : Qc := Q2Qc (QArith_base.Qmake 1 10).

Definition reset (e : Environment) (r : rng) : res (Environment * nat) :=
  Environment_init (width e) (height e)
    default_dirt_probability default_obstacle_probability r.

(** ** algorithms.py *)

Record SearchResult := mkResult {
  path : list coord;
  nodes_expanded : Z;
  nodes_in_frontier : Z;
  explored : gset coord;
  frontier_history : list (gset coord);
  path_cost : Z;
  found : bool
}.

(** [SearchResult()] *)
Definition SearchResult_new : SearchResult := mkResult [] 0 0 ∅ [] 0 false.

Definition log_frontier (r : SearchResult) (f : gset coord) : SearchResult :=
  mkResult (path r) (nodes_expanded r) (nodes_in_frontier r) (explored r)
    (frontier_history r ++ [f]) (path_cost r) (found r).
Definition count_expanded (r : SearchResult) : SearchResult :=
  mkResult (path r) (nodes_expanded r + 1) (nodes_in_frontier r) (explored r)
    (frontier_history r) (path_cost r) (found r).
Definition set_explored (r : SearchResult) (ex : gset coord) : SearchResult :=
  mkResult (path r) (nodes_expanded r) (nodes_in_frontier r) ex
    (frontier_history r) (path_cost r) (found r).
(** The four assignments made when the goal is expanded. *)
Definition set_found (r : SearchResult) (p : list coord) (ex : gset coord)
  : SearchResult :=
  mkResult p (nodes_expanded r) (nodes_in_frontier r) ex
    (frontier_history r) (Z.of_nat (length p)) true.

(** A [while] loop whose body either continues with a new state or returns;
    [fuel] bounds the number of iterations. *)
Fixpoint while_loop {S R} (body : S → res (S + R)) (fuel : nat) (s : S) : res R :=
  match fuel with
  | O => OutOfFuel
  | Datatypes.S fuel' =>
      let* o := body s in
      match o with
      | inl s' => while_loop body fuel' s'
      | inr r => Ok r
      end
  end.

(** [reconstruct_path]: the loop [while current != start].  When
    [came_from[current]] is [None] (the entry of [start]) the next iteration
    looks up the key [None] and raises [KeyError]. *)
Fixpoint reconstruct_loop (fuel : nat) (came_from : gmap coord (option coord))
    (start current : coord) (path : list coord) : res (list coord) :=
  if decide (current = start) then Ok path
  else match fuel with
       | O => OutOfFuel
       | S fuel' =>
           match came_from !! current with
           | Some (Some prev) =>
               reconstruct_loop fuel' came_from start prev (path ++ [current])
           | Some None => Raise KeyError
           | None => Raise KeyError
           end
       end.

Definition reconstruct_path (fuel : nat) (came_from : gmap coord (option coord))
    (start goal : coord) : res (list coord) :=
  let* path := reconstruct_loop fuel came_from start goal [] in
  Ok (reverse path).

(** The local variables of [bfs] and [dfs]. *)
Record search_state := mkState {
  frontier : list coord;
  came_from : gmap coord (option coord);
  st_explored : gset coord;
  result : SearchResult
}.

(** Body of the loop over the neighbours of [current], the same in [bfs]
    and [dfs]. *)
Definition discover (explored : gset coord) (current neighbor : coord)
    (s : list coord * gmap coord (option coord))
  : list coord * gmap coord (option coord) :=
  let '(frontier, came_from) := s in
  if bool_decide (came_from !! neighbor = None) && bool_decide (neighbor ∉ explored)
  then (frontier ++ [neighbor], <[neighbor := Some current]> came_from)
  else (frontier, came_from).

Definition expand (e : Environment) (explored : gset coord) (current : coord)
    (s : list coord * gmap coord (option coord))
  : res (list coord * gmap coord (option coord)) :=
  let* neighbors := get_neighbors e current.1 current.2 in
  Ok (foldl (λ s neighbor, discover explored current neighbor s) s neighbors).

Definition initial_state (start : coord) : search_state :=
  mkState [start] {[start := None]} ∅ SearchResult_new.

(** One iteration of [while frontier:] in [bfs]. *)
Definition bfs_body (gas : nat) (e : Environment) (start goal : coord)
    (st : search_state) : res (search_state + SearchResult) :=
  match frontier st with
  | [] => Ok (inr (set_explored (result st) (st_explored st)))
  | current :: rest =>
      let result := log_frontier (result st) (list_to_set (frontier st)) in
      let explored := st_explored st ∪ {[current]} in
      let result := count_expanded result in
      if decide (current = goal) then
        let* p := reconstruct_path gas (came_from st) start goal in
        Ok (inr (set_found result p explored))
      else
        let* (frontier, came_from) := expand e explored current (rest, came_from st) in
        Ok (inl (mkState frontier came_from explored result))
  end.

Definition bfs (gas : nat) (e : Environment) (start goal : coord) : res SearchResult :=
  let result := SearchResult_new in
  if decide (start = goal) then
    Ok (mkResult (path result) (nodes_expanded result) (nodes_in_frontier result)
          (explored result) (frontier_history result) (path_cost result) true)
  else while_loop (bfs_body gas e start goal) gas (initial_state start).

(** [list.pop()]: remove and return the last element. *)
Definition py_pop {A} (l : list A) : option (list A * A) :=
  match reverse l with
  | [] => None
  | x :: r => Some (reverse r, x)
  end.

(** One iteration of [while frontier:] in [dfs]. *)
Definition dfs_body (gas : nat) (e : Environment) (start goal : coord)
    (st : search_state) : res (search_state + SearchResult) :=
  match py_pop (frontier st) with
  | None => Ok (inr (set_explored (result st) (st_explored st)))
  | Some (rest, current) =>
      let result := log_frontier (result st) (list_to_set (frontier st)) in
      if bool_decide (current ∈ st_explored st) then
        Ok (inl (mkState rest (came_from st) (st_explored st) result))
      else
        let explored := st_explored st ∪ {[current]} in
        let result := count_expanded result in
        if decide (current = goal) then
          let* p := reconstruct_path gas (came_from st) start goal in
          Ok (inr (set_found result p explored))
        else
          let* (frontier, came_from) := expand e explored current (rest, came_from st) in
          Ok (inl (mkState frontier came_from explored result))
  end.

Definition dfs (gas : nat) (e : Environment) (start goal : coord) : res SearchResult :=
  let result := SearchResult_new in
  if decide (start = goal) then
    Ok (mkResult (path result) (nodes_expanded result) (nodes_in_frontier result)
          (explored result) (frontier_history result) (path_cost result) true)
  else while_loop (dfs_body gas e start goal) gas (initial_state start).

Definition heuristic (pos1 pos2 : coord) : Z :=
  Z.abs (pos1.1 - pos2.1) + Z.abs (pos1.2 - pos2.2).

(** *** The priority queue of [astar]

    [heapq] is library code; it is modelled by its contract.  The heap holds
    a multiset of entries [(f_score, pos)], [heappush] adds one and [heappop]
    removes and returns the smallest under Python's tuple order (which is
    total here, so the smallest entry is determined as a value).  The
    multiset is kept as an increasing list. *)

Definition entry : Type := Z * coord.

(** Python's [<] on tuples [(f, (x, y))]. *)
Definition tuple_lt (a b : entry) : Prop :=
  a.1 < b.1 ∨ (a.1 = b.1 ∧ (a.2.1 < b.2.1 ∨ (a.2.1 = b.2.1 ∧ a.2.2 < b.2.2))).

#[global] Instance tuple_lt_dec a b : Decision (tuple_lt a b).
Proof. unfold tuple_lt. apply _. Defined.

Fixpoint heappush (h : list entry) (x : entry) : list entry :=
  match h with
  | [] => [x]
  | y :: h' => if decide (tuple_lt y x) then y :: heappush h' x else x :: h
  end.

Definition heappop (h : list entry) : option (entry * list entry) :=
  match h with
  | [] => None
  | x :: h' => Some (x, h')
  end.

(** The local variables of [astar]. *)
Record astar_state := mkAState {
  a_frontier : list entry;
  a_came_from : gmap coord (option coord);
  g_score : gmap coord Z;
  a_explored : gset coord;
  a_result : SearchResult
}.

(** Body of the loop over the neighbours of [current] in [astar]. *)
Definition relax (goal : coord) (explored : gset coord) (current neighbor : coord)
    (s : list entry * gmap coord (option coord) * gmap coord Z)
  : res (list entry * gmap coord (option coord) * gmap coord Z) :=
  let '(frontier, came_from, g_score) := s in
  if bool_decide (neighbor ∈ explored) then Ok s
  else
    match g_score !! current with
    | None => Raise KeyError
    | Some g =>
        let tentative_g := g + 1 in
        if match g_score !! neighbor with
           | None => true
           | Some gn => bool_decide (tentative_g < gn)
           end
        then
          let g_score := <[neighbor := tentative_g]> g_score in
          let f_score := tentative_g + heuristic neighbor goal in
          Ok (heappush frontier (f_score, neighbor),
              <[neighbor := Some current]> came_from, g_score)
        else Ok s
    end.

Definition astar_expand (e : Environment) (goal : coord) (explored : gset coord)
    (current : coord) (s : list entry * gmap coord (option coord) * gmap coord Z)
  : res (list entry * gmap coord (option coord) * gmap coord Z) :=
  let* neighbors := get_neighbors e current.1 current.2 in
  for_each neighbors (relax goal explored current) s.

Definition astar_initial_state (start : coord) : astar_state :=
  mkAState [(0, start)] {[start := None]} {[start := 0]} ∅ SearchResult_new.

(** One iteration of [while frontier:] in [astar]. *)
Definition astar_body (gas : nat) (e : Environment) (start goal : coord)
    (st : astar_state) : res (astar_state + SearchResult) :=
  match heappop (a_frontier st) with
  | None => Ok (inr (set_explored (a_result st) (a_explored st)))
  | Some ((_, current), rest) =>
      let result := log_frontier (a_result st) (list_to_set (a_frontier st).*2) in
      if bool_decide (current ∈ a_explored st) then
        Ok (inl (mkAState rest (a_came_from st) (g_score st) (a_explored st) result))
      else
        let explored := a_explored st ∪ {[current]} in
        let result := count_expanded result in
        if decide (current = goal) then
          let* p := reconstruct_path gas (a_came_from st) start goal in
          Ok (inr (set_found result p explored))
        else
          let* (fc, g_score) :=
            astar_expand e goal explored current (rest, a_came_from st, g_score st) in
          Ok (inl (mkAState fc.1 fc.2 g_score explored result))
  end.

Definition astar (gas : nat) (e : Environment) (start goal : coord) : res SearchResult :=
  let result := SearchResult_new in
  if decide (start = goal) then
    Ok (mkResult (path result) (nodes_expanded result) (nodes_in_frontier result)
          (explored result) (frontier_history result) (path_cost result) true)
  else while_loop (astar_body gas e start goal) gas (astar_initial_state start).

(** Python's [min(l, key=key)] on a non-empty list [best :: l]: the first
    element whose key is smallest. *)
Fixpoint py_min {A} (key : A → Z) (best : A) (l : list A) : A :=
  match l with
  | [] => best
  | x :: l' => py_min key (if decide (key x < key best) then x else best) l'
  end.

Definition find_nearest_dirty_tile (e : Environment) (start : coord)
  : res (option coord) :=
  let* dirty_tiles := get_dirty_tiles e in
  match dirty_tiles with
  | [] => Ok None
  | t :: ts => Ok (Some (py_min (λ pos, heuristic start pos) t ts))
  end.

(** ** agents.py *)

Record Agent := mkAgent {
  name : string;
  steps_taken : Z;
  tiles_cleaned : Z
}.

Record Perception := mkPerception {
  position : coord;
  tile_state : TileState;
  neighbors : list coord;
  all_clean : bool
}.

Definition perceive (e : Environment) : res Perception :=
  let '(x, y) := robot_pos e in
  let* t := get_tile_state e x y in
  let* ns := get_neighbors e x y in
  Ok (mkPerception (x, y) t ns (is_all_clean e)).

(** The pairs [('clean', None)], [('move', pos)] and [('wait', None)]. *)
Inductive Action := Clean | Move (pos : coord) | Wait.

Definition Agent_reset (a : Agent) : Agent := mkAgent (name a) 0 0.

(** [random.choice(seq)], for the number [r] drawn by the generator. *)
Definition random_choice {A} (r : nat) (seq : list A) : res A :=
  match seq !! (r `mod` length seq)%nat with
  | Some x => Ok x
  | None => Raise IndexError
  end.

(** *** SimpleReflexAgent *)

Definition SimpleReflexAgent_new : Agent := mkAgent "Simple Reflex Agent" 0 0.

Definition SimpleReflexAgent_act (r : nat) (a : Agent) (e : Environment)
    (perception : Perception) : res (Agent * Action) :=
  if decide (tile_state perception = DIRTY) then Ok (a, Clean)
  else
    match neighbors perception with
    | _ :: _ => let* next_pos := random_choice r (neighbors perception) in
                Ok (a, Move next_pos)
    | [] => Ok (a, Wait)
    end.

(** *** ModelBasedAgent *)

Record ModelBasedAgent := mkModelBased {
  mb_base : Agent;
  cleaned_tiles : gset coord;
  mb_current_path : list coord;
  search_algorithm : string
}.

Definition ModelBasedAgent_new (search_algorithm : string) : ModelBasedAgent :=
  mkModelBased (mkAgent "Model-Based Agent" 0 0) ∅ [] search_algorithm.

(** The tail of [ModelBasedAgent.act], after planning. *)
Definition ModelBasedAgent_wander (r : nat) (a : ModelBasedAgent)
    (perception : Perception) : res (ModelBasedAgent * Action) :=
  let unvisited_neighbors :=
    filter (λ n, n ∉ cleaned_tiles a) (neighbors perception) in
  match unvisited_neighbors with
  | _ :: _ => let* pos := random_choice r unvisited_neighbors in Ok (a, Move pos)
  | [] =>
      match neighbors perception with
      | _ :: _ => let* pos := random_choice r (neighbors perception) in Ok (a, Move pos)
      | [] => Ok (a, Wait)
      end
  end.

Definition ModelBasedAgent_act (gas r : nat) (a : ModelBasedAgent) (e : Environment)
    (perception : Perception) : res (ModelBasedAgent * Action) :=
  if decide (tile_state perception = DIRTY) then
    Ok (mkModelBased (mb_base a) (cleaned_tiles a ∪ {[position perception]})
          (mb_current_path a) (search_algorithm a), Clean)
  else
    match mb_current_path a with
    | next_pos :: rest =>
        Ok (mkModelBased (mb_base a) (cleaned_tiles a) rest (search_algorithm a),
            Move next_pos)
    | [] =>
        let* nearest_dirty := find_nearest_dirty_tile e (position perception) in
        match nearest_dirty with
        | Some nearest =>
            let* result :=
              (if decide (search_algorithm a = "bfs")
               then bfs gas e (position perception) nearest
               else astar gas e (position perception) nearest) in
            if found result then
              match path result with
              | next_pos :: rest =>
                  Ok (mkModelBased (mb_base a) (cleaned_tiles a) rest
                        (search_algorithm a), Move next_pos)
              | [] =>
                  ModelBasedAgent_wander r
                    (mkModelBased (mb_base a) (cleaned_tiles a) []
                       (search_algorithm a)) perception
              end
            else ModelBasedAgent_wander r a perception
        | None => ModelBasedAgent_wander r a perception
        end
    end.

Definition ModelBasedAgent_reset (a : ModelBasedAgent) : ModelBasedAgent :=
  mkModelBased (Agent_reset (mb_base a)) ∅ [] (search_algorithm a).

(** *** UtilityBasedAgent *)

Record UtilityBasedAgent := mkUtilityBased {
  ub_base : Agent;
  ub_current_path : list coord;
  current_goal : option coord
}.

Definition UtilityBasedAgent_new : UtilityBasedAgent :=
  mkUtilityBased (mkAgent "Utility-Based Agent (A*)" 0 0) [] None.

(** The tail of [UtilityBasedAgent.act]: find the nearest dirty tile and plan. *)
Definition UtilityBasedAgent_plan (gas : nat) (a : UtilityBasedAgent)
    (e : Environment) (perception : Perception) : res (UtilityBasedAgent * Action) :=
  let* nearest_dirty := find_nearest_dirty_tile e (position perception) in
  match nearest_dirty with
  | Some nearest =>
      let* result := astar gas e (position perception) nearest in
      if found result then
        match path result with
        | next_pos :: rest =>
            Ok (mkUtilityBased (ub_base a) rest (Some nearest), Move next_pos)
        | [] => Ok (mkUtilityBased (ub_base a) [] (Some nearest), Wait)
        end
      else Ok (a, Wait)
  | None => Ok (a, Wait)
  end.

Definition UtilityBasedAgent_act (gas : nat) (a : UtilityBasedAgent)
    (e : Environment) (perception : Perception) : res (UtilityBasedAgent * Action) :=
  if decide (tile_state perception = DIRTY) then
    Ok (mkUtilityBased (ub_base a) [] None, Clean)
  else
    match ub_current_path a, current_goal a with
    | next_pos :: rest, Some goal =>
        let* t := get_tile_state e goal.1 goal.2 in
        if decide (t = DIRTY) then
          Ok (mkUtilityBased (ub_base a) rest (current_goal a), Move next_pos)
        else
          UtilityBasedAgent_plan gas (mkUtilityBased (ub_base a) [] None) e perception
    | _, _ => UtilityBasedAgent_plan gas a e perception
    end.

Definition UtilityBasedAgent_reset (a : UtilityBasedAgent) : UtilityBasedAgent :=
  mkUtilityBased (Agent_reset (ub_base a)) [] None.

(** *** GoalBasedAgent *)

Record GoalBasedAgent := mkGoalBased {
  gb_base : Agent;
  gb_current_path : list coord
}.

Definition GoalBasedAgent_new : GoalBasedAgent :=
  mkGoalBased (mkAgent "Goal-Based Agent (DFS)" 0 0) [].

Definition GoalBasedAgent_act (gas : nat) (a : GoalBasedAgent) (e : Environment)
    (perception : Perception) : res (GoalBasedAgent * Action) :=
  if decide (tile_state perception = DIRTY) then
    Ok (mkGoalBased (gb_base a) [], Clean)
  else
    match gb_current_path a with
    | next_pos :: rest => Ok (mkGoalBased (gb_base a) rest, Move next_pos)
    | [] =>
        let* dirty_tiles := get_dirty_tiles e in
        match dirty_tiles with
        | target :: _ =>
            let* result := dfs gas e (position perception) target in
            if found result then
              match path result with
              | next_pos :: rest => Ok (mkGoalBased (gb_base a) rest, Move next_pos)
              | [] => Ok (mkGoalBased (gb_base a) [], Wait)
              end
            else Ok (a, Wait)
        | [] => Ok (a, Wait)
        end
    end.

Definition GoalBasedAgent_reset (a : GoalBasedAgent) : GoalBasedAgent :=
  mkGoalBased (Agent_reset (gb_base a)) [].

(** *** The four policies behind one interface *)

Inductive Policy :=
  | Reflex (a : Agent)
  | ModelBased (a : ModelBasedAgent)
  | UtilityBased (a : UtilityBasedAgent)
  | GoalBased (a : GoalBasedAgent).

Definition act (gas r : nat) (p : Policy) (e : Environment) (perception : Perception)
  : res (Policy * Action) :=
  match p with
  | Reflex a =>
      let* (a', act) := SimpleReflexAgent_act r a e perception in Ok (Reflex a', act)
  | ModelBased a =>
      let* (a', act) := ModelBasedAgent_act gas r a e perception in
      Ok (ModelBased a', act)
  | UtilityBased a =>
      let* (a', act) := UtilityBasedAgent_act gas a e perception in
      Ok (UtilityBased a', act)
  | GoalBased a =>
      let* (a', act) := GoalBasedAgent_act gas a e perception in
      Ok (GoalBased a', act)
  end.

(** The pending path and the goal a policy instance holds, if it has such
    attributes. *)
Definition cached_path (p : Policy) : list coord :=
  match p with
  | Reflex _ => []
  | ModelBased a => mb_current_path a
  | UtilityBased a => ub_current_path a
  | GoalBased a => gb_current_path a
  end.

Definition cached_goal (p : Policy) : option coord :=
  match p with
  | UtilityBased a => current_goal a
  | _ => None
  end.

(** * Properties *)

(** ** Grid shape and pure readings of the environment *)

(** The shape [__init__] gives the grid: [height] rows of [width] tiles. *)
Definition grid_ok (e : Environment) : Prop :=
  length (grid e) = Z.to_nat (height e) ∧
  Forall (λ row, length row = Z.to_nat (width e)) (grid e).

(** A grid state: the shape above, with the robot inside the grid. *)
Definition env_ok (e : Environment) : Prop :=
  grid_ok e ∧ is_valid_position e (robot_pos e).1 (robot_pos e).2 = true.

Definition tile (g : list (list TileState)) (c : coord) : TileState :=
  default OBSTACLE (row ← g !! Z.to_nat c.2; row !! Z.to_nat c.1).

Definition walkable (e : Environment) (c : coord) : bool :=
  is_valid_position e c.1 c.2 && bool_decide (tile (grid e) c ≠ OBSTACLE).

Definition nbrs (e : Environment) (c : coord) : list coord :=
  filter (λ n, walkable e n = true)
    [(c.1 + 0, c.2 + -1); (c.1 + 1, c.2 + 0); (c.1 + 0, c.2 + 1); (c.1 + -1, c.2 + 0)].

Lemma py_norm_in_range n i :
  0 ≤ i < Z.of_nat n → py_norm n i = Some (Z.to_nat i).
Proof.
  intros H. unfold py_norm.
  destruct (decide (i < 0)) as [|_]; [lia|].
  destruct (decide (0 ≤ i < Z.of_nat n)); [done|lia].
Qed.

Lemma is_valid_position_spec e x y :
  is_valid_position e x y = true ↔ (0 ≤ x < width e) ∧ (0 ≤ y < height e).
Proof.
  unfold is_valid_position.
  rewrite andb_true_iff, !bool_decide_eq_true. done.
Qed.

Lemma grid_row e y :
  grid_ok e → 0 ≤ y < height e →
  ∃ row, grid e !! Z.to_nat y = Some row ∧ length row = Z.to_nat (width e).
Proof.
  intros [Hl Hr] Hy.
  destruct (lookup_lt_is_Some_2 (grid e) (Z.to_nat y)) as [row Hrow]; [lia|].
  exists row. split; [done|].
  rewrite Forall_forall in Hr. apply Hr. by eapply list_elem_of_lookup_2.
Qed.

Lemma grid_get_ok e x y :
  grid_ok e → is_valid_position e x y = true →
  grid_get (grid e) x y = Ok (tile (grid e) (x, y)).
Proof.
  intros Hok [Hx Hy]%is_valid_position_spec.
  destruct (grid_row e y Hok Hy) as (row & Hrow & Hlen).
  destruct Hok as [Hl _].
  destruct (lookup_lt_is_Some_2 row (Z.to_nat x)) as [t Ht]; [lia|].
  unfold grid_get, py_getitem, tile. simpl.
  rewrite py_norm_in_range by lia. rewrite Hrow. simpl.
  rewrite py_norm_in_range by lia. by rewrite Ht.
Qed.

Lemma get_tile_state_ok e x y :
  grid_ok e →
  get_tile_state e x y =
    Ok (if is_valid_position e x y then tile (grid e) (x, y) else OBSTACLE).
Proof.
  intros Hok. unfold get_tile_state.
  destruct (is_valid_position e x y) eqn:Hv; simpl; [|done].
  by apply grid_get_ok.
Qed.

Lemma is_walkable_ok e x y :
  grid_ok e → is_walkable e x y = Ok (walkable e (x, y)).
Proof.
  intros Hok. unfold is_walkable, walkable. simpl.
  destruct (is_valid_position e x y) eqn:Hv; [|done].
  by rewrite grid_get_ok.
Qed.


Lemma get_neighbors_ok e x y :
  grid_ok e → get_neighbors e x y = Ok (nbrs e (x, y)).
Proof.
  intros Hok. unfold get_neighbors, nbrs, directions.
  cbn [for_each bind fst snd].
  rewrite !is_walkable_ok by done. cbn [bind].
  rewrite !filter_cons, filter_nil.
  destruct (walkable e (x + 0, y + -1)), (walkable e (x + 1, y + 0)),
    (walkable e (x + 0, y + 1)), (walkable e (x + -1, y + 0));
    repeat case_decide; try done.
Qed.

Lemma nbrs_length e c : (length (nbrs e c) ≤ 4)%nat.
Proof. unfold nbrs. etrans; [apply length_filter|]. done. Qed.

Lemma nbrs_walkable e c n : n ∈ nbrs e c → walkable e n = true.
Proof. unfold nbrs. by intros [? _]%list_elem_of_filter. Qed.

(** Neighbouring cells differ by one step along one axis, so the Manhattan
    distance to any fixed cell changes by at most one. *)
Lemma nbrs_heuristic e c n goal :
  n ∈ nbrs e c → heuristic c goal ≤ 1 + heuristic n goal.
Proof.
  unfold nbrs. intros [_ Hn]%list_elem_of_filter.
  unfold heuristic. destruct c as [x y].
  repeat (apply elem_of_cons in Hn as [->|Hn]); [..|by apply elem_of_nil in Hn];
    simpl; lia.
Qed.

(** ** Routes over walkable cells *)

(** [edge e a b]: [b] is one of the neighbours [get_neighbors] returns for [a]. *)
Definition edge (e : Environment) (a b : coord) : Prop :=
  ∃ ns, get_neighbors e a.1 a.2 = Ok ns ∧ b ∈ ns.

(** [is_route e a l b]: [l] lists the cells visited after [a] on a walk from
    [a] to [b] along edges, in order, ending with [b] (the format of
    [SearchResult.path]). *)
Fixpoint is_route (e : Environment) (a : coord) (l : list coord) (b : coord) : Prop :=
  match l with
  | [] => a = b
  | c :: l' => edge e a c ∧ is_route e c l' b
  end.

Definition reachable (e : Environment) (a b : coord) : Prop :=
  ∃ l, is_route e a l b.

Lemma edge_nbrs e a b : grid_ok e → edge e a b ↔ b ∈ nbrs e a.
Proof.
  intros Hok. unfold edge. destruct a as [x y]. simpl.
  rewrite get_neighbors_ok by done. split.
  - intros (ns & [= <-] & H). done.
  - intros H. eauto.
Qed.

Lemma is_route_app e a l1 b l2 c :
  is_route e a l1 b → is_route e b l2 c → is_route e a (l1 ++ l2) c.
Proof.
  revert a. induction l1 as [|x l1 IH]; simpl; intros a.
  - by intros ->.
  - intros [He Hr] H2. split; [done|]. by apply IH.
Qed.

Lemma is_route_snoc e a l b c :
  is_route e a l b → edge e b c → is_route e a (l ++ [c]) c.
Proof. intros H1 H2. eapply is_route_app; [done|]. simpl. done. Qed.

Lemma reachable_refl e a : reachable e a a.
Proof. by exists []. Qed.

Lemma reachable_step e a b c : reachable e a b → edge e b c → reachable e a c.
Proof. intros [l Hl] He. exists (l ++ [c]). by eapply is_route_snoc. Qed.

(** ** Reasoning about [while_loop] *)

Section while_loop.
Context {S R : Type} (body : S → res (S + R)).

(** The states at the head of the loop: [steps s s'] when the loop started
    in [s] comes back to its test in state [s']. *)
Definition steps : relation S := rtc (λ s s', body s = Ok (inl s')).

Lemma steps_inv (Inv : S → Prop) :
  (∀ s s', Inv s → body s = Ok (inl s') → Inv s') →
  ∀ s s', Inv s → steps s s' → Inv s'.
Proof. intros Hstep s s' Hs Hrtc. induction Hrtc; eauto. Qed.

Lemma while_loop_inv (Inv : S → Prop) (Post : R → Prop) :
  (∀ s s', Inv s → body s = Ok (inl s') → Inv s') →
  (∀ s r, Inv s → body s = Ok (inr r) → Post r) →
  ∀ fuel s r, Inv s → while_loop body fuel s = Ok r → Post r.
Proof.
  intros Hstep Hend fuel. induction fuel as [|fuel IH]; intros s r Hs; [done|].
  simpl. destruct (body s) as [[s'|r']| |] eqn:Hb; simpl; try done.
  - intros H. eapply IH; [|done]. eauto.
  - intros [= <-]. eauto.
Qed.

Lemma while_loop_total (Inv : S → Prop) (Post : R → Prop) (M : S → nat) :
  (∀ s, Inv s →
     (∃ s', body s = Ok (inl s') ∧ Inv s' ∧ (M s' < M s)%nat) ∨
     (∃ r, body s = Ok (inr r) ∧ Post r)) →
  ∀ s, Inv s →
    ∃ r, Post r ∧ ∀ fuel, (M s < fuel)%nat → while_loop body fuel s = Ok r.
Proof.
  intros Hbody s. remember (M s) as m eqn:Hm.
  revert s Hm. induction (lt_wf m) as [m _ IH]. intros s -> Hs.
  destruct (Hbody s Hs) as [(s' & Hb & Hs' & Hlt)|(r & Hb & Hr)].
  - destruct (IH _ Hlt s' eq_refl Hs') as (r & Hr & Hrun).
    exists r. split; [done|]. intros [|fuel] Hf; [lia|].
    simpl. rewrite Hb. simpl. apply Hrun. lia.
  - exists r. split; [done|]. intros [|fuel] Hf; [lia|].
    simpl. by rewrite Hb.
Qed.
End while_loop.

(** ** The frontier of [bfs] and [dfs] *)

Section discover.
Context (ex : gset coord) (cur : coord).

Lemma discover_fold ns fr cf fr' cf' :
  foldl (λ s n, discover ex cur n s) (fr, cf) ns = (fr', cf') →
  ∃ added,
    fr' = fr ++ added ∧
    NoDup added ∧
    (∀ x, x ∈ added ↔ x ∈ ns ∧ cf !! x = None ∧ x ∉ ex) ∧
    dom cf' = dom cf ∪ list_to_set added ∧
    (∀ x, x ∈ added → cf' !! x = Some (Some cur)) ∧
    (∀ x, x ∉ added → cf' !! x = cf !! x).
Proof.
  revert fr cf. induction ns as [|n ns IH]; intros fr cf; simpl.
  - intros [= <- <-]. exists []. rewrite app_nil_r. split_and!; try done.
    + constructor.
    + intros x. split; [by intros ?%elem_of_nil|by intros [?%elem_of_nil _]].
    + set_solver.
    + by intros x ?%elem_of_nil.
  - destruct (bool_decide (cf !! n = None) && bool_decide (n ∉ ex)) eqn:Hc.
    + apply andb_true_iff in Hc as [Hn%bool_decide_eq_true Hx%bool_decide_eq_true].
      intros (added & -> & Hnd & Hin & Hdom & Hnew & Hold)%IH.
      assert (n ∉ added) as Hna.
      { intros (_ & Hl & _)%Hin. by rewrite lookup_insert_eq in Hl. }
      exists (n :: added). split_and!.
      * by rewrite <-app_assoc.
      * by constructor.
      * intros x. rewrite !elem_of_cons, Hin. split.
        -- intros [->|(? & Hl & ?)]; [by auto|].
           destruct (decide (n = x)) as [->|Hne]; [by auto|].
           rewrite lookup_insert_ne in Hl by done. auto.
        -- intros ([->|?] & Hl & ?); [by left|].
           destruct (decide (x = n)) as [->|Hne]; [by left|]. right.
           rewrite lookup_insert_ne by done. auto.
      * rewrite Hdom, dom_insert_L. set_solver.
      * intros x [->|Hx']%elem_of_cons; [|by auto].
        rewrite Hold by done. by rewrite lookup_insert_eq.
      * intros x [Hne Hx']%not_elem_of_cons.
        rewrite Hold by done. by rewrite lookup_insert_ne.
    + apply andb_false_iff in Hc.
      intros (added & -> & Hnd & Hin & Hdom & Hnew & Hold)%IH.
      exists added. split_and!; try done.
      intros x. rewrite Hin, elem_of_cons. split; [naive_solver|].
      intros ([->|?] & Hl & Hx); [|done].
      destruct Hc as [Hc%bool_decide_eq_false|Hc%bool_decide_eq_false]; done.
Qed.
End discover.

(** The frontier holds each cell once, none of them explored, and
    [came_from] records exactly the explored cells and the frontier. *)
Definition tidy (st : search_state) : Prop :=
  NoDup (frontier st) ∧
  (∀ x, x ∈ frontier st → x ∉ st_explored st) ∧
  dom (came_from st) = st_explored st ∪ list_to_set (frontier st).

Lemma tidy_initial start : tidy (initial_state start).
Proof.
  unfold tidy, initial_state. simpl. split_and!.
  - apply NoDup_singleton.
  - set_solver.
  - rewrite dom_singleton_L. set_solver.
Qed.

Lemma py_pop_snoc {A} (l : list A) x : py_pop (l ++ [x]) = Some (l, x).
Proof. unfold py_pop. by rewrite reverse_snoc, reverse_involutive. Qed.

Lemma py_pop_Some {A} (l rest : list A) x :
  py_pop l = Some (rest, x) ↔ l = rest ++ [x].
Proof.
  split; [|intros ->; apply py_pop_snoc].
  unfold py_pop. destruct (reverse l) as [|y r] eqn:Hr; [done|].
  intros [= <- <-]. apply (f_equal reverse) in Hr.
  by rewrite reverse_involutive, reverse_cons in Hr.
Qed.

Lemma py_pop_None {A} (l : list A) : py_pop l = None ↔ l = [].
Proof.
  split; [|by intros ->].
  destruct l as [|x l _] using rev_ind; [done|]. by rewrite py_pop_snoc.
Qed.

(** What one expansion does to a tidy state, whichever end of the frontier
    [cur] was taken from: the cells it appends are new to [came_from]. *)
Lemma expand_tidy e ex cur rest cf fr' cf' :
  NoDup rest → cur ∉ rest → (∀ x, x ∈ rest → x ∉ ex) →
  dom cf = ex ∪ {[cur]} ∪ list_to_set rest →
  expand e (ex ∪ {[cur]}) cur (rest, cf) = Ok (fr', cf') →
  ∃ added,
    fr' = rest ++ added ∧ NoDup added ∧
    (∀ x, x ∈ added → x ∉ dom cf) ∧
    dom cf' = dom cf ∪ list_to_set added ∧
    ∀ r, tidy (mkState fr' cf' (ex ∪ {[cur]}) r).
Proof.
  intros Hnd Hcur Hdisj Hdom. unfold expand.
  destruct (get_neighbors e cur.1 cur.2) as [ns| |]; simpl; [|done..].
  intros [= (added & -> & Hnda & Hin & Hdom' & _)%discover_fold].
  assert (∀ x, x ∈ added → x ∉ dom cf) as Hfresh.
  { intros x (_ & Hl & _)%Hin. by apply not_elem_of_dom. }
  exists added. split_and!; try done.
  intros r. unfold tidy. simpl. split_and!.
  - apply NoDup_app. split_and!; [done| |done].
    intros x Hx Hxa. apply (Hfresh x Hxa). rewrite Hdom. set_solver.
  - intros x [Hx|Hx]%elem_of_app.
    + specialize (Hdisj x Hx). set_solver.
    + specialize (Hfresh x Hx). rewrite Hdom in Hfresh. set_solver.
  - rewrite Hdom', Hdom, list_to_set_app_L. set_solver.
Qed.

(** The iterations of [bfs] and [dfs] that go round the loop again. *)
Lemma bfs_body_inl gas e start goal st st' :
  bfs_body gas e start goal st = Ok (inl st') →
  ∃ cur rest,
    frontier st = cur :: rest ∧ cur ≠ goal ∧
    expand e (st_explored st ∪ {[cur]}) cur (rest, came_from st)
      = Ok (frontier st', came_from st') ∧
    st_explored st' = st_explored st ∪ {[cur]} ∧
    result st' =
      count_expanded (log_frontier (result st) (list_to_set (frontier st))).
Proof.
  unfold bfs_body. destruct (frontier st) as [|cur rest] eqn:Hfr; [done|].
  destruct (decide (cur = goal)) as [->|Hne].
  { destruct (reconstruct_path _ _ _ _); done. }
  destruct (expand _ _ _ _) as [[fr' cf']| |] eqn:He; simpl; [|done..].
  intros [= <-]. exists cur, rest. by rewrite <-Hfr.
Qed.

Lemma dfs_body_inl gas e start goal st st' :
  dfs_body gas e start goal st = Ok (inl st') →
  ∃ cur rest,
    frontier st = rest ++ [cur] ∧
    result st' =
      (let r := log_frontier (result st) (list_to_set (frontier st)) in
       if bool_decide (cur ∈ st_explored st) then r else count_expanded r) ∧
    ((cur ∈ st_explored st ∧ frontier st' = rest ∧
      came_from st' = came_from st ∧ st_explored st' = st_explored st) ∨
     (cur ≠ goal ∧ (cur ∉ st_explored st) ∧
      expand e (st_explored st ∪ {[cur]}) cur (rest, came_from st)
        = Ok (frontier st', came_from st') ∧
      st_explored st' = st_explored st ∪ {[cur]})).
Proof.
  unfold dfs_body. destruct (py_pop (frontier st)) as [[rest cur]|] eqn:Hpop; [|done].
  apply py_pop_Some in Hpop.
  case_bool_decide as Hex.
  { intros [= <-]. exists cur, rest. simpl. rewrite bool_decide_eq_true_2 by done.
    split_and!; [done..|]. by left. }
  destruct (decide (cur = goal)) as [->|Hne].
  { destruct (reconstruct_path _ _ _ _); done. }
  destruct (expand _ _ _ _) as [[fr' cf']| |] eqn:He; simpl; [|done..].
  intros [= <-]. exists cur, rest. simpl. rewrite bool_decide_eq_false_2 by done.
  split_and!; [done..|]. by right.
Qed.

(** The cells an iteration appended to the frontier: everything behind the
    entries that were there before, less the one it took. *)
Definition appended (s s' : search_state) : list coord :=
  drop (length (frontier s) - 1) (frontier s').

(** All cells appended during the first [fuel] iterations from [s]. *)
Fixpoint pushes (body : search_state → res (search_state + SearchResult))
    (fuel : nat) (s : search_state) : list coord :=
  match fuel with
  | O => []
  | S fuel' =>
      match body s with
      | Ok (inl s') => appended s s' ++ pushes body fuel' s'
      | _ => []
      end
  end.

(** What an iteration that continues does to a tidy state. *)
Definition step_ok (st st' : search_state) : Prop :=
  tidy st' ∧ NoDup (appended st st') ∧
  (∀ x, x ∈ appended st st' →
        (x ∉ dom (came_from st)) ∧ x ∈ dom (came_from st')) ∧
  dom (came_from st) ⊆ dom (came_from st').

Lemma bfs_step_tidy gas e start goal st st' :
  tidy st → bfs_body gas e start goal st = Ok (inl st') → step_ok st st'.
Proof.
  intros (Hnd & Hdisj & Hdom) (cur & rest & Hfr & _ & Hexp & Hex & _)%bfs_body_inl.
  rewrite Hfr in Hnd, Hdisj, Hdom. apply NoDup_cons in Hnd as [Hcur Hnd].
  eapply expand_tidy in Hexp as (added & Hfr' & Hnda & Hfresh & Hdom' & Htidy);
    [|done|done| |].
  - unfold step_ok, appended. rewrite Hfr, Hfr'. simpl.
    rewrite Nat.sub_0_r, drop_app_length. split_and!; try done.
    + destruct st'. simpl in *. subst. apply Htidy.
    + intros x Hx. split; [by apply Hfresh|]. rewrite Hdom'. set_solver.
    + rewrite Hdom'. set_solver.
  - intros x Hx. apply Hdisj. by right.
  - rewrite Hdom. set_solver.
Qed.

Lemma dfs_step_tidy gas e start goal st st' :
  tidy st → dfs_body gas e start goal st = Ok (inl st') → step_ok st st'.
Proof.
  intros (Hnd & Hdisj & Hdom) (cur & rest & Hfr & _ & Hcase)%dfs_body_inl.
  rewrite Hfr in Hnd, Hdisj, Hdom.
  apply NoDup_app in Hnd as (Hnd & Hcur & _).
  destruct Hcase as [(Hin & _)|(_ & Hcex & Hexp & Hex)].
  { exfalso. apply (Hdisj cur); [|done]. apply elem_of_app. right. by left. }
  eapply expand_tidy in Hexp as (added & Hfr' & Hnda & Hfresh & Hdom' & Htidy);
    [|done| | |].
  - unfold step_ok, appended. rewrite Hfr, Hfr', length_app. simpl.
    replace (length rest + 1 - 1)%nat with (length rest) by lia.
    rewrite drop_app_length. split_and!; try done.
    + destruct st'. simpl in *. subst. apply Htidy.
    + intros x Hx. split; [by apply Hfresh|]. rewrite Hdom'. set_solver.
    + rewrite Hdom'. set_solver.
  - intros Hin. apply (Hcur cur Hin). by left.
  - intros x Hx. apply Hdisj. apply elem_of_app. by left.
  - rewrite Hdom, list_to_set_app_L. set_solver.
Qed.

Lemma pushes_fresh body :
  (∀ st st', tidy st → body st = Ok (inl st') → step_ok st st') →
  ∀ fuel st, tidy st →
    NoDup (pushes body fuel st) ∧
    ∀ x, x ∈ pushes body fuel st → x ∉ dom (came_from st).
Proof.
  intros Hstep fuel. induction fuel as [|fuel IH]; intros st Hst; simpl.
  { split; [constructor|]. by intros x ?%elem_of_nil. }
  destruct (body st) as [[st'|r]| |] eqn:Hb;
    try (split; [constructor|]; by intros x ?%elem_of_nil).
  destruct (Hstep st st' Hst Hb) as (Hst' & Hnd & Hfresh & Hsub).
  destruct (IH st' Hst') as [Hnd' Hfresh'].
  split.
  - apply NoDup_app. split_and!; [done| |done].
    intros x Hx Hx'. apply (Hfresh' x Hx'). by apply Hfresh.
  - intros x [Hx|Hx]%elem_of_app; [by apply Hfresh|].
    specialize (Hfresh' x Hx). set_solver.
Qed.

(** C10: in [bfs] and in [dfs] no cell is appended to the frontier twice
    during a search (the first entry, [start], included), at the head of
    every iteration the frontier holds no cell twice, and the cell [dfs]
    pops is never an explored one: its [continue] branch is dead. *)
Theorem frontier_appends_once gas e start goal :
  (∀ fuel, NoDup (start :: pushes (bfs_body gas e start goal) fuel (initial_state start))) ∧
  (∀ st, steps (bfs_body gas e start goal) (initial_state start) st →
         NoDup (frontier st)) ∧
  (∀ fuel, NoDup (start :: pushes (dfs_body gas e start goal) fuel (initial_state start))) ∧
  (∀ st, steps (dfs_body gas e start goal) (initial_state start) st →
         NoDup (frontier st) ∧
         ∀ rest current, py_pop (frontier st) = Some (rest, current) →
                         current ∉ st_explored st).
Proof.
  assert (∀ body fuel,
    (∀ st st', tidy st → body st = Ok (inl st') → step_ok st st') →
    NoDup (start :: pushes body fuel (initial_state start))) as Hlog.
  { intros body fuel Hstep.
    destruct (pushes_fresh body Hstep fuel _ (tidy_initial start)) as [Hnd Hfresh].
    constructor; [|done]. intros Hin%Hfresh. simpl in Hin.
    rewrite dom_singleton_L in Hin. set_solver. }
  split_and!.
  - intros fuel. apply Hlog. intros st st'. apply bfs_step_tidy.
  - intros st Hst.
    assert (tidy st) as (Hnd & _); [|done].
    eapply (steps_inv _ tidy); [|apply tidy_initial|done].
    intros s s' Hs Hb. by eapply bfs_step_tidy.
  - intros fuel. apply Hlog. intros st st'. apply dfs_step_tidy.
  - intros st Hst.
    assert (tidy st) as (Hnd & Hdisj & _).
    { eapply (steps_inv _ tidy); [|apply tidy_initial|done].
      intros s s' Hs Hb. by eapply dfs_step_tidy. }
    split; [done|]. intros rest cur Hpop%py_pop_Some.
    apply Hdisj. rewrite Hpop. apply elem_of_app. right. by left.
Qed.

(** ** The predecessor tree *)

Section tree.
Context (e : Environment) (start : coord).
Context (cf : gmap coord (option coord)) (d : coord → nat).

(** [came_from] is a tree rooted at [start]: every other recorded cell
    points to a recorded cell one edge and one level closer to [start]. *)
Definition tree_ok : Prop :=
  cf !! start = Some None ∧ d start = 0%nat ∧
  (∀ n, cf !! n = Some None → n = start) ∧
  (∀ n p, cf !! n = Some (Some p) →
          is_Some (cf !! p) ∧ edge e p n ∧ d n = S (d p)).

Lemma reconstruct_loop_route fuel n acc r :
  tree_ok → is_Some (cf !! n) →
  reconstruct_loop fuel cf start n acc = Ok r →
  ∃ l, r = acc ++ reverse l ∧ is_route e start l n ∧ length l = d n.
Proof.
  intros (Hs & Hd0 & Hroot & Htree). revert n acc.
  induction fuel as [|fuel IH]; intros n acc Hn; simpl.
  - destruct (decide (n = start)) as [->|Hne]; [|done].
    intros [= <-]. exists []. by rewrite app_nil_r.
  - destruct (decide (n = start)) as [->|Hne].
    { intros [= <-]. exists []. by rewrite app_nil_r. }
    destruct (cf !! n) as [[p|]|] eqn:Hp; [|done..].
    destruct (Htree n p Hp) as (Hpin & Hedge & Hdn).
    intros (l & -> & Hl & Hlen)%IH; [|done].
    exists (l ++ [n]). split_and!.
    + by rewrite reverse_snoc, <-app_assoc.
    + by eapply is_route_snoc.
    + rewrite length_app. simpl. lia.
Qed.

Lemma reconstruct_loop_total fuel n acc :
  tree_ok → is_Some (cf !! n) → (d n ≤ fuel)%nat →
  ∃ r, reconstruct_loop fuel cf start n acc = Ok r.
Proof.
  intros (Hs & Hd0 & Hroot & Htree). revert n acc.
  induction fuel as [|fuel IH]; intros n acc Hn Hfuel; simpl.
  - destruct (decide (n = start)) as [->|Hne]; [by eauto|].
    destruct Hn as [[p|] Hp].
    + destruct (Htree n p Hp) as (_ & _ & Hdn). lia.
    + by apply Hroot in Hp.
  - destruct (decide (n = start)) as [->|Hne]; [by eauto|].
    destruct Hn as [[p|] Hp]; rewrite Hp.
    + destruct (Htree n p Hp) as (Hpin & _ & Hdn). apply IH; [done|lia].
    + by apply Hroot in Hp.
Qed.

Lemma reconstruct_path_route fuel goal p :
  tree_ok → is_Some (cf !! goal) →
  reconstruct_path fuel cf start goal = Ok p →
  is_route e start p goal ∧ length p = d goal.
Proof.
  intros Ht Hg. unfold reconstruct_path.
  destruct (reconstruct_loop _ _ _ _ _) as [r| |] eqn:Hr; simpl; [|done..].
  intros [= <-].
  apply reconstruct_loop_route in Hr as (l & -> & Hl & Hlen); [|done..].
  by rewrite app_nil_l, reverse_involutive.
Qed.
End tree.

(** ** Exploration of the component of [start] *)

(** All cells of the grid. *)
Definition cells (e : Environment) : gset coord :=
  list_to_set (y ← range (height e); x ← range (width e); [(x, y)]).

Lemma walkable_cells e c : walkable e c = true → c ∈ cells e.
Proof.
  unfold walkable. intros [[Hx Hy]%is_valid_position_spec _]%andb_true_iff.
  unfold cells, range. apply elem_of_list_to_set, list_elem_of_bind.
  exists c.2. split; [|apply elem_of_seqZ; lia].
  apply list_elem_of_bind. exists c.1. split; [|apply elem_of_seqZ; lia].
  destruct c. simpl. by left.
Qed.

Lemma expand_spec e ex cur rest cf :
  grid_ok e →
  ∃ added cf',
    expand e ex cur (rest, cf) = Ok (rest ++ added, cf') ∧
    NoDup added ∧
    (∀ x, x ∈ added ↔ x ∈ nbrs e cur ∧ cf !! x = None ∧ x ∉ ex) ∧
    dom cf' = dom cf ∪ list_to_set added ∧
    (∀ x, x ∈ added → cf' !! x = Some (Some cur)) ∧
    (∀ x, x ∉ added → cf' !! x = cf !! x).
Proof.
  intros Hok. unfold expand. rewrite get_neighbors_ok by done. simpl.
  destruct (foldl _ _ _) as [fr' cf'] eqn:Hf.
  apply discover_fold in Hf as (added & -> & H).
  exists added, cf'. split; [done|]. by destruct cur.
Qed.

Section explore.
Context (e : Environment) (Hok : grid_ok e) (start : coord).

(** The number of iterations still possible is bounded by the frontier
    and four entries for each cell not yet explored. *)
Definition universe : gset coord := {[start]} ∪ cells e.

Definition budget (fr : nat) (ex : gset coord) : nat :=
  (fr + 4 * size (universe ∖ ex))%nat.

Definition explore_inv (st : search_state) : Prop :=
  tidy st ∧
  start ∈ dom (came_from st) ∧
  dom (came_from st) ⊆ universe ∧
  (∀ n, n ∈ dom (came_from st) → reachable e start n) ∧
  (∀ p n, p ∈ st_explored st → n ∈ nbrs e p → n ∈ dom (came_from st)) ∧
  nodes_expanded (result st) = Z.of_nat (size (st_explored st)) ∧
  found (result st) = false.

Lemma explore_initial : explore_inv (initial_state start).
Proof.
  unfold explore_inv. split; [apply tidy_initial|]. simpl.
  rewrite dom_singleton_L. unfold universe. split_and!; try done.
  all: try set_solver.
  intros n ->%elem_of_singleton. apply reachable_refl.
Qed.

Lemma budget_explore fr fr' ex cur :
  cur ∈ universe → cur ∉ ex → (fr' + 1 ≤ fr + 4)%nat →
  (budget fr' (ex ∪ {[cur]}) < budget fr ex)%nat.
Proof.
  intros Hu Hex Hfr. unfold budget.
  assert (universe ∖ ex = {[cur]} ∪ universe ∖ (ex ∪ {[cur]})) as ->.
  { apply set_eq. intros x. rewrite elem_of_union, !elem_of_difference,
      elem_of_union, elem_of_singleton.
    destruct (decide (x = cur)) as [->|]; naive_solver. }
  rewrite (size_union {[cur]}) by set_solver. rewrite size_singleton. lia.
Qed.

(** The state after expanding [cur], taken from either end of the
    frontier whose other entries are [rest]. *)
Lemma explore_step st cur rest added cf' r :
  explore_inv st → frontier st ≡ₚ cur :: rest →
  NoDup added →
  (∀ x, x ∈ added ↔
        x ∈ nbrs e cur ∧ came_from st !! x = None ∧ x ∉ st_explored st ∪ {[cur]}) →
  dom cf' = dom (came_from st) ∪ list_to_set added →
  nodes_expanded r = nodes_expanded (result st) + 1 → found r = false →
  let st' := mkState (rest ++ added) cf' (st_explored st ∪ {[cur]}) r in
  explore_inv st' ∧
  (budget (length (frontier st')) (st_explored st') <
     budget (length (frontier st)) (st_explored st))%nat.
Proof.
  intros ((Hnd & Hdisj & Hdom) & Hstart & Huni & Hreach & Hclosed & Hcount & Hfound)
    Hperm Hnda Hadded Hdom' Hr Hf. simpl.
  rewrite Hperm in Hnd. apply NoDup_cons in Hnd as [Hcur Hnd].
  assert (cur ∉ st_explored st) as Hcex.
  { apply Hdisj. rewrite Hperm. by left. }
  assert (dom (came_from st) = st_explored st ∪ {[cur]} ∪ list_to_set rest) as Hdom2.
  { rewrite Hdom, Hperm. set_solver. }
  assert (∀ x, x ∈ added → x ∉ dom (came_from st)) as Hfresh.
  { intros x (_ & Hl & _)%Hadded. by apply not_elem_of_dom. }
  split; [split_and!|].
  - unfold tidy. simpl. split_and!.
    + apply NoDup_app. split_and!; [done| |done].
      intros x Hx Hxa. apply (Hfresh x Hxa). rewrite Hdom2. set_solver.
    + intros x [Hx|Hx]%elem_of_app.
      * assert (x ∉ st_explored st) by (apply Hdisj; rewrite Hperm; by right).
        set_solver.
      * specialize (Hfresh x Hx). rewrite Hdom2 in Hfresh. set_solver.
    + rewrite Hdom', Hdom2, list_to_set_app_L. set_solver.
  - simpl. rewrite Hdom'. set_solver.
  - simpl. rewrite Hdom'. intros x [Hx|Hx%elem_of_list_to_set]%elem_of_union.
    + by apply Huni.
    + apply Hadded in Hx as (Hx%nbrs_walkable%walkable_cells & _).
      unfold universe. set_solver.
  - simpl. rewrite Hdom'. intros x [Hx|Hx%elem_of_list_to_set]%elem_of_union.
    + by apply Hreach.
    + apply Hadded in Hx as (Hx & _).
      eapply reachable_step; [apply (Hreach cur)|by apply edge_nbrs].
      rewrite Hdom2. set_solver.
  - simpl. rewrite Hdom'. intros p n [Hp|Hp%elem_of_singleton]%elem_of_union Hn; [|subst p].
    + apply elem_of_union. left. by eapply Hclosed.
    + destruct (came_from st !! n) eqn:Hl.
      * apply elem_of_union. left. by apply elem_of_dom.
      * destruct (decide (n ∈ st_explored st ∪ {[cur]})) as [Hin|Hnin].
        -- rewrite Hdom2. set_solver.
        -- apply elem_of_union. right. apply elem_of_list_to_set, Hadded. done.
  - simpl. rewrite Hr, Hcount, (size_union (st_explored st)) by set_solver.
    rewrite size_singleton. lia.
  - done.
  - simpl. rewrite (Permutation_length Hperm), length_app. simpl.
    apply budget_explore; [|done|].
    + apply Huni. rewrite Hdom2. set_solver.
    + assert (length added ≤ length (nbrs e cur))%nat.
      { apply submseteq_length, NoDup_submseteq; [done|].
        by intros x (? & _)%Hadded. }
      pose proof (nbrs_length e cur). lia.
Qed.

(** When the frontier is empty the explored set is the component of
    [start]. *)
Lemma explore_done st :
  explore_inv st → frontier st = [] →
  ∀ c, c ∈ st_explored st ↔ reachable e start c.
Proof.
  intros ((_ & _ & Hdom) & Hstart & _ & Hreach & Hclosed & _) Hfr c.
  rewrite Hfr in Hdom. simpl in Hdom.
  assert (dom (came_from st) = st_explored st) as Hdom' by set_solver.
  rewrite Hdom' in *. split; [by apply Hreach|].
  intros [l Hl].
  assert (∀ l a, a ∈ st_explored st → is_route e a l c → c ∈ st_explored st)
    as Hwalk; [|by eapply Hwalk].
  clear l Hl. induction l as [|x l IH]; simpl; intros a Ha.
  - by intros <-.
  - intros [Hedge%edge_nbrs Hl]; [|done]. apply (IH x); [|done].
    by eapply Hclosed.
Qed.
End explore.

(** ** Searches for an unreachable goal *)

Section unreachable.
Context (e : Environment) (Hok : grid_ok e) (start goal : coord).
Context (Hgoal : ¬ reachable e start goal).

(** The result of an exhausted search. *)
Definition exhausted (r : SearchResult) : Prop :=
  found r = false ∧
  nodes_expanded r = Z.of_nat (size (explored r)) ∧
  ∀ c, c ∈ explored r ↔ reachable e start c.

Lemma exhausted_size (r : SearchResult) (comp : gset coord) :
  exhausted r → (∀ c, c ∈ comp ↔ reachable e start c) →
  nodes_expanded r = Z.of_nat (size comp).
Proof.
  intros (_ & -> & Hex) Hcomp. do 2 f_equal.
  apply set_eq. intros c. by rewrite Hex, Hcomp.
Qed.

Definition measure (st : search_state) : nat :=
  budget e start (length (frontier st)) (st_explored st).

Lemma frontier_not_goal st cur :
  explore_inv e start st → cur ∈ frontier st → cur ≠ goal.
Proof.
  intros ((_ & _ & Hdom) & _ & _ & Hreach & _) Hcur ->.
  apply Hgoal, Hreach. rewrite Hdom. set_solver.
Qed.

Lemma bfs_body_unreachable gas st :
  explore_inv e start st →
  (∃ st', bfs_body gas e start goal st = Ok (inl st') ∧
          explore_inv e start st' ∧ (measure st' < measure st)%nat) ∨
  (∃ r, bfs_body gas e start goal st = Ok (inr r) ∧ exhausted r).
Proof.
  intros Hinv. unfold bfs_body.
  destruct (frontier st) as [|cur rest] eqn:Hfr.
  - right. eexists. split; [done|].
    destruct Hinv as (Ht & Hs & Hu & Hr & Hc & Hn & Hf).
    split_and!; [done..|].
    apply explore_done; [done| |done].
    by split_and!.
  - left. destruct (decide (cur = goal)) as [Heq|_].
    { exfalso. eapply frontier_not_goal; [done| |done]. rewrite Hfr. by left. }
    destruct (expand_spec e (st_explored st ∪ {[cur]}) cur rest (came_from st) Hok)
      as (added & cf' & -> & Hnd & Hadded & Hdom & _).
    simpl. eexists. split; [done|].
    unfold measure.
    eapply (explore_step e Hok start st cur rest added cf'); try done.
    + by rewrite Hfr.
    + simpl. by destruct Hinv as (_ & _ & _ & _ & _ & _ & ->).
Qed.

Lemma dfs_body_unreachable gas st :
  explore_inv e start st →
  (∃ st', dfs_body gas e start goal st = Ok (inl st') ∧
          explore_inv e start st' ∧ (measure st' < measure st)%nat) ∨
  (∃ r, dfs_body gas e start goal st = Ok (inr r) ∧ exhausted r).
Proof.
  intros Hinv. unfold dfs_body.
  destruct (py_pop (frontier st)) as [[rest cur]|] eqn:Hpop.
  - left. apply py_pop_Some in Hpop.
    assert (cur ∈ frontier st) as Hcur.
    { rewrite Hpop. apply elem_of_app. right. by left. }
    rewrite bool_decide_eq_false_2.
    2:{ destruct Hinv as ((_ & Hdisj & _) & _). by apply Hdisj. }
    destruct (decide (cur = goal)) as [Heq|_].
    { exfalso. by eapply frontier_not_goal. }
    destruct (expand_spec e (st_explored st ∪ {[cur]}) cur rest (came_from st) Hok)
      as (added & cf' & -> & Hnd & Hadded & Hdom & _).
    simpl. eexists. split; [done|].
    unfold measure.
    eapply (explore_step e Hok start st cur rest added cf'); try done.
    + rewrite Hpop. by rewrite Permutation_app_comm.
    + simpl. by destruct Hinv as (_ & _ & _ & _ & _ & _ & ->).
  - right. apply py_pop_None in Hpop. eexists. split; [done|].
    destruct Hinv as (Ht & Hs & Hu & Hr & Hc & Hn & Hf).
    split_and!; [done..|].
    apply explore_done; [done| |done].
    by split_and!.
Qed.

Lemma start_not_goal : start ≠ goal.
Proof. intros ->. apply Hgoal, reachable_refl. Qed.

Lemma bfs_unreachable :
  ∃ gas0, ∀ gas, (gas0 ≤ gas)%nat →
    ∃ r, bfs gas e start goal = Ok r ∧ exhausted r.
Proof.
  exists (S (measure (initial_state start))). intros gas Hgas.
  destruct (while_loop_total (bfs_body gas e start goal)
              (explore_inv e start) exhausted measure
              (bfs_body_unreachable gas) _ (explore_initial e Hok start))
    as (r & Hr & Hrun).
  exists r. split; [|done]. unfold bfs.
  destruct (decide (start = goal)) as [Heq|_]; [by apply start_not_goal in Heq|].
  apply Hrun. lia.
Qed.

Lemma dfs_unreachable :
  ∃ gas0, ∀ gas, (gas0 ≤ gas)%nat →
    ∃ r, dfs gas e start goal = Ok r ∧ exhausted r.
Proof.
  exists (S (measure (initial_state start))). intros gas Hgas.
  destruct (while_loop_total (dfs_body gas e start goal)
              (explore_inv e start) exhausted measure
              (dfs_body_unreachable gas) _ (explore_initial e Hok start))
    as (r & Hr & Hrun).
  exists r. split; [|done]. unfold dfs.
  destruct (decide (start = goal)) as [Heq|_]; [by apply start_not_goal in Heq|].
  apply Hrun. lia.
Qed.
End unreachable.

(** ** Breadth-first search returns a shortest route *)

Section bfs_levels.
Context (e : Environment) (Hok : grid_ok e) (start goal : coord) (gas : nat).

(** The frontier holds the cells of level [k] not yet expanded, followed
    by the cells of level [k + 1] found so far; [d] is the level of a
    recorded cell. *)
Definition level_inv (st : search_state) : Prop :=
  ∃ (d : coord → nat) (k : nat) (l1 l2 : list coord),
    tree_ok e start (came_from st) d ∧
    (∀ p n, p ∈ st_explored st → n ∈ nbrs e p → (d n ≤ S (d p))%nat) ∧
    frontier st = l1 ++ l2 ∧
    (∀ x, x ∈ l1 → d x = k) ∧ (∀ x, x ∈ l2 → d x = S k) ∧
    (∀ x, x ∈ st_explored st → (d x ≤ k)%nat).

Definition bfs_inv (st : search_state) : Prop :=
  explore_inv e start st ∧ level_inv st.

Lemma bfs_inv_initial : bfs_inv (initial_state start).
Proof.
  split; [by apply explore_initial|].
  exists (λ _, 0%nat), 0%nat, [start], []. simpl. split_and!; try done.
  - unfold tree_ok. split_and!; try done.
    + apply lookup_singleton_eq.
    + intros n [-> _]%lookup_singleton_Some. done.
    + intros n p [_ ?]%lookup_singleton_Some. done.
  - by intros x ?%elem_of_nil.
Qed.

(** The same invariant seen from the cell about to be expanded. *)
Lemma level_inv_head st cur rest :
  level_inv st → frontier st = cur :: rest →
  ∃ (d : coord → nat) (m1 m2 : list coord),
    tree_ok e start (came_from st) d ∧
    (∀ p n, p ∈ st_explored st → n ∈ nbrs e p → (d n ≤ S (d p))%nat) ∧
    rest = m1 ++ m2 ∧
    (∀ x, x ∈ m1 → d x = d cur) ∧ (∀ x, x ∈ m2 → d x = S (d cur)) ∧
    (∀ x, x ∈ st_explored st → (d x ≤ d cur)%nat).
Proof.
  intros (d & k & l1 & l2 & Ht & Hlip & Hfr & H1 & H2 & Hex) Hcons.
  rewrite Hcons in Hfr. exists d.
  destruct l1 as [|c l1]; simpl in Hfr.
  - subst l2. exists rest, [].
    assert (d cur = S k) as Hcur by (apply H2; by left).
    rewrite Hcur, app_nil_r. split_and!; try done.
    + intros x Hx. apply H2. by right.
    + by intros x ?%elem_of_nil.
    + intros x Hx%Hex. lia.
  - injection Hfr as <- ->. exists l1, l2.
    assert (d cur = k) as Hcur by (apply H1; by left).
    rewrite Hcur. split_and!; try done.
    intros x Hx. apply H1. by right.
Qed.

Lemma bfs_inv_step st st' :
  bfs_inv st → bfs_body gas e start goal st = Ok (inl st') → bfs_inv st'.
Proof.
  intros [Hexp Hlev] (cur & rest & Hfr & Hne & Hrun & Hex' & Hres)%bfs_body_inl.
  destruct (expand_spec e (st_explored st ∪ {[cur]}) cur rest (came_from st) Hok)
    as (added & cf' & Heq & Hnd & Hadded & Hdom & Hnew & Hold).
  rewrite Heq in Hrun. injection Hrun as Hfr' Hcf'.
  assert (st' = mkState (rest ++ added) cf' (st_explored st ∪ {[cur]}) (result st'))
    as Hst'.
  { destruct st'. simpl in *. by subst. }
  split.
  { rewrite Hst'.
    eapply (explore_step e Hok start st cur rest added cf'); try done.
    - by rewrite Hfr.
    - rewrite Hres. done.
    - rewrite Hres. simpl. by destruct Hexp as (_ & _ & _ & _ & _ & _ & ->). }
  destruct (level_inv_head st cur rest Hlev Hfr)
    as (d & m1 & m2 & Ht & Hlip & Hrest & H1 & H2 & Hexd).
  destruct Hexp as ((Hndf & Hdisj & Hdomf) & _ & _ & _ & Hclosed & _).
  rewrite Hfr in Hndf, Hdisj, Hdomf.
  assert (∀ x, x ∈ dom (came_from st) → x ∉ added) as Hrec.
  { intros x Hx (_ & Hl & _)%Hadded. by apply not_elem_of_dom in Hl. }
  assert (∀ x, x ∈ dom (came_from st) → (d x ≤ S (d cur))%nat) as Hbound.
  { intros x. rewrite Hdomf, Hrest.
    intros [Hx|[->|[Hx|Hx]%elem_of_app]%elem_of_list_to_set%elem_of_cons]%elem_of_union.
    - apply Hexd in Hx. lia.
    - lia.
    - rewrite H1; [lia|done].
    - rewrite H2; [lia|done]. }
  assert (cur ∈ dom (came_from st)) as Hcur by (rewrite Hdomf; set_solver).
  set (d' := λ x, if decide (x ∈ added) then S (d cur) else d x).
  assert (∀ x, x ∈ dom (came_from st) → d' x = d x) as Hd'.
  { intros x Hx%Hrec. unfold d'. by rewrite decide_False. }
  destruct Ht as (Hs & Hd0 & Hroot & Htree).
  exists d', (d cur), m1, (m2 ++ added).
  rewrite Hst'. simpl. split_and!.
  - unfold tree_ok. split_and!.
    + rewrite Hold; [done|]. apply Hrec. by apply elem_of_dom.
    + rewrite Hd'; [done|]. by apply elem_of_dom.
    + intros n Hn. destruct (decide (n ∈ added)) as [Hin|Hnin].
      * by rewrite Hnew in Hn.
      * rewrite Hold in Hn by done. by apply Hroot.
    + intros n p Hn. destruct (decide (n ∈ added)) as [Hin|Hnin].
      * rewrite Hnew in Hn by done. injection Hn as Hp. subst p. split_and!.
        -- rewrite Hold by by apply Hrec. by apply elem_of_dom.
        -- apply edge_nbrs; [done|]. by apply Hadded.
        -- rewrite (Hd' cur) by done. unfold d'. by rewrite decide_True.
      * rewrite Hold in Hn by done.
        destruct (Htree n p Hn) as (Hp & Hedge & Hdn).
        assert (p ∈ dom (came_from st)) as Hpd by by apply elem_of_dom.
        split_and!; [|done|].
        -- rewrite Hold by by apply Hrec. done.
        -- rewrite !Hd'; [done..|]. apply elem_of_dom. by rewrite Hn.
  - intros p n Hp Hn.
    assert (p ∈ dom (came_from st)) as Hpd by (rewrite Hdomf; set_solver).
    rewrite (Hd' p Hpd).
    destruct (decide (n ∈ added)) as [Hin|Hnin].
    { unfold d'. rewrite decide_True by done.
      apply Hadded in Hin as (Hin & Hnone & _).
      apply elem_of_union in Hp as [Hp|Hp%elem_of_singleton]; [|subst p; lia].
      apply not_elem_of_dom in Hnone. destruct Hnone. by eapply Hclosed. }
    apply elem_of_union in Hp as [Hp|Hp%elem_of_singleton]; [|subst p].
    + rewrite Hd' by by eapply Hclosed. by apply Hlip.
    + assert (n ∈ dom (came_from st)) as Hnd'.
      { destruct (came_from st !! n) eqn:Hl; [by apply elem_of_dom|].
        destruct (decide (n ∈ st_explored st ∪ {[cur]})) as [Hn'|Hn'].
        - rewrite Hdomf. set_solver.
        - destruct Hnin. apply Hadded. done. }
      rewrite Hd' by done. by apply Hbound.
  - by rewrite Hrest, app_assoc.
  - intros x Hx. rewrite Hd'; [by apply H1|].
    rewrite Hdomf, Hrest. set_solver.
  - intros x [Hx|Hx]%elem_of_app.
    + rewrite Hd'; [by apply H2|]. rewrite Hdomf, Hrest. set_solver.
    + unfold d'. by rewrite decide_True.
  - intros x Hx. rewrite Hd' by (rewrite Hdomf; set_solver).
    apply elem_of_union in Hx as [Hx|Hx%elem_of_singleton]; [by apply Hexd|subst x; lia].
Qed.

(** No route to the cell at the head of the frontier is shorter than its
    level. *)
Lemma head_level_minimal st cur rest d :
  explore_inv e start st → frontier st = cur :: rest →
  (∀ p n, p ∈ st_explored st → n ∈ nbrs e p → (d n ≤ S (d p))%nat) →
  (∀ y, y ∈ frontier st → (d cur ≤ d y)%nat) →
  ∀ l a, a ∈ dom (came_from st) → is_route e a l cur →
         (d cur ≤ d a + length l)%nat.
Proof.
  intros ((_ & _ & Hdom) & _ & _ & _ & Hclosed & _) Hfr Hlip Hmin.
  induction l as [|x l IH]; simpl; intros a Ha.
  - intros ->. lia.
  - intros [Hedge%edge_nbrs Hl]; [|done].
    rewrite Hdom in Ha. apply elem_of_union in Ha as [Ha|Ha%elem_of_list_to_set].
    + specialize (Hlip a x Ha Hedge).
      specialize (IH x (Hclosed a x Ha Hedge) Hl). lia.
    + specialize (Hmin a Ha). lia.
Qed.

(** What [bfs] returns when it finds the goal. *)
Definition shortest (a b : coord) (r : SearchResult) : Prop :=
  is_route e a (path r) b ∧
  (∀ l, is_route e a l b → (length (path r) ≤ length l)%nat) ∧
  path_cost r = Z.of_nat (length (path r)).

Lemma bfs_inv_end st r :
  bfs_inv st → bfs_body gas e start goal st = Ok (inr r) →
  found r = true → shortest start goal r.
Proof.
  intros [Hexp Hlev]. unfold bfs_body.
  destruct (frontier st) as [|cur rest] eqn:Hfr.
  { intros [= <-]. simpl. by destruct Hexp as (_ & _ & _ & _ & _ & _ & ->). }
  destruct (decide (cur = goal)) as [->|Hne].
  2:{ destruct (expand _ _ _ _) as [[??]| |]; done. }
  destruct (reconstruct_path _ _ _ _) as [p| |] eqn:Hp; simpl; [|done..].
  intros [= <-] _. unfold shortest. simpl.
  destruct (level_inv_head st goal rest Hlev Hfr)
    as (d & m1 & m2 & Ht & Hlip & Hrest & H1 & H2 & Hexd).
  assert (goal ∈ dom (came_from st)) as Hgd.
  { destruct Hexp as ((_ & _ & ->) & _). rewrite Hfr. set_solver. }
  eapply reconstruct_path_route in Hp as [Hroute Hlen];
    [|done|by apply elem_of_dom].
  split_and!; [done| |done].
  intros l Hl. rewrite Hlen.
  assert (∀ y, y ∈ frontier st → (d goal ≤ d y)%nat) as Hhead.
  { intros y. rewrite Hfr, Hrest.
    intros [->|[Hy|Hy]%elem_of_app]%elem_of_cons;
      [lia|rewrite (H1 y)|rewrite (H2 y)]; done || lia. }
  pose proof (head_level_minimal st goal rest d Hexp Hfr Hlip Hhead l start) as Hmin.
  destruct Ht as (_ & Hd0 & _). rewrite Hd0 in Hmin.
  apply Hmin; [|done]. apply Hexp.
Qed.

Lemma bfs_shortest_route r :
  bfs gas e start goal = Ok r → found r = true → shortest start goal r.
Proof.
  unfold bfs. destruct (decide (start = goal)) as [->|Hne].
  { intros [= <-] _. unfold shortest. simpl. split_and!; [done| |done].
    intros l _. lia. }
  intros Hrun Hfound.
  eapply (while_loop_inv _ bfs_inv (λ r, found r = true → shortest start goal r));
    [apply bfs_inv_step|apply bfs_inv_end|apply bfs_inv_initial|done|done].
Qed.
End bfs_levels.

(** C1: when [bfs] reports [found], its path is a route from [a] to [b]
    over walkable cells, no route from [a] to [b] has fewer hops, and
    [path_cost] is the number of hops of the path. *)
Theorem bfs_returns_shortest_path (e : Environment) (a b : coord) (gas : nat)
    (r : SearchResult) :
  grid_ok e → bfs gas e a b = Ok r → found r = true →
  is_route e a (path r) b ∧
  (∀ l, is_route e a l b → (length (path r) ≤ length l)%nat) ∧
  path_cost r = Z.of_nat (length (path r)).
Proof. intros Hok Hrun Hfound. by eapply bfs_shortest_route. Qed.

(** ** The priority queue *)

Definition tuple_le (a b : entry) : Prop := ¬ tuple_lt b a.

Lemma elem_of_heappush h x y : y ∈ heappush h x ↔ y = x ∨ y ∈ h.
Proof.
  induction h as [|z h IH]; simpl.
  - rewrite list_elem_of_singleton. set_solver.
  - destruct (decide (tuple_lt z x)).
    + rewrite !elem_of_cons, IH. naive_solver.
    + rewrite !elem_of_cons. naive_solver.
Qed.

Lemma length_heappush h x : length (heappush h x) = S (length h).
Proof.
  induction h as [|z h IH]; simpl; [done|].
  destruct (decide (tuple_lt z x)); simpl; by rewrite ?IH.
Qed.

Lemma heappush_sorted h x :
  StronglySorted tuple_le h → StronglySorted tuple_le (heappush h x).
Proof.
  induction 1 as [|z h Hs IH Hz]; simpl.
  - repeat constructor.
  - destruct (decide (tuple_lt z x)) as [Hlt|Hnlt].
    + constructor; [done|]. apply Forall_forall. intros y [->|Hy]%elem_of_heappush.
      * revert Hlt. unfold tuple_le, tuple_lt. lia.
      * rewrite Forall_forall in Hz. by apply Hz.
    + constructor; [by constructor|]. constructor; [done|].
      eapply Forall_impl; [done|]. intros y. revert Hnlt.
      unfold tuple_le, tuple_lt. lia.
Qed.

(** The entry [heappop] returns has the smallest [f_score] of the heap. *)
Lemma heappop_min h f c rest f' c' :
  StronglySorted tuple_le h → heappop h = Some ((f, c), rest) →
  (f', c') ∈ h → f ≤ f'.
Proof.
  destruct h as [|x h]; [done|]. simpl. intros Hs [= -> ->].
  apply StronglySorted_inv in Hs as [_ Hall].
  intros [[= -> ->]|Hin]%elem_of_cons; [lia|].
  rewrite Forall_forall in Hall. specialize (Hall _ Hin). revert Hall.
  unfold tuple_le, tuple_lt. simpl. lia.
Qed.

Lemma route_heuristic e a l b goal :
  grid_ok e → is_route e a l b →
  heuristic a goal ≤ Z.of_nat (length l) + heuristic b goal.
Proof.
  intros Hok. revert a. induction l as [|x l IH]; simpl; intros a.
  - intros ->. lia.
  - intros [Hedge%edge_nbrs Hl]; [|done].
    apply (nbrs_heuristic _ _ _ goal) in Hedge. specialize (IH x Hl). lia.
Qed.

(** ** The invariant of [astar] *)

Section astar.
Context (e : Environment) (Hok : grid_ok e) (start goal : coord).

(** [ex] is the explored set and [lip] the cells whose expansion is
    complete. *)
Record relax_inv (ex lip : gset coord) (fr : list entry)
    (cf : gmap coord (option coord)) (g : gmap coord Z) : Prop := {
  ri_start_g : g !! start = Some 0;
  ri_start_cf : cf !! start = Some None;
  ri_dom : dom cf = dom g;
  ri_root : ∀ n, cf !! n = Some None → n = start;
  ri_parent : ∀ n p, cf !! n = Some (Some p) →
    p ∈ ex ∧ n ∈ nbrs e p ∧ ∃ gp, g !! p = Some gp ∧ g !! n = Some (gp + 1);
  ri_lip : ∀ p n gp, p ∈ lip → n ∈ nbrs e p → g !! p = Some gp →
    ∃ gn, g !! n = Some gn ∧ gn ≤ gp + 1;
  ri_pending : ∀ n gn, g !! n = Some gn → n ∉ ex →
    (gn + heuristic n goal, n) ∈ fr;
  ri_entries : ∀ f n, (f, n) ∈ fr →
    ∃ gn, g !! n = Some gn ∧ gn + heuristic n goal ≤ f;
  ri_sorted : StronglySorted tuple_le fr;
  ri_route : ∀ n gn, g !! n = Some gn →
    ∃ l, is_route e start l n ∧ Z.of_nat (length l) = gn;
  ri_optimal : ∀ n gn l, n ∈ ex → g !! n = Some gn →
    is_route e start l n → gn ≤ Z.of_nat (length l);
  ri_universe : dom g ⊆ universe e start;
  ri_explored : ex ⊆ dom g;
  ri_lip_sub : lip ⊆ ex
}.

Lemma relax_update ex cur gc n fr cf g :
  relax_inv (ex ∪ {[cur]}) ex fr cf g → start ∈ ex ∪ {[cur]} →
  g !! cur = Some gc → n ∈ nbrs e cur → n ∉ ex ∪ {[cur]} →
  (∀ gn, g !! n = Some gn → gc + 1 < gn) →
  relax_inv (ex ∪ {[cur]}) ex
    (heappush fr (gc + 1 + heuristic n goal, n))
    (<[n := Some cur]> cf) (<[n := gc + 1]> g).
Proof.
  intros [] Hstart Hgc Hn Hnex Hbetter.
  assert (n ≠ cur) as Hncur by set_solver.
  assert (n ≠ start) as Hnstart by set_solver.
  split.
  - by rewrite lookup_insert_ne.
  - by rewrite lookup_insert_ne.
  - rewrite !dom_insert_L. by f_equal.
  - intros m. rewrite lookup_insert. case_decide; [done|]. auto.
  - intros m p. rewrite lookup_insert. case_decide as Hm.
    + subst m. intros [= <-]. split_and!; [set_solver|done|].
      exists gc. by rewrite lookup_insert_ne, lookup_insert_eq.
    + intros (Hp & Hedge & gp & Hgp & Hgm)%ri_parent0.
      split_and!; [done..|]. exists gp.
      rewrite !lookup_insert_ne; [done|done|set_solver].
  - intros p m gp Hp Hm. rewrite lookup_insert_ne by set_solver.
    intros (gm & Hgm & Hle)%(ri_lip0 p m); [|done..].
    rewrite lookup_insert. case_decide as Hmn.
    + subst m. exists (gc + 1). split; [done|].
      specialize (Hbetter gm Hgm). lia.
    + eauto.
  - intros m gm. rewrite lookup_insert, elem_of_heappush.
    case_decide as Hmn.
    + subst m. intros [= <-] _. by left.
    + intros Hgm Hm. right. by apply ri_pending0.
  - intros f m [[= -> ->]|Hin]%elem_of_heappush.
    + exists (gc + 1). rewrite lookup_insert_eq. split; [done|lia].
    + destruct (ri_entries0 f m Hin) as (gm & Hgm & Hle).
      rewrite lookup_insert. case_decide as Hmn.
      * subst m. exists (gc + 1). split; [done|].
        specialize (Hbetter gm Hgm). lia.
      * eauto.
  - by apply heappush_sorted.
  - intros m gm. rewrite lookup_insert. case_decide as Hmn.
    + subst m. intros [= <-].
      destruct (ri_route0 cur gc Hgc) as (l & Hl & Hlen).
      exists (l ++ [n]). split.
      * eapply is_route_snoc; [done|]. by apply edge_nbrs.
      * rewrite length_app. simpl. lia.
    + apply ri_route0.
  - intros m gm l Hm. rewrite lookup_insert_ne by set_solver.
    by apply ri_optimal0.
  - rewrite dom_insert_L.
    apply nbrs_walkable, walkable_cells in Hn. unfold universe in *. set_solver.
  - rewrite dom_insert_L. set_solver.
  - done.
Qed.

(** Recording a better [g_score] for [n] leaves that of [cur] alone and
    raises none. *)
Lemma improve_g_score (ex : gset coord) (cur n : coord) (gc : Z) (g : gmap coord Z) :
  cur ∈ ex → n ∉ ex → g !! cur = Some gc →
  (∀ gn, g !! n = Some gn → gc + 1 < gn) →
  <[n := gc + 1]> g !! cur = Some gc ∧
  ∀ m gm, g !! m = Some gm →
    ∃ gm', <[n := gc + 1]> g !! m = Some gm' ∧ gm' ≤ gm.
Proof.
  intros Hcur Hn Hgc Hbetter. split.
  - rewrite lookup_insert_ne by set_solver. done.
  - intros m gm Hm. rewrite lookup_insert. case_decide as Hmn.
    + subst m. exists (gc + 1). split; [done|].
      specialize (Hbetter gm Hm). lia.
    + exists gm. split; [done|lia].
Qed.

Lemma relax_step ex cur gc n fr cf g :
  relax_inv (ex ∪ {[cur]}) ex fr cf g → start ∈ ex ∪ {[cur]} →
  g !! cur = Some gc → n ∈ nbrs e cur →
  ∃ fr' cf' g',
    relax goal (ex ∪ {[cur]}) cur n (fr, cf, g) = Ok (fr', cf', g') ∧
    relax_inv (ex ∪ {[cur]}) ex fr' cf' g' ∧
    g' !! cur = Some gc ∧
    (∃ gn, g' !! n = Some gn ∧ gn ≤ gc + 1) ∧
    (∀ m gm, g !! m = Some gm → ∃ gm', g' !! m = Some gm' ∧ gm' ≤ gm) ∧
    (length fr' ≤ S (length fr))%nat.
Proof.
  intros Hinv Hstart Hgc Hn.
  assert (cur ∈ ex ∪ {[cur]}) as Hcur by set_solver.
  assert (∀ m gm, g !! m = Some gm → ∃ gm', g !! m = Some gm' ∧ gm' ≤ gm) as Hsame.
  { intros m gm Hm. exists gm. split; [done|lia]. }
  assert ((∀ gn, g !! n = Some gn → gc + 1 < gn) → n ∉ ex ∪ {[cur]} →
          ∃ fr' cf' g',
            Ok (heappush fr (gc + 1 + heuristic n goal, n),
                <[n := Some cur]> cf, <[n := gc + 1]> g) = Ok (fr', cf', g') ∧
            relax_inv (ex ∪ {[cur]}) ex fr' cf' g' ∧
            g' !! cur = Some gc ∧
            (∃ gn, g' !! n = Some gn ∧ gn ≤ gc + 1) ∧
            (∀ m gm, g !! m = Some gm → ∃ gm', g' !! m = Some gm' ∧ gm' ≤ gm) ∧
            (length fr' ≤ S (length fr))%nat) as Hupdate.
  { intros Hbetter Hex.
    destruct (improve_g_score _ cur n gc g Hcur Hex Hgc Hbetter) as [Hgc' Hmono].
    eexists _, _, _. split; [done|]. split_and!; try done.
    - by apply relax_update.
    - exists (gc + 1). rewrite lookup_insert_eq. split; [done|lia].
    - by rewrite length_heappush. }
  unfold relax. case_bool_decide as Hex.
  { (* an explored neighbour: its [g_score] is the length of a shortest
       route, and one route passes through [cur] *)
    exists fr, cf, g. split_and!; [done..| |done|lia].
    destruct (elem_of_dom g n) as [[gn Hgn] _].
    { by apply (ri_explored _ _ _ _ _ Hinv). }
    exists gn. split; [done|].
    destruct (ri_route _ _ _ _ _ Hinv cur gc Hgc) as (l & Hl & Hlen).
    pose proof (ri_optimal _ _ _ _ _ Hinv n gn (l ++ [n]) Hex Hgn) as Hopt.
    rewrite length_app in Hopt. simpl in Hopt.
    assert (is_route e start (l ++ [n]) n) as Hr.
    { eapply is_route_snoc; [done|]. by apply edge_nbrs. }
    specialize (Hopt Hr). lia. }
  rewrite Hgc. destruct (g !! n) as [gn|] eqn:Hgn.
  - case_bool_decide as Hlt.
    + apply Hupdate; [|done]. intros gn'. rewrite ?Hgn. by intros [= <-].
    + exists fr, cf, g. split_and!; [done..| |done|lia].
      exists gn. split; [done|lia].
  - apply Hupdate; [|done]. intros gn'. by rewrite ?Hgn.
Qed.

Lemma relax_fold ex cur gc ns fr cf g :
  relax_inv (ex ∪ {[cur]}) ex fr cf g → start ∈ ex ∪ {[cur]} →
  g !! cur = Some gc → (∀ n, n ∈ ns → n ∈ nbrs e cur) →
  ∃ fr' cf' g',
    for_each ns (relax goal (ex ∪ {[cur]}) cur) (fr, cf, g) = Ok (fr', cf', g') ∧
    relax_inv (ex ∪ {[cur]}) ex fr' cf' g' ∧
    g' !! cur = Some gc ∧
    (∀ n, n ∈ ns → ∃ gn, g' !! n = Some gn ∧ gn ≤ gc + 1) ∧
    (∀ m gm, g !! m = Some gm → ∃ gm', g' !! m = Some gm' ∧ gm' ≤ gm) ∧
    (length fr' ≤ length fr + length ns)%nat.
Proof.
  intros Hinv Hstart. revert fr cf g Hinv.
  induction ns as [|n ns IH]; intros fr cf g Hinv Hgc Hns; cbn [for_each].
  - exists fr, cf, g. split_and!; try done.
    + by intros n ?%elem_of_nil.
    + intros m gm Hm. exists gm. split; [done|lia].
    + lia.
  - destruct (relax_step ex cur gc n fr cf g Hinv Hstart Hgc)
      as (fr1 & cf1 & g1 & -> & Hinv1 & Hgc1 & (gn & Hgn & Hle) & Hmono1 & Hlen1).
    { apply Hns. by left. }
    cbn [bind].
    destruct (IH fr1 cf1 g1 Hinv1 Hgc1)
      as (fr2 & cf2 & g2 & -> & Hinv2 & Hgc2 & Hdone & Hmono2 & Hlen2).
    { intros m Hm. apply Hns. by right. }
    exists fr2, cf2, g2. split_and!; try done.
    + intros m [->|Hm]%elem_of_cons; [|by apply Hdone].
      destruct (Hmono2 n gn Hgn) as (gn' & Hgn' & Hle').
      exists gn'. split; [done|lia].
    + intros m gm (gm1 & Hgm1 & Hle1)%Hmono1.
      destruct (Hmono2 m gm1 Hgm1) as (gm2 & Hgm2 & Hle2).
      exists gm2. split; [done|lia].
    + simpl. lia.
Qed.

Lemma astar_expand_ok ex cur gc fr cf g :
  relax_inv (ex ∪ {[cur]}) ex fr cf g → start ∈ ex ∪ {[cur]} →
  g !! cur = Some gc →
  ∃ fr' cf' g',
    astar_expand e goal (ex ∪ {[cur]}) cur (fr, cf, g) = Ok (fr', cf', g') ∧
    relax_inv (ex ∪ {[cur]}) (ex ∪ {[cur]}) fr' cf' g' ∧
    (length fr' ≤ length fr + 4)%nat.
Proof.
  intros Hinv Hstart Hgc. unfold astar_expand.
  rewrite get_neighbors_ok by done. simpl.
  destruct (relax_fold ex cur gc (nbrs e (cur.1, cur.2)) fr cf g Hinv Hstart Hgc)
    as (fr' & cf' & g' & -> & [] & Hgc' & Hdone & _ & Hlen).
  { intros n. by destruct cur. }
  exists fr', cf', g'. split_and!; [done| |].
  - split; try done.
    + intros p n gp [Hp|Hp%elem_of_singleton]%elem_of_union Hn Hgp.
      * by eapply ri_lip0.
      * subst p. rewrite Hgc' in Hgp. injection Hgp as <-.
        apply Hdone. by destruct cur.
  - pose proof (nbrs_length e (cur.1, cur.2)). lia.
Qed.

(** The state of [astar] at the head of the loop. *)
Definition astar_inv (st : astar_state) : Prop :=
  ((a_frontier st = [(0, start)] ∧ a_came_from st = {[start := None]} ∧
    g_score st = {[start := 0]} ∧ a_explored st = ∅) ∨
   (start ∈ a_explored st ∧
    relax_inv (a_explored st) (a_explored st) (a_frontier st)
      (a_came_from st) (g_score st))) ∧
  nodes_expanded (a_result st) = Z.of_nat (size (a_explored st)) ∧
  found (a_result st) = false.

Lemma astar_inv_initial : astar_inv (astar_initial_state start).
Proof. split; [by left|done]. Qed.

Definition astar_measure (st : astar_state) : nat :=
  budget e start (length (a_frontier st)) (a_explored st).

(** Taking the smallest entry: either the cell is already explored, or
    its [g_score] is the length of a shortest route and it is ready to be
    expanded. *)
Lemma astar_pop st f cur rest :
  astar_inv st → a_frontier st = (f, cur) :: rest →
  (cur ∈ a_explored st ∧ start ∈ a_explored st ∧
   relax_inv (a_explored st) (a_explored st) rest (a_came_from st) (g_score st)) ∨
  ((cur ∉ a_explored st) ∧ start ∈ a_explored st ∪ {[cur]} ∧
   cur ∈ universe e start ∧ is_Some (g_score st !! cur) ∧
   relax_inv (a_explored st ∪ {[cur]}) (a_explored st) rest
     (a_came_from st) (g_score st)).
Proof.
  intros [[(Hfr & Hcf & Hg & Hex)|[Hstart Hinv]] _] Hhead.
  { right. rewrite Hfr in Hhead. injection Hhead as <- <- <-.
    rewrite Hcf, Hg, Hex. split_and!.
    - set_solver.
    - set_solver.
    - unfold universe. set_solver.
    - by rewrite lookup_singleton_eq.
    - split; try done.
      + apply lookup_singleton_eq.
      + apply lookup_singleton_eq.
      + by rewrite !dom_singleton_L.
      + by intros n [-> _]%lookup_singleton_Some.
      + by intros n p [_ ?]%lookup_singleton_Some.
      + intros n gn [<- _]%lookup_singleton_Some. set_solver.
      + by intros ? ? ?%elem_of_nil.
      + constructor.
      + intros n gn [<- <-]%lookup_singleton_Some. by exists [].
      + intros n gn l _ [_ <-]%lookup_singleton_Some _. lia.
      + rewrite dom_singleton_L. unfold universe. set_solver.
      + rewrite dom_singleton_L. set_solver. }
  destruct Hinv. rewrite Hhead in *.
  assert (StronglySorted tuple_le rest) as Hsorted.
  { by apply StronglySorted_inv in ri_sorted0 as [? _]. }
  destruct (decide (cur ∈ a_explored st)) as [Hex|Hex]; [left|right].
  - split_and!; [done..|]. split; try done.
    + intros n gn Hgn Hn.
      apply (ri_pending0 n gn Hgn) in Hn as Hin.
      apply elem_of_cons in Hin as [[= _ <-]|Hin]; [done|done].
    + intros f' n Hin. apply ri_entries0. by right.
  - destruct (ri_entries0 f cur) as (gc & Hgc & Hfc); [by left|].
    split_and!; [done|set_solver| |by eauto|].
    { apply ri_universe0. by apply elem_of_dom. }
    split; try done.
    + intros n p (Hp & ?)%ri_parent0. split; [set_solver|done].
    + intros n gn Hgn Hn.
      assert (n ∉ a_explored st) as Hn' by set_solver.
      apply (ri_pending0 n gn Hgn) in Hn' as Hin.
      apply elem_of_cons in Hin as [[= _ ->]|Hin]; [set_solver|done].
    + intros f' n Hin. apply ri_entries0. by right.
    + intros n gn l [Hn|Hn%elem_of_singleton]%elem_of_union Hgn Hl;
        [by eapply ri_optimal0|]. subst n.
      rewrite Hgc in Hgn. injection Hgn as <-.
      assert (∀ l a ga, g_score st !! a = Some ga → is_route e a l cur →
                        gc ≤ ga + Z.of_nat (length l)) as Hmin.
      { clear l Hl. induction l as [|x l IH]; simpl; intros a ga Hga.
        - intros ->. rewrite Hgc in Hga. injection Hga as <-. lia.
        - intros [Hedge Hl].
          destruct (decide (a ∈ a_explored st)) as [Ha|Ha].
          + apply edge_nbrs in Hedge; [|done].
            destruct (ri_lip0 a x ga Ha Hedge Hga) as (gx & Hgx & Hle).
            specialize (IH x gx Hgx Hl). lia.
          + pose proof (ri_pending0 a ga Hga Ha) as Hin.
            pose proof (heappop_min _ f cur rest _ _ ri_sorted0 eq_refl Hin) as Hf.
            pose proof (route_heuristic e a (x :: l) cur goal Hok
                          (conj Hedge Hl)) as Hh.
            simpl in Hh. lia. }
      specialize (Hmin l start 0 ri_start_g0 Hl). lia.
    + apply elem_of_subseteq. intros x [Hx|Hx%elem_of_singleton]%elem_of_union.
      * by apply ri_explored0.
      * subst x. by apply elem_of_dom.
    + set_solver.
Qed.

(** One iteration of [astar]: it goes round again with a smaller budget,
    or the frontier is empty, or the goal is about to be returned. *)
Lemma astar_body_progress gas st :
  astar_inv st →
  (∃ st', astar_body gas e start goal st = Ok (inl st') ∧
          astar_inv st' ∧ (astar_measure st' < astar_measure st)%nat) ∨
  (a_frontier st = [] ∧ start ∈ a_explored st ∧
   relax_inv (a_explored st) (a_explored st) [] (a_came_from st) (g_score st) ∧
   astar_body gas e start goal st =
     Ok (inr (set_explored (a_result st) (a_explored st)))) ∨
  (∃ rest,
     relax_inv (a_explored st ∪ {[goal]}) (a_explored st) rest
       (a_came_from st) (g_score st) ∧
     is_Some (g_score st !! goal) ∧
     astar_body gas e start goal st =
       let* p := reconstruct_path gas (a_came_from st) start goal in
       Ok (inr (set_found
                  (count_expanded
                     (log_frontier (a_result st) (list_to_set (a_frontier st).*2)))
                  p (a_explored st ∪ {[goal]})))).
Proof.
  intros Hinv. pose proof Hinv as [Hcases [Hcount Hfound]].
  unfold astar_body.
  destruct (a_frontier st) as [|[f cur] rest] eqn:Hfr.
  { right. left. destruct Hcases as [(? & _)|[Hstart Hri]]; [done|].
    rewrite ?Hfr in Hri. by split_and!. }
  simpl.
  destruct (astar_pop st f cur rest Hinv Hfr)
    as [(Hex & Hstart & Hri)|(Hex & Hstart & Hu & [gc Hgc] & Hri)].
  - left. rewrite bool_decide_eq_true_2 by done.
    eexists. split; [done|]. split.
    + split; [right; by split|done].
    + unfold astar_measure, budget. simpl. rewrite Hfr. simpl. lia.
  - rewrite bool_decide_eq_false_2 by done.
    destruct (decide (cur = goal)) as [->|Hne].
    { right. right. exists rest. split_and!; [done|by eauto|done]. }
    left.
    destruct (astar_expand_ok _ cur gc rest _ _ Hri Hstart Hgc)
      as (fr' & cf' & g' & -> & Hri' & Hlen).
    simpl. eexists. split; [done|]. split.
    + split; [right; split; [done|]; apply Hri'|]. simpl. split; [|done].
      rewrite Hcount, (size_union (a_explored st)) by set_solver.
      rewrite size_singleton. lia.
    + unfold astar_measure. simpl. rewrite Hfr.
      apply budget_explore; [done..|]. simpl. lia.
Qed.

Lemma astar_inv_step gas st st' :
  astar_inv st → astar_body gas e start goal st = Ok (inl st') → astar_inv st'.
Proof.
  intros Hinv Hbody.
  destruct (astar_body_progress gas st Hinv)
    as [(st'' & Heq & Hinv' & _)|[(_ & _ & _ & Heq)|(rest & _ & _ & Heq)]];
    rewrite Heq in Hbody.
  - by injection Hbody as <-.
  - done.
  - destruct (reconstruct_path _ _ _ _); done.
Qed.

Lemma relax_inv_tree ex lip fr cf g :
  relax_inv ex lip fr cf g →
  tree_ok e start cf (λ n, Z.to_nat (default 0 (g !! n))).
Proof.
  intros []. unfold tree_ok. split_and!; try done.
  - by rewrite ri_start_g0.
  - intros n p (Hp & Hedge & gp & Hgp & Hgn)%ri_parent0. split_and!.
    + apply elem_of_dom. rewrite ri_dom0. by apply ri_explored0.
    + by apply edge_nbrs.
    + rewrite Hgp, Hgn. simpl.
      destruct (ri_route0 p gp Hgp) as (l & _ & Hlen). lia.
Qed.

Lemma astar_inv_end gas st r :
  astar_inv st → astar_body gas e start goal st = Ok (inr r) →
  found r = true → shortest e start goal r.
Proof.
  intros Hinv Hbody.
  destruct (astar_body_progress gas st Hinv)
    as [(st'' & Heq & _)|[(_ & _ & _ & Heq)|(rest & Hri & [gg Hgg] & Heq)]];
    rewrite Heq in Hbody.
  - done.
  - injection Hbody as <-. simpl. by destruct Hinv as (_ & _ & ->).
  - destruct (reconstruct_path _ _ _ _) as [p| |] eqn:Hp; [|done..].
    simpl in Hbody. injection Hbody as <-. intros _.
    eapply reconstruct_path_route in Hp as [Hroute Hlen];
      [|by eapply relax_inv_tree|].
    2:{ apply elem_of_dom. rewrite (ri_dom _ _ _ _ _ Hri). by apply elem_of_dom. }
    unfold shortest. simpl. split_and!; [done| |done].
    intros l Hl. rewrite Hlen, Hgg. simpl.
    pose proof (ri_optimal _ _ _ _ _ Hri goal gg l) as Hopt.
    assert (gg ≤ Z.of_nat (length l)); [|lia].
    apply Hopt; [set_solver|done..].
Qed.

Lemma astar_shortest_route gas r :
  astar gas e start goal = Ok r → found r = true → shortest e start goal r.
Proof.
  unfold astar. destruct (decide (start = goal)) as [->|Hne].
  { intros [= <-] _. unfold shortest. simpl. split_and!; [done| |done].
    intros l _. lia. }
  intros Hrun Hfound.
  eapply (while_loop_inv _ astar_inv (λ r, found r = true → shortest e start goal r));
    [apply astar_inv_step|apply astar_inv_end|apply astar_inv_initial|done|done].
Qed.

(** When the frontier of [astar] is empty the explored set is the component
    of [start]. *)
Lemma astar_explored_component st :
  a_frontier st = [] → start ∈ a_explored st →
  relax_inv (a_explored st) (a_explored st) [] (a_came_from st) (g_score st) →
  ∀ c, c ∈ a_explored st ↔ reachable e start c.
Proof.
  intros Hfr Hstart [] c. split.
  - intros Hc. assert (c ∈ dom (g_score st)) as [gc Hgc]%elem_of_dom.
    { by apply ri_explored0. }
    destruct (ri_route0 c gc Hgc) as (l & Hl & _). by exists l.
  - intros [l Hl].
    assert (∀ l a, a ∈ a_explored st → is_route e a l c → c ∈ a_explored st)
      as Hwalk; [|by eapply Hwalk].
    clear l Hl. induction l as [|x l IH]; simpl; intros a Ha.
    + by intros <-.
    + intros [Hedge%edge_nbrs Hl]; [|done]. apply (IH x); [|done].
      assert (a ∈ dom (g_score st)) as [ga Hga]%elem_of_dom.
      { by apply ri_explored0. }
      destruct (ri_lip0 a x ga Ha Hedge Hga) as (gx & Hgx & _).
      destruct (decide (x ∈ a_explored st)) as [|Hx]; [done|].
      by apply (ri_pending0 x gx Hgx), elem_of_nil in Hx.
Qed.

Lemma astar_body_unreachable gas st :
  ¬ reachable e start goal → astar_inv st →
  (∃ st', astar_body gas e start goal st = Ok (inl st') ∧
          astar_inv st' ∧ (astar_measure st' < astar_measure st)%nat) ∨
  (∃ r, astar_body gas e start goal st = Ok (inr r) ∧ exhausted e start r).
Proof.
  intros Hgoal Hinv.
  destruct (astar_body_progress gas st Hinv)
    as [?|[(Hfr & Hstart & Hri & Heq)|(rest & Hri & [gg Hgg] & Heq)]].
  - by left.
  - right. eexists. split; [done|].
    destruct Hinv as (_ & Hcount & Hfound). split_and!; [done..|]. simpl.
    by apply astar_explored_component.
  - exfalso. apply Hgoal.
    destruct (ri_route _ _ _ _ _ Hri goal gg Hgg) as (l & Hl & _). by exists l.
Qed.

Lemma astar_unreachable :
  ¬ reachable e start goal →
  ∃ gas0, ∀ gas, (gas0 ≤ gas)%nat →
    ∃ r, astar gas e start goal = Ok r ∧ exhausted e start r.
Proof.
  intros Hgoal.
  exists (S (astar_measure (astar_initial_state start))). intros gas Hgas.
  destruct (while_loop_total (astar_body gas e start goal)
              astar_inv (exhausted e start) astar_measure
              (λ st, astar_body_unreachable gas st Hgoal) _ astar_inv_initial)
    as (r & Hr & Hrun).
  exists r. split; [|done]. unfold astar.
  destruct (decide (start = goal)) as [Heq|_].
  { destruct Hgoal. rewrite Heq. apply reachable_refl. }
  apply Hrun. lia.
Qed.
End astar.

(** ** Searches for a reachable goal *)

Section reachable_goal.
Context (e : Environment) (Hok : grid_ok e) (start goal : coord).
Context (l0 : list coord) (Hl0 : is_route e start l0 goal).

Lemma bfs_body_reachable gas st :
  (length l0 ≤ gas)%nat →
  bfs_inv e start st ∧ goal ∉ st_explored st →
  (∃ st', bfs_body gas e start goal st = Ok (inl st') ∧
          (bfs_inv e start st' ∧ goal ∉ st_explored st') ∧
          (measure e start st' < measure e start st)%nat) ∨
  (∃ r, bfs_body gas e start goal st = Ok (inr r) ∧ found r = true).
Proof.
  intros Hgas [[Hexp Hlev] Hgoal].
  destruct (frontier st) as [|cur rest] eqn:Hfr.
  { destruct Hgoal. apply (explore_done e Hok start st Hexp Hfr). by exists l0. }
  destruct (decide (cur = goal)) as [->|Hne].
  - right. unfold bfs_body. rewrite Hfr, decide_True by done.
    destruct (level_inv_head e start st goal rest Hlev Hfr)
      as (d & m1 & m2 & Ht & Hlip & Hrest & H1 & H2 & Hexd).
    assert (goal ∈ dom (came_from st)) as Hgd.
    { destruct Hexp as ((_ & _ & ->) & _). rewrite Hfr. set_solver. }
    assert (∀ y, y ∈ frontier st → (d goal ≤ d y)%nat) as Hhead.
    { intros y. rewrite Hfr, Hrest.
      intros [->|[Hy|Hy]%elem_of_app]%elem_of_cons;
        [lia|rewrite (H1 y)|rewrite (H2 y)]; done || lia. }
    pose proof (head_level_minimal e Hok start st goal rest d Hexp Hfr Hlip
                  Hhead l0 start) as Hmin.
    pose proof Ht as (_ & Hd0 & _). rewrite Hd0 in Hmin.
    destruct (reconstruct_loop_total e start (came_from st) d gas goal [] Ht)
      as [p Hp]; [by apply elem_of_dom|..].
    { etrans; [|done]. apply Hmin; [|done]. apply Hexp. }
    unfold reconstruct_path. rewrite Hp. cbn [bind]. by eexists.
  - left.
    destruct (expand_spec e (st_explored st ∪ {[cur]}) cur rest (came_from st) Hok)
      as (added & cf' & Heq & Hnd & Hadded & Hdom & _).
    assert (bfs_body gas e start goal st =
            Ok (inl (mkState (rest ++ added) cf' (st_explored st ∪ {[cur]})
                       (count_expanded
                          (log_frontier (result st) (list_to_set (frontier st))))))) as Hbody.
    { unfold bfs_body. rewrite Hfr, decide_False by done. by rewrite Heq. }
    eexists. split; [done|]. split; [split|].
    + by eapply bfs_inv_step.
    + simpl. set_solver.
    + unfold measure.
      eapply (explore_step e Hok start st cur rest added cf'); try done.
      * by rewrite Hfr.
      * simpl. by destruct Hexp as (_ & _ & _ & _ & _ & _ & ->).
Qed.

Lemma bfs_finds_goal :
  ∃ gas0, ∀ gas, (gas0 ≤ gas)%nat →
    ∃ r, bfs gas e start goal = Ok r ∧ found r = true.
Proof.
  exists (Nat.max (length l0) (S (measure e start (initial_state start)))).
  intros gas Hgas. unfold bfs.
  destruct (decide (start = goal)) as [_|Hne]; [by eexists|].
  destruct (while_loop_total (bfs_body gas e start goal)
              (λ st, bfs_inv e start st ∧ goal ∉ st_explored st)
              (λ r, found r = true) (measure e start)) with (s := initial_state start)
    as (r & Hr & Hrun).
  - intros st. apply bfs_body_reachable. lia.
  - split; [by apply bfs_inv_initial|]. simpl. set_solver.
  - exists r. split; [|done]. apply Hrun. lia.
Qed.

Lemma astar_body_goal_unexplored gas st st' :
  astar_body gas e start goal st = Ok (inl st') →
  goal ∉ a_explored st → goal ∉ a_explored st'.
Proof.
  unfold astar_body.
  destruct (heappop (a_frontier st)) as [[[f cur] rest]|]; [|done].
  case_bool_decide; [by intros [= <-]|].
  destruct (decide (cur = goal)) as [->|Hne].
  { destruct (reconstruct_path _ _ _ _); done. }
  destruct (astar_expand _ _ _ _ _) as [[[? ?] ?]| |]; cbn [bind]; [|done..].
  intros [= <-]. simpl. set_solver.
Qed.

Lemma astar_body_reachable gas st :
  (length l0 ≤ gas)%nat →
  astar_inv e start goal st ∧ goal ∉ a_explored st →
  (∃ st', astar_body gas e start goal st = Ok (inl st') ∧
          (astar_inv e start goal st' ∧ goal ∉ a_explored st') ∧
          (astar_measure e start st' < astar_measure e start st)%nat) ∨
  (∃ r, astar_body gas e start goal st = Ok (inr r) ∧ found r = true).
Proof.
  intros Hgas [Hinv Hgoal].
  destruct (astar_body_progress e Hok start goal gas st Hinv)
    as [(st' & Heq & Hinv' & Hlt)|[(Hfr & Hstart & Hri & Heq)|(rest & Hri & [gg Hgg] & Heq)]].
  - left. exists st'. split_and!; try done. by eapply astar_body_goal_unexplored.
  - destruct Hgoal. apply (astar_explored_component e Hok start goal st); try done.
    by exists l0.
  - right. rewrite Heq.
    pose proof (ri_optimal _ _ _ _ _ _ _ _ Hri goal gg l0) as Hopt.
    destruct (reconstruct_loop_total e start (a_came_from st)
                (λ n, Z.to_nat (default 0 (g_score st !! n))) gas goal [])
      as [p Hp].
    + by eapply relax_inv_tree.
    + apply elem_of_dom. rewrite (ri_dom _ _ _ _ _ _ _ _ Hri). by apply elem_of_dom.
    + rewrite Hgg. simpl.
      assert (gg ≤ Z.of_nat (length l0)); [|lia].
      apply Hopt; [set_solver|done..].
    + unfold reconstruct_path. rewrite Hp. cbn [bind]. by eexists.
Qed.

Lemma astar_finds_goal :
  ∃ gas0, ∀ gas, (gas0 ≤ gas)%nat →
    ∃ r, astar gas e start goal = Ok r ∧ found r = true.
Proof.
  exists (Nat.max (length l0) (S (astar_measure e start (astar_initial_state start)))).
  intros gas Hgas. unfold astar.
  destruct (decide (start = goal)) as [_|Hne]; [by eexists|].
  destruct (while_loop_total (astar_body gas e start goal)
              (λ st, astar_inv e start goal st ∧ goal ∉ a_explored st)
              (λ r, found r = true) (astar_measure e start))
    with (s := astar_initial_state start) as (r & Hr & Hrun).
  - intros st. apply astar_body_reachable. lia.
  - split; [by apply astar_inv_initial|]. simpl. set_solver.
  - exists r. split; [|done]. apply Hrun. lia.
Qed.
End reachable_goal.

(** C2: when [astar] and [bfs] both report [found] for the same start and
    goal, the path of [astar] is not longer than the path of [bfs]; the two
    have the same length (and the same [path_cost]). *)
Theorem astar_path_as_short_as_bfs (e : Environment) (start goal : coord)
    (gas_a gas_b : nat) (ra rb : SearchResult) :
  grid_ok e →
  astar gas_a e start goal = Ok ra → bfs gas_b e start goal = Ok rb →
  found ra = true → found rb = true →
  (length (path ra) ≤ length (path rb))%nat ∧
  length (path ra) = length (path rb) ∧
  path_cost ra = path_cost rb.
Proof.
  intros Hok Ha Hb Hfa Hfb.
  destruct (astar_shortest_route e Hok start goal gas_a ra Ha Hfa) as (Hra & Hmina & Hca).
  destruct (bfs_shortest_route e Hok start goal gas_b rb Hb Hfb) as (Hrb & Hminb & Hcb).
  specialize (Hmina _ Hrb). specialize (Hminb _ Hra).
  rewrite Hca, Hcb. split_and!; lia.
Qed.

(** C3: when no route leads from [start] to [goal], each of [bfs], [dfs] and
    [astar] returns, given enough fuel for its loop, a result with
    [found = false] whose explored set is the component of [start] and whose
    [nodes_expanded] is the number of cells of that component. *)
Theorem unreachable_goal_exhausts_component (e : Environment) (start goal : coord) :
  grid_ok e → ¬ reachable e start goal →
  ∃ gas0, ∀ gas, (gas0 ≤ gas)%nat →
    ∀ search, search ∈ [bfs; dfs; astar] →
      ∃ r, search gas e start goal = Ok r ∧
           found r = false ∧
           (∀ c, c ∈ explored r ↔ reachable e start c) ∧
           (∀ comp : gset coord,
              (∀ c, c ∈ comp ↔ reachable e start c) →
              nodes_expanded r = Z.of_nat (size comp)).
Proof.
  intros Hok Hgoal.
  destruct (bfs_unreachable e Hok start goal Hgoal) as (gb & Hb).
  destruct (dfs_unreachable e Hok start goal Hgoal) as (gd & Hd).
  destruct (astar_unreachable e Hok start goal Hgoal) as (ga & Ha).
  exists (Nat.max (Nat.max gb gd) ga). intros gas Hgas search Hsearch.
  assert (∃ r, search gas e start goal = Ok r ∧ exhausted e start r)
    as (r & Hr & Hex).
  { repeat (apply elem_of_cons in Hsearch as [->|Hsearch]).
    - apply Hb. lia.
    - apply Hd. lia.
    - apply Ha. lia.
    - by apply elem_of_nil in Hsearch. }
  exists r. split; [done|]. pose proof Hex as (Hf & _ & Hcomp).
  split_and!; [done..|]. intros comp Hc. by eapply exhausted_size.
Qed.

(** C6: a search from a cell to itself succeeds at once with an empty path
    and cost zero, whatever the grid and the fuel. *)
Theorem search_start_is_goal (e : Environment) (c : coord) (gas : nat) :
  ∀ search, search ∈ [bfs; dfs; astar] →
    ∃ r, search gas e c c = Ok r ∧
         found r = true ∧ path r = [] ∧ path_cost r = 0.
Proof.
  intros search Hsearch.
  repeat (apply elem_of_cons in Hsearch as [->|Hsearch]);
    [unfold bfs|unfold dfs|unfold astar|by apply elem_of_nil in Hsearch];
    rewrite decide_True by done; eauto.
Qed.

(** ** Moving and cleaning *)

(** Number of dirty tiles of a grid. *)
Definition count_row (row : list TileState) : nat :=
  length (filter (λ t, t = DIRTY) row).
Definition count_dirty (g : list (list TileState)) : nat :=
  sum_list (count_row <$> g).

Definition dirtiness (t : TileState) : nat := if decide (t = DIRTY) then 1 else 0.

Lemma count_row_insert row i old new :
  row !! i = Some old →
  (count_row (<[i := new]> row) + dirtiness old =
   count_row row + dirtiness new)%nat.
Proof.
  unfold count_row, dirtiness. revert i.
  induction row as [|t row IH]; intros [|i]; simpl; try done.
  - intros [= ->]. rewrite !filter_cons.
    repeat case_decide; simpl; try done; lia.
  - intros Hi%IH. rewrite !filter_cons. repeat case_decide; simpl; try done; lia.
Qed.

#[local] Arguments count_row : simpl never.

Lemma count_dirty_insert g j row row' :
  g !! j = Some row →
  (count_dirty (<[j := row']> g) + count_row row =
   count_dirty g + count_row row')%nat.
Proof.
  unfold count_dirty. revert j.
  induction g as [|r g IH]; intros [|j]; simpl; try done.
  - intros [= ->]. lia.
  - intros Hj%IH. unfold fmap in Hj. lia.
Qed.

Lemma tile_lookup g c row t :
  g !! Z.to_nat c.2 = Some row → row !! Z.to_nat c.1 = Some t → tile g c = t.
Proof. unfold tile. intros -> Ht. simpl. by rewrite Ht. Qed.

(** Writing a tile inside the grid. *)
Lemma grid_set_ok e x y t :
  grid_ok e → is_valid_position e x y = true →
  ∃ g',
    grid_set (grid e) x y t = Ok g' ∧
    grid_ok (set_grid e g') ∧
    tile g' (x, y) = t ∧
    (∀ c, 0 ≤ c.1 → 0 ≤ c.2 → c ≠ (x, y) → tile g' c = tile (grid e) c) ∧
    (count_dirty g' + dirtiness (tile (grid e) (x, y)) =
     count_dirty (grid e) + dirtiness t)%nat.
Proof.
  intros Hok Hv. pose proof Hv as [Hx Hy]%is_valid_position_spec.
  destruct (grid_row e y Hok Hy) as (row & Hrow & Hlen).
  destruct Hok as [Hl Hrows].
  destruct (lookup_lt_is_Some_2 row (Z.to_nat x)) as [old Hold]; [lia|].
  exists (<[Z.to_nat y := <[Z.to_nat x := t]> row]> (grid e)).
  split_and!.
  - unfold grid_set, py_getitem, py_setitem.
    rewrite py_norm_in_range by lia. rewrite Hrow. cbn [bind].
    rewrite py_norm_in_range by lia. done.
  - split; simpl.
    + by rewrite length_insert.
    + apply Forall_insert; [done|]. by rewrite length_insert.
  - eapply tile_lookup; simpl.
    + apply list_lookup_insert_eq. lia.
    + apply list_lookup_insert_eq. lia.
  - intros [cx cy] Hcx Hcy Hne. simpl in *. unfold tile. simpl.
    destruct (decide (Z.to_nat cy = Z.to_nat y)) as [Heq|Hney].
    + rewrite Heq, list_lookup_insert_eq by lia. rewrite Hrow. simpl.
      rewrite list_lookup_insert_ne; [done|].
      intros Hxx. apply Hne. f_equal; lia.
    + by rewrite list_lookup_insert_ne.
  - pose proof (count_dirty_insert (grid e) (Z.to_nat y) row
                  (<[Z.to_nat x := t]> row) Hrow) as H1.
    pose proof (count_row_insert row (Z.to_nat x) old t Hold) as H2.
    rewrite (tile_lookup (grid e) (x, y) row old) by done. lia.
Qed.

(** C8: [move_robot] returns [True] and puts the robot on [(x, y)] exactly
    when [is_walkable(x, y)] holds, that is when [(x, y)] is inside the grid
    and its tile is not an obstacle; otherwise it returns [False] and the
    environment is unchanged. *)
Theorem move_robot_iff_walkable (e : Environment) (x y : Z) :
  grid_ok e →
  ∃ e' b,
    move_robot e x y = Ok (e', b) ∧
    is_walkable e x y = Ok b ∧
    (b = true ↔
       is_valid_position e x y = true ∧ grid_get (grid e) x y ≠ Ok OBSTACLE) ∧
    (b = true → e' = set_robot_pos e (x, y) ∧ robot_pos e' = (x, y)) ∧
    (b = false → e' = e).
Proof.
  intros Hok. unfold move_robot. rewrite is_walkable_ok by done. simpl.
  exists (if walkable e (x, y) then set_robot_pos e (x, y) else e), (walkable e (x, y)).
  split_and!.
  - by destruct (walkable e (x, y)).
  - done.
  - unfold walkable. simpl. rewrite andb_true_iff, bool_decide_eq_true.
    split; intros [Hv Ht]; (split; [done|]); rewrite grid_get_ok in * by done;
      congruence.
  - by intros ->.
  - by intros ->.
Qed.

(** C7: [clean_current_tile] returns [True] exactly when the robot's tile is
    dirty; it then makes that tile clean and adds one to [cleaned_dirt],
    leaving everything else as it was, and otherwise changes nothing.  A
    second call right after returns [False] and changes nothing, so two
    calls in a row count the tile once. *)
Theorem clean_current_tile_spec (e : Environment) :
  env_ok e →
  ∃ e' b,
    clean_current_tile e = Ok (e', b) ∧
    (b = true ↔ get_tile_state e (robot_pos e).1 (robot_pos e).2 = Ok DIRTY) ∧
    (b = true →
       get_tile_state e' (robot_pos e).1 (robot_pos e).2 = Ok CLEAN ∧
       cleaned_dirt e' = cleaned_dirt e + 1 ∧
       (∀ c, c ≠ robot_pos e → get_tile_state e' c.1 c.2 = get_tile_state e c.1 c.2) ∧
       width e' = width e ∧ height e' = height e ∧
       robot_pos e' = robot_pos e ∧ total_dirt e' = total_dirt e) ∧
    (b = false → e' = e) ∧
    clean_current_tile e' = Ok (e', false).
Proof.
  intros [Hok Hv]. unfold clean_current_tile.
  destruct (robot_pos e) as [x y] eqn:Hpos. simpl in *.
  rewrite get_tile_state_ok, Hv by done.
  rewrite grid_get_ok by done. simpl.
  destruct (decide (tile (grid e) (x, y) = DIRTY)) as [Hd|Hd].
  - destruct (grid_set_ok e x y CLEAN Hok Hv) as (g' & -> & Hok' & Ht & Hother & _).
    simpl. eexists _, true. split; [done|].
    assert (∀ cx cy,
      get_tile_state (set_cleaned_dirt (set_grid e g') (cleaned_dirt e + 1)) cx cy =
      Ok (if is_valid_position e cx cy then tile g' (cx, cy) else OBSTACLE)) as Hget.
    { intros cx cy. by rewrite get_tile_state_ok. }
    split_and!; try done.
    + by rewrite Hd.
    + intros _. split_and!; try done.
      * by rewrite Hget, Hv, Ht.
      * intros [cx cy] Hne. simpl. rewrite Hget, get_tile_state_ok by done.
        destruct (is_valid_position e cx cy) eqn:Hc; [|done].
        apply is_valid_position_spec in Hc as [? ?].
        rewrite Hother; simpl; [done|lia|lia|done].
    + simpl. rewrite Hpos. simpl.
      change (grid_get g' x y) with
        (grid_get (grid (set_grid e g')) x y).
      rewrite grid_get_ok by done. simpl. rewrite Ht. done.
  - eexists _, false. split; [done|]. split_and!; try done.
    + split; [done|]. by intros [= ?].
    + rewrite Hpos. simpl. rewrite grid_get_ok by done. simpl.
      by rewrite decide_False.
Qed.

(** ** The invariant of the grid world *)

(** Calls a driver can make on the environment. *)
Inductive command :=
  | MoveRobot (new_x new_y : Z)
  | CleanCurrentTile.

Definition run_command (c : command) (e : Environment) : res Environment :=
  match c with
  | MoveRobot new_x new_y => let* (e', _) := move_robot e new_x new_y in Ok e'
  | CleanCurrentTile => let* (e', _) := clean_current_tile e in Ok e'
  end.

Definition run_commands (cs : list command) (e : Environment) : res Environment :=
  for_each cs run_command e.

Definition world_inv (e : Environment) : Prop :=
  env_ok e ∧
  tile (grid e) (robot_pos e) ≠ OBSTACLE ∧
  cleaned_dirt e + Z.of_nat (count_dirty (grid e)) ≤ total_dirt e.

Lemma for_each_inv {A S} (I : S → Prop) (P : A → Prop)
    (body : A → S → res S) (xs : list A) (s : S) :
  (∀ x s, P x → I s → ∃ s', body x s = Ok s' ∧ I s') →
  Forall P xs → I s → ∃ s', for_each xs body s = Ok s' ∧ I s'.
Proof.
  intros Hbody Hxs. revert s. induction Hxs as [|x xs Hx _ IH]; intros s Hs.
  - by exists s.
  - destruct (Hbody x s Hx Hs) as (s1 & Hs1 & HI1).
    destruct (IH s1 HI1) as (s2 & Hs2 & HI2).
    exists s2. cbn [for_each]. rewrite Hs1. done.
Qed.

Lemma run_command_inv c e :
  world_inv e → ∃ e', run_command c e = Ok e' ∧ world_inv e'.
Proof.
  intros ([Hok Hv] & Hobs & Hcount). destruct c as [x y|]; simpl.
  - unfold move_robot. rewrite is_walkable_ok by done. simpl.
    destruct (walkable e (x, y)) eqn:Hw; simpl; eexists; (split; [done|]).
    + apply andb_true_iff in Hw as [Hv' Ht%bool_decide_eq_true].
      by split_and!.
    + by split_and!.
  - unfold clean_current_tile.
    destruct (robot_pos e) as [x y] eqn:Hpos. simpl in Hv.
    rewrite grid_get_ok by done. simpl.
    destruct (decide (tile (grid e) (x, y) = DIRTY)) as [Hd|Hd].
    + destruct (grid_set_ok e x y CLEAN Hok Hv) as (g' & -> & Hok' & Ht & _ & Hc).
      simpl. eexists. split; [done|]. split; [split|split]; simpl.
      * exact Hok'.
      * by rewrite Hpos.
      * rewrite Hpos, Ht. done.
      * rewrite Hd in Hc. unfold dirtiness in Hc. simpl in Hc. lia.
    + simpl. eexists. split; [done|].
      split_and!; rewrite ?Hpos; simpl; try done.
      split; [done|]. by rewrite Hpos.
Qed.

Lemma count_dirty_clean n m :
  count_dirty (replicate n (replicate m CLEAN)) = 0%nat.
Proof.
  unfold count_dirty.
  assert (count_row (replicate m CLEAN) = 0%nat) as Hrow.
  { unfold count_row. induction m as [|m IH]; [done|].
    simpl. by rewrite filter_cons, decide_False. }
  induction n as [|n IH]; [done|]. simpl. unfold fmap in IH. by rewrite Hrow, IH.
Qed.

(** What holds of the environment during [_initialize_grid]. *)
Definition init_inv (w h : Z) (s : Environment * nat) : Prop :=
  grid_ok s.1 ∧ width s.1 = w ∧ height s.1 = h ∧ robot_pos s.1 = (0, 0) ∧
  tile (grid s.1) (0, 0) = CLEAN ∧ cleaned_dirt s.1 = 0 ∧
  Z.of_nat (count_dirty (grid s.1)) ≤ total_dirt s.1.

Lemma _initialize_cell_inv w h dirt_prob obstacle_prob r y x s :
  0 ≤ x < w → 0 ≤ y < h → init_inv w h s →
  ∃ s', _initialize_cell dirt_prob obstacle_prob r y x s = Ok s' ∧ init_inv w h s'.
Proof.
  intros Hx Hy. destruct s as [e k].
  intros (Hok & Hw & Hh & Hpos & Hclean & Hcl & Hcount). simpl in *.
  assert (is_valid_position e x y = true) as Hv.
  { apply is_valid_position_spec. lia. }
  unfold _initialize_cell. rewrite Hpos.
  destruct (decide ((x, y) = (0, 0))) as [|Hne]; [by eexists|].
  destruct (decide (r k < obstacle_prob)%Qc).
  - destruct (grid_set_ok e x y OBSTACLE Hok Hv) as (g' & -> & Hok' & _ & Hother & Hc).
    simpl. eexists. split; [done|]. unfold init_inv. simpl. split_and!; try done.
    + by rewrite Hother.
    + unfold dirtiness in Hc. simpl in Hc. lia.
  - destruct (decide (r (S k) < dirt_prob)%Qc).
    + destruct (grid_set_ok e x y DIRTY Hok Hv) as (g' & -> & Hok' & _ & Hother & Hc).
      simpl. eexists. split; [done|]. unfold init_inv. simpl. split_and!; try done.
      * by rewrite Hother.
      * unfold dirtiness in Hc. simpl in Hc. lia.
    + eexists. split; [done|]. unfold init_inv. simpl. by split_and!.
Qed.

Lemma Environment_init_inv w h dirt_probability obstacle_probability r :
  0 < w → 0 < h →
  ∃ e k, Environment_init w h dirt_probability obstacle_probability r = Ok (e, k) ∧
         init_inv w h (e, k).
Proof.
  intros Hw Hh. unfold Environment_init, _initialize_grid.
  set (e0 := mkEnv w h _ _ _ _).
  assert (init_inv w h (e0, 0%nat)) as H0.
  { unfold init_inv, grid_ok. simpl. split_and!; try done.
    - by rewrite length_replicate.
    - apply Forall_replicate. by rewrite length_replicate.
    - unfold tile. simpl. rewrite lookup_replicate_2 by lia. simpl.
      by rewrite lookup_replicate_2 by lia.
    - rewrite count_dirty_clean. lia. }
  destruct (for_each_inv (init_inv w h) (λ y, 0 ≤ y < h)
              (λ y s, for_each (range (width s.1))
                 (_initialize_cell dirt_probability obstacle_probability r y) s)
              (range h) (e0, 0%nat)) as ([e k] & Hrun & Hinv); [| |done|].
  - intros y s Hy Hs.
    apply (for_each_inv (init_inv w h) (λ x, 0 ≤ x < w)); [|  |done].
    + intros x s' Hx Hs'. by apply _initialize_cell_inv.
    + destruct Hs as (_ & -> & _). apply Forall_forall.
      intros x Hx%elem_of_seqZ. lia.
  - apply Forall_forall. intros y Hy%elem_of_seqZ. lia.
  - by exists e, k.
Qed.

(** C5: start from any world [__init__] builds on a grid of positive width
    and height, and make any finite sequence of [move_robot] and
    [clean_current_tile] calls: every call returns, and in the state reached
    [cleaned_dirt] is at most [total_dirt] and the robot stands inside the
    grid on a tile that is not an obstacle. *)
Theorem moves_and_cleans_keep_invariant (w h : Z)
    (dirt_probability obstacle_probability : Qc) (r : rng) (cs : list command) :
  0 < w → 0 < h →
  ∃ e k e',
    Environment_init w h dirt_probability obstacle_probability r = Ok (e, k) ∧
    run_commands cs e = Ok e' ∧
    cleaned_dirt e' ≤ total_dirt e' ∧
    is_valid_position e' (robot_pos e').1 (robot_pos e').2 = true ∧
    ∃ t, get_tile_state e' (robot_pos e').1 (robot_pos e').2 = Ok t ∧ t ≠ OBSTACLE.
Proof.
  intros Hw Hh.
  destruct (Environment_init_inv w h dirt_probability obstacle_probability r Hw Hh)
    as (e & k & Hinit & Hok & Hwe & Hhe & Hpos & Hclean & Hcl & Hcount).
  simpl in *.
  assert (world_inv e) as Hinv.
  { split_and!.
    - split; [done|]. rewrite Hpos. apply is_valid_position_spec. simpl. lia.
    - rewrite Hpos, Hclean. done.
    - lia. }
  destruct (for_each_inv world_inv (λ _, True) run_command cs e)
    as (e' & Hrun & ([Hok' Hv'] & Hobs & Hc)); [| |done|].
  - intros c s _. apply run_command_inv.
  - by apply Forall_forall.
  - exists e, k, e'. split_and!; [done..|lia|done|].
    rewrite get_tile_state_ok, Hv' by done.
    destruct (robot_pos e'). eauto.
Qed.

(** ** The nearest dirty tile *)

(** The cells of the grid in the order [get_dirty_tiles] scans them. *)
Definition row_major (e : Environment) : list coord :=
  y ← range (height e); x ← range (width e); [(x, y)].

(** [c] comes before [c'] in that scan. *)
Definition scanned_before (c c' : coord) : Prop :=
  c.2 < c'.2 ∨ (c.2 = c'.2 ∧ c.1 < c'.1).

Lemma seq_sorted a n : StronglySorted lt (seq a n).
Proof.
  revert a. induction n as [|n IH]; intros a; simpl; constructor; [done|].
  apply Forall_forall. intros x Hx%elem_of_seq. lia.
Qed.

Lemma seqZ_sorted m n : StronglySorted Z.lt (seqZ m n).
Proof.
  unfold seqZ. eapply StronglySorted_fmap; [|apply seq_sorted].
  intros x y. simpl. lia.
Qed.

Lemma filter_sorted {A} (R : relation A) (P : A → Prop) `{∀ x, Decision (P x)} l :
  StronglySorted R l → StronglySorted R (filter P l).
Proof.
  induction 1 as [|x l Hs IH Hx]; [constructor|].
  rewrite filter_cons. case_decide; [|done]. constructor; [done|].
  apply Forall_forall. intros y [_ Hy]%list_elem_of_filter.
  rewrite Forall_forall in Hx. by apply Hx.
Qed.

Lemma row_major_sorted e : StronglySorted scanned_before (row_major e).
Proof.
  unfold row_major, range.
  pose proof (seqZ_sorted 0 (height e)) as Hys.
  induction Hys as [|y ys Hs IH Hy]; [constructor|].
  cbn [mbind list_bind]. apply StronglySorted_app_2.
  - intros c c' Hc Hc'.
    apply list_elem_of_bind in Hc as (x & ->%list_elem_of_singleton & _).
    apply list_elem_of_bind in Hc' as (y' & Hc' & Hy').
    apply list_elem_of_bind in Hc' as (x' & ->%list_elem_of_singleton & _).
    rewrite Forall_forall in Hy. specialize (Hy y' Hy').
    left. simpl. lia.
  - clear. pose proof (seqZ_sorted 0 (width e)) as Hxs.
    induction Hxs as [|x xs Hs IH Hx]; [constructor|].
    cbn [mbind list_bind app]. constructor; [done|].
    apply Forall_forall. intros c (x' & ->%list_elem_of_singleton & Hx')%list_elem_of_bind.
    rewrite Forall_forall in Hx. specialize (Hx x' Hx').
    right. simpl. lia.
  - done.
Qed.

Lemma elem_of_row_major e c :
  c ∈ row_major e ↔ is_valid_position e c.1 c.2 = true.
Proof.
  unfold row_major, range. rewrite is_valid_position_spec, list_elem_of_bind.
  split.
  - intros (y & (x & ->%list_elem_of_singleton & Hx%elem_of_seqZ)%list_elem_of_bind
              & Hy%elem_of_seqZ). simpl. lia.
  - intros [Hx Hy]. exists c.2. split; [|apply elem_of_seqZ; lia].
    apply list_elem_of_bind. exists c.1. split; [|apply elem_of_seqZ; lia].
    destruct c. simpl. by left.
Qed.

Lemma get_dirty_tiles_ok e :
  grid_ok e →
  get_dirty_tiles e = Ok (filter (λ c, tile (grid e) c = DIRTY) (row_major e)).
Proof.
  intros Hok. unfold get_dirty_tiles, row_major.
  assert (∀ y xs acc, 0 ≤ y < height e → Forall (λ x, 0 ≤ x < width e) xs →
    for_each xs (λ x acc,
        let* t := grid_get (grid e) x y in
        Ok (if decide (t = DIRTY) then acc ++ [(x, y)] else acc)) acc
    = Ok (acc ++ filter (λ c, tile (grid e) c = DIRTY) (x ← xs; [(x, y)])))
    as Hinner.
  { intros y xs acc Hy Hxs. revert acc.
    induction Hxs as [|x xs Hx _ IH]; intros acc; cbn [for_each].
    - by rewrite app_nil_r.
    - rewrite grid_get_ok; [|done|apply is_valid_position_spec; lia].
      cbn [bind mbind list_bind app]. rewrite IH, filter_cons.
      case_decide; [|done]. by rewrite <-app_assoc. }
  assert (∀ ys acc, Forall (λ y, 0 ≤ y < height e) ys →
    for_each ys (λ y acc,
        for_each (range (width e)) (λ x acc,
          let* t := grid_get (grid e) x y in
          Ok (if decide (t = DIRTY) then acc ++ [(x, y)] else acc)) acc) acc
    = Ok (acc ++ filter (λ c, tile (grid e) c = DIRTY)
                   (y ← ys; x ← range (width e); [(x, y)]))) as Houter.
  { intros ys acc Hys. revert acc.
    induction Hys as [|y ys Hy _ IH]; intros acc; cbn [for_each].
    - by rewrite app_nil_r.
    - rewrite Hinner; [|done|].
      2:{ apply Forall_forall. intros x Hx%elem_of_seqZ. lia. }
      cbn [bind mbind list_bind]. rewrite IH, filter_app. by rewrite <-app_assoc. }
  rewrite Houter; [done|]. apply Forall_forall. intros y Hy%elem_of_seqZ. lia.
Qed.

(** [py_min] returns the first element of smallest key. *)
Lemma py_min_first {A} (key : A → Z) (l pre mid : list A) (best : A) :
  (∀ x, x ∈ pre → key best < key x) → (∀ x, x ∈ mid → key best ≤ key x) →
  ∃ l1 l2,
    pre ++ best :: mid ++ l = l1 ++ py_min key best l :: l2 ∧
    (∀ x, x ∈ l1 → key (py_min key best l) < key x) ∧
    (∀ x, x ∈ l2 → key (py_min key best l) ≤ key x).
Proof.
  revert pre mid best. induction l as [|x l IH]; intros pre mid best Hpre Hmid; simpl.
  - exists pre, mid. by rewrite app_nil_r.
  - destruct (decide (key x < key best)) as [Hlt|Hge].
    + destruct (IH (pre ++ best :: mid) [] x) as (l1 & l2 & Heq & H1 & H2).
      * intros y [Hy|[->|Hy]%elem_of_cons]%elem_of_app.
        -- specialize (Hpre y Hy). lia.
        -- done.
        -- specialize (Hmid y Hy). lia.
      * by intros y ?%elem_of_nil.
      * exists l1, l2. split; [|done]. rewrite <-Heq. by rewrite <-app_assoc.
    + destruct (IH pre (mid ++ [x]) best) as (l1 & l2 & Heq & H1 & H2).
      * done.
      * intros y [Hy| ->%list_elem_of_singleton]%elem_of_app; [by apply Hmid|lia].
      * exists l1, l2. split; [|done]. rewrite <-Heq. by rewrite <-app_assoc.
Qed.

(** C9: with at least one dirty tile, [find_nearest_dirty_tile] returns a
    dirty tile at the smallest Manhattan distance from [start], and of the
    dirty tiles at that distance the one scanned first in row-major order
    (rows by [y], then [x]); with no dirty tile it returns [None]. *)
Theorem find_nearest_dirty_tile_spec (e : Environment) (start : coord) :
  grid_ok e →
  let dirty c := get_tile_state e c.1 c.2 = Ok DIRTY in
  ((∃ c, dirty c) →
   ∃ t, find_nearest_dirty_tile e start = Ok (Some t) ∧
        dirty t ∧
        (∀ c, dirty c → heuristic start t ≤ heuristic start c) ∧
        (∀ c, dirty c → heuristic start c = heuristic start t → c ≠ t →
              scanned_before t c)) ∧
  ((¬ ∃ c, dirty c) → find_nearest_dirty_tile e start = Ok None).
Proof.
  intros Hok dirty. unfold find_nearest_dirty_tile.
  rewrite get_dirty_tiles_ok by done. cbn [bind].
  set (dl := filter _ _).
  assert (∀ c, c ∈ dl ↔ dirty c) as Hdl.
  { intros c. unfold dl, dirty.
    rewrite list_elem_of_filter, elem_of_row_major, get_tile_state_ok by done.
    destruct c as [x y]. simpl.
    destruct (is_valid_position e x y) eqn:Hv.
    - split; [by intros [-> _]|by intros [= ->]].
    - split; [by intros [_ ?]|by intros [= ?]]. }
  assert (StronglySorted scanned_before dl) as Hsorted.
  { apply filter_sorted, row_major_sorted. }
  clearbody dl. destruct dl as [|t0 ts].
  { split; [|done]. intros [c Hc%Hdl]. by apply elem_of_nil in Hc. }
  split; [intros _|intros []; exists t0; apply Hdl; by left].
  destruct (py_min_first (λ pos, heuristic start pos) ts [] [] t0)
    as (l1 & l2 & Heq & H1 & H2); [by intros ? ?%elem_of_nil..|].
  simpl in Heq. set (t := py_min _ _ _) in *.
  exists t. split; [done|]. rewrite Heq in Hdl, Hsorted.
  split_and!.
  - apply Hdl. set_solver.
  - intros c [Hc|[->|Hc]%elem_of_cons]%Hdl%elem_of_app.
    + specialize (H1 c Hc). lia.
    + done.
    + by apply H2.
  - intros c [Hc|[->|Hc]%elem_of_cons]%Hdl%elem_of_app Hh Hne.
    + specialize (H1 c Hc). simpl in H1. lia.
    + done.
    + apply StronglySorted_app in Hsorted as (_ & _ & Hs).
      apply StronglySorted_inv in Hs as [_ Hall].
      rewrite Forall_forall in Hall. by apply Hall.
Qed.

(** ** What the policies keep when they clean *)

(** The claim that a policy drops its pending path and its goal whenever
    [act] answers [Clean]. *)
Definition clears_cache_on_clean (p : Policy) : Prop :=
  ∀ gas r e perception p',
    act gas r p e perception = Ok (p', Clean) →
    cached_path p' = [] ∧ cached_goal p' = None.

(** A grid of two columns and three rows: an obstacle at [(0, 1)], dirt at
    [(0, 2)] and at [(1, 2)], the robot at [(0, 0)]. *)
Definition detour_world : Environment :=
  mkEnv 2 3 [[CLEAN; CLEAN]; [OBSTACLE; CLEAN]; [DIRTY; DIRTY]] (0, 0) 2 0.

(** The model-based agent three moves into its plan for [(0, 2)], standing
    on the dirty tile [(1, 2)] that the plan passes through. *)
Definition detour_world_at_dirt : Environment := set_robot_pos detour_world (1, 2).
Definition agent_en_route : ModelBasedAgent :=
  mkModelBased (mkAgent "Model-Based Agent" 0 0) ∅ [(0, 2)] "bfs".

(** One perceive-decide-apply cycle of the simulation for the model-based
    agent (the cycle of [VacuumSimulation.step], without its counters and
    display). *)
Definition cycle (gas r : nat) (s : ModelBasedAgent * Environment)
  : res (ModelBasedAgent * Environment) :=
  let '(a, e) := s in
  let* perception := perceive e in
  let* (a', action) := ModelBasedAgent_act gas r a e perception in
  match action with
  | Clean => let* (e', _) := clean_current_tile e in Ok (a', e')
  | Move pos => let* (e', _) := move_robot e pos.1 pos.2 in Ok (a', e')
  | Wait => Ok (a', e)
  end.

(** That state is the one a run reaches: the agent plans at [(0, 0)] and
    follows its path for three moves. *)
Lemma agent_en_route_reached :
  (let* s1 := cycle 20 0 (ModelBasedAgent_new "bfs", detour_world) in
   let* s2 := cycle 20 0 s1 in
   cycle 20 0 s2) = Ok (agent_en_route, detour_world_at_dirt).
Proof. vm_compute. reflexivity. Qed.

(** The model-based agent answers [Clean] there and keeps its path. *)
Lemma model_based_keeps_path :
  ¬ clears_cache_on_clean (ModelBased agent_en_route).
Proof.
  intros H.
  destruct (H 20%nat 0%nat detour_world_at_dirt
              (mkPerception (1, 2) DIRTY [(1, 1); (0, 2)] false)
              (ModelBased (mkModelBased (mkAgent "Model-Based Agent" 0 0)
                             {[(1, 2)]} [(0, 2)] "bfs"))) as [Hpath _].
  - vm_compute. reflexivity.
  - discriminate Hpath.
Qed.

Lemma wander_not_clean r a perception a' :
  ModelBasedAgent_wander r a perception ≠ Ok (a', Clean).
Proof.
  unfold ModelBasedAgent_wander.
  destruct (filter _ _) as [|? ?].
  - destruct (neighbors perception) as [|? ?]; [done|].
    destruct (random_choice _ _); done.
  - destruct (random_choice _ _); done.
Qed.

Lemma plan_not_clean gas a e perception a' :
  UtilityBasedAgent_plan gas a e perception ≠ Ok (a', Clean).
Proof.
  unfold UtilityBasedAgent_plan.
  destruct (find_nearest_dirty_tile _ _) as [[nearest|]| |]; cbn [bind]; try done.
  destruct (astar _ _ _ _) as [result| |]; cbn [bind]; try done.
  destruct (found result); [|done]. destruct (path result); done.
Qed.

Lemma ModelBasedAgent_act_clean gas r a e perception a' :
  ModelBasedAgent_act gas r a e perception = Ok (a', Clean) →
  tile_state perception = DIRTY ∧
  a' = mkModelBased (mb_base a) (cleaned_tiles a ∪ {[position perception]})
         (mb_current_path a) (search_algorithm a).
Proof.
  unfold ModelBasedAgent_act.
  destruct (decide (tile_state perception = DIRTY)) as [Hd|Hd].
  { by intros [= <-]. }
  intros Hact. exfalso. revert Hact.
  destruct (mb_current_path a); [|done].
  destruct (find_nearest_dirty_tile _ _) as [[nearest|]| |]; cbn [bind]; try done.
  - destruct (if decide (search_algorithm a = "bfs") then _ else _)
      as [result| |]; cbn [bind]; try done.
    destruct (found result); [destruct (path result)|]; try done;
      apply wander_not_clean.
  - apply wander_not_clean.
Qed.

Lemma UtilityBasedAgent_act_clean gas a e perception a' :
  UtilityBasedAgent_act gas a e perception = Ok (a', Clean) →
  tile_state perception = DIRTY ∧ a' = mkUtilityBased (ub_base a) [] None.
Proof.
  unfold UtilityBasedAgent_act.
  destruct (decide (tile_state perception = DIRTY)) as [Hd|Hd].
  { by intros [= <-]. }
  intros Hact. exfalso. revert Hact.
  destruct (ub_current_path a) as [|next_pos rest], (current_goal a) as [goal|];
    try apply plan_not_clean.
  destruct (get_tile_state _ _ _) as [t| |]; cbn [bind]; try done.
  destruct (decide (t = DIRTY)); [done|]. apply plan_not_clean.
Qed.

Lemma GoalBasedAgent_act_clean gas a e perception a' :
  GoalBasedAgent_act gas a e perception = Ok (a', Clean) →
  tile_state perception = DIRTY ∧ a' = mkGoalBased (gb_base a) [].
Proof.
  unfold GoalBasedAgent_act.
  destruct (decide (tile_state perception = DIRTY)) as [Hd|Hd].
  { by intros [= <-]. }
  destruct (gb_current_path a); [|done].
  destruct (get_dirty_tiles e) as [[|target ?]| |]; cbn [bind]; try done.
  destruct (dfs _ _ _ _) as [result| |]; cbn [bind]; try done.
  destruct (found result); [destruct (path result)|]; done.
Qed.

Lemma SimpleReflexAgent_act_clean r a e perception a' :
  SimpleReflexAgent_act r a e perception = Ok (a', Clean) →
  tile_state perception = DIRTY.
Proof.
  unfold SimpleReflexAgent_act.
  destruct (decide (tile_state perception = DIRTY)) as [Hd|Hd]; [done|].
  destruct (neighbors perception); [done|].
  destruct (random_choice _ _); done.
Qed.

(** C4, as the code has it: [act] answers [Clean] only for a dirty tile; the
    utility-based and the goal-based agent then hold an empty path (and no
    goal), the reflex agent holds none at all, and the model-based agent
    keeps its pending path as it was and records the cleaned position. *)
Theorem act_clean_cache (gas r : nat) (p : Policy) (e : Environment)
    (perception : Perception) (p' : Policy) :
  act gas r p e perception = Ok (p', Clean) →
  tile_state perception = DIRTY ∧
  match p with
  | ModelBased a =>
      ∃ a', p' = ModelBased a' ∧
            mb_current_path a' = mb_current_path a ∧
            cleaned_tiles a' = cleaned_tiles a ∪ {[position perception]}
  | _ => cached_path p' = [] ∧ cached_goal p' = None
  end.
Proof.
  destruct p as [a|a|a|a]; unfold act.
  - destruct (SimpleReflexAgent_act _ _ _ _) as [[a' action]| |] eqn:Hact;
      cbn [bind]; [|done..].
    intros [= <- ->]. by apply SimpleReflexAgent_act_clean in Hact.
  - destruct (ModelBasedAgent_act _ _ _ _ _) as [[a' action]| |] eqn:Hact;
      cbn [bind]; [|done..].
    intros [= <- ->]. apply ModelBasedAgent_act_clean in Hact as [Hd ->].
    split; [done|]. eexists. by split_and!.
  - destruct (UtilityBasedAgent_act _ _ _ _) as [[a' action]| |] eqn:Hact;
      cbn [bind]; [|done..].
    intros [= <- ->]. by apply UtilityBasedAgent_act_clean in Hact as [Hd ->].
  - destruct (GoalBasedAgent_act _ _ _ _) as [[a' action]| |] eqn:Hact;
      cbn [bind]; [|done..].
    intros [= <- ->]. by apply GoalBasedAgent_act_clean in Hact as [Hd ->].
Qed.

(** ** The properties on concrete worlds *)

Lemma detour_world_ok : grid_ok detour_world.
Proof. split; [done|]. by repeat constructor. Qed.

Lemma detour_world_at_dirt_ok : env_ok detour_world_at_dirt.
Proof. split; [|done]. split; [done|]. by repeat constructor. Qed.

(** A row of three tiles with a wall between the robot and the dirt. *)
Definition walled_world : Environment :=
  mkEnv 3 1 [[CLEAN; OBSTACLE; DIRTY]] (0, 0) 1 0.

Lemma walled_world_ok : grid_ok walled_world.
Proof. split; [done|]. by repeat constructor. Qed.

Lemma walled_world_unreachable : ¬ reachable walled_world (0, 0) (2, 0).
Proof.
  intros [[|x l] Hl]; simpl in Hl; [done|].
  destruct Hl as [Hedge%edge_nbrs _]; [|apply walled_world_ok].
  vm_compute in Hedge. by apply elem_of_nil in Hedge.
Qed.

Definition detour_bfs : SearchResult :=
  Eval vm_compute in
    match bfs 20 detour_world (0, 0) (0, 2) with Ok r => r | _ => SearchResult_new end.
Definition detour_astar : SearchResult :=
  Eval vm_compute in
    match astar 20 detour_world (0, 0) (0, 2) with Ok r => r | _ => SearchResult_new end.

Lemma detour_bfs_run : bfs 20 detour_world (0, 0) (0, 2) = Ok detour_bfs.
Proof. vm_compute. reflexivity. Qed.
Lemma detour_astar_run : astar 20 detour_world (0, 0) (0, 2) = Ok detour_astar.
Proof. vm_compute. reflexivity. Qed.

Lemma bfs_returns_shortest_path_witness :
  path detour_bfs = [(1, 0); (1, 1); (1, 2); (0, 2)] ∧
  is_route detour_world (0, 0) (path detour_bfs) (0, 2) ∧
  (∀ l, is_route detour_world (0, 0) l (0, 2) →
        (length (path detour_bfs) ≤ length l)%nat) ∧
  path_cost detour_bfs = Z.of_nat (length (path detour_bfs)).
Proof.
  split; [reflexivity|].
  apply (bfs_returns_shortest_path detour_world (0, 0) (0, 2) 20 detour_bfs).
  - exact detour_world_ok.
  - exact detour_bfs_run.
  - reflexivity.
Defined.

Lemma astar_path_as_short_as_bfs_witness :
  (length (path detour_astar) ≤ length (path detour_bfs))%nat ∧
  length (path detour_astar) = length (path detour_bfs) ∧
  path_cost detour_astar = path_cost detour_bfs.
Proof.
  apply (astar_path_as_short_as_bfs detour_world (0, 0) (0, 2) 20 20).
  - exact detour_world_ok.
  - exact detour_astar_run.
  - exact detour_bfs_run.
  - reflexivity.
  - reflexivity.
Defined.

Lemma unreachable_goal_exhausts_component_witness :
  ∃ gas0, ∀ gas, (gas0 ≤ gas)%nat →
    ∀ search, search ∈ [bfs; dfs; astar] →
      ∃ r, search gas walled_world (0, 0) (2, 0) = Ok r ∧
           found r = false ∧
           (∀ c, c ∈ explored r ↔ reachable walled_world (0, 0) c) ∧
           (∀ comp : gset coord,
              (∀ c, c ∈ comp ↔ reachable walled_world (0, 0) c) →
              nodes_expanded r = Z.of_nat (size comp)).
Proof.
  apply (unreachable_goal_exhausts_component walled_world (0, 0) (2, 0)).
  - exact walled_world_ok.
  - exact walled_world_unreachable.
Defined.

Lemma act_clean_cache_witness :
  tile_state (mkPerception (1, 2) DIRTY [(1, 1); (0, 2)] false) = DIRTY ∧
  cached_path (UtilityBased (mkUtilityBased (mkAgent "Utility-Based Agent (A*)" 0 0)
                 [] None)) = [] ∧
  cached_goal (UtilityBased (mkUtilityBased (mkAgent "Utility-Based Agent (A*)" 0 0)
                 [] None)) = None.
Proof.
  apply (act_clean_cache 20 0
           (UtilityBased (mkUtilityBased (mkAgent "Utility-Based Agent (A*)" 0 0)
                            [(0, 2)] (Some (0, 2))))
           detour_world_at_dirt
           (mkPerception (1, 2) DIRTY [(1, 1); (0, 2)] false)).
  reflexivity.
Defined.

Lemma moves_and_cleans_keep_invariant_witness :
  ∃ e k e',
    Environment_init 2 2 default_dirt_probability default_obstacle_probability
      (λ _, Q2Qc (QArith_base.Qmake 1 5)) = Ok (e, k) ∧
    run_commands [MoveRobot 1 0; CleanCurrentTile; MoveRobot 5 5] e = Ok e' ∧
    cleaned_dirt e' ≤ total_dirt e' ∧
    is_valid_position e' (robot_pos e').1 (robot_pos e').2 = true ∧
    ∃ t, get_tile_state e' (robot_pos e').1 (robot_pos e').2 = Ok t ∧ t ≠ OBSTACLE.
Proof.
  apply (moves_and_cleans_keep_invariant 2 2); lia.
Defined.

Lemma search_start_is_goal_witness :
  ∃ r, astar 0 walled_world (2, 0) (2, 0) = Ok r ∧
       found r = true ∧ path r = [] ∧ path_cost r = 0.
Proof.
  apply (search_start_is_goal walled_world (2, 0) 0 astar).
  apply list_elem_of_further, list_elem_of_further, list_elem_of_here.
Defined.

Lemma clean_current_tile_spec_witness :
  ∃ e' b,
    clean_current_tile detour_world_at_dirt = Ok (e', b) ∧
    (b = true ↔ get_tile_state detour_world_at_dirt 1 2 = Ok DIRTY) ∧
    (b = true →
       get_tile_state e' 1 2 = Ok CLEAN ∧
       cleaned_dirt e' = 0 + 1 ∧
       (∀ c, c ≠ (1, 2) →
             get_tile_state e' c.1 c.2 = get_tile_state detour_world_at_dirt c.1 c.2) ∧
       width e' = 2 ∧ height e' = 3 ∧ robot_pos e' = (1, 2) ∧ total_dirt e' = 2) ∧
    (b = false → e' = detour_world_at_dirt) ∧
    clean_current_tile e' = Ok (e', false).
Proof.
  apply (clean_current_tile_spec detour_world_at_dirt).
  exact detour_world_at_dirt_ok.
Defined.

Lemma move_robot_iff_walkable_witness :
  ∃ e' b,
    move_robot detour_world 0 1 = Ok (e', b) ∧
    is_walkable detour_world 0 1 = Ok b ∧
    (b = true ↔
       is_valid_position detour_world 0 1 = true ∧
       grid_get (grid detour_world) 0 1 ≠ Ok OBSTACLE) ∧
    (b = true → e' = set_robot_pos detour_world (0, 1) ∧ robot_pos e' = (0, 1)) ∧
    (b = false → e' = detour_world).
Proof.
  apply (move_robot_iff_walkable detour_world 0 1).
  exact detour_world_ok.
Defined.

Lemma find_nearest_dirty_tile_spec_witness :
  let dirty c := get_tile_state detour_world c.1 c.2 = Ok DIRTY in
  ((∃ c, dirty c) →
   ∃ t, find_nearest_dirty_tile detour_world (1, 1) = Ok (Some t) ∧
        dirty t ∧
        (∀ c, dirty c → heuristic (1, 1) t ≤ heuristic (1, 1) c) ∧
        (∀ c, dirty c → heuristic (1, 1) c = heuristic (1, 1) t → c ≠ t →
              scanned_before t c)) ∧
  ((¬ ∃ c, dirty c) → find_nearest_dirty_tile detour_world (1, 1) = Ok None).
Proof.
  apply (find_nearest_dirty_tile_spec detour_world (1, 1)).
  exact detour_world_ok.
Defined.

Definition detour_dfs_1 : search_state :=
  Eval vm_compute in
    match dfs_body 20 detour_world (0, 0) (0, 2) (initial_state (0, 0)) with
    | Ok (inl s) => s
    | _ => initial_state (0, 0)
    end.
Definition detour_dfs_2 : search_state :=
  Eval vm_compute in
    match dfs_body 20 detour_world (0, 0) (0, 2) detour_dfs_1 with
    | Ok (inl s) => s
    | _ => initial_state (0, 0)
    end.

Lemma detour_dfs_steps :
  steps (dfs_body 20 detour_world (0, 0) (0, 2)) (initial_state (0, 0)) detour_dfs_2.
Proof.
  apply (rtc_l _ _ detour_dfs_1); [vm_compute; reflexivity|].
  apply (rtc_l _ _ detour_dfs_2); [vm_compute; reflexivity|].
  apply rtc_refl.
Qed.

Lemma frontier_appends_once_witness :
  frontier detour_dfs_2 = [(1, 1)] ∧
  NoDup (frontier detour_dfs_2) ∧
  ∀ rest current,
    py_pop (frontier detour_dfs_2) = Some (rest, current) →
    current ∉ st_explored detour_dfs_2.
Proof.
  split; [reflexivity|].
  apply (frontier_appends_once 20 detour_world (0, 0) (0, 2)).
  exact detour_dfs_steps.
Defined.

(** * Further properties of the code *)

(** ** Neighbours and the Manhattan distance *)

Lemma manhattan_one (x y : Z) (n : coord) :
  heuristic (x, y) n = 1 ↔
  n ∈ [(x + 0, y + -1); (x + 1, y + 0); (x + 0, y + 1); (x + -1, y + 0)].
Proof.
  destruct n as [nx ny]. unfold heuristic. simpl.
  rewrite !elem_of_cons, elem_of_nil. split.
  - intros H.
    destruct (decide (nx = x)) as [->|Hx].
    + destruct (decide (ny = y - 1)) as [->|?]; [left; f_equal; lia|].
      right. right. left. f_equal; lia.
    + destruct (decide (nx = x + 1)) as [->|?]; [right; left; f_equal; lia|].
      right. right. right. left. f_equal; lia.
  - intros [[= -> ->]|[[= -> ->]|[[= -> ->]|[[= -> ->]|[]]]]]; lia.
Qed.

Lemma walkable_set_robot_pos e p c : walkable (set_robot_pos e p) c = walkable e c.
Proof. done. Qed.

(** [get_neighbors] on a grid of the shape [__init__] builds never raises.
    It returns, without repetition, exactly the walkable cells at Manhattan
    distance one from [(x, y)], in the order up, right, down, left; and
    between walkable cells the relation is symmetric. *)
Theorem get_neighbors_spec (e : Environment) (x y : Z) :
  grid_ok e →
  ∃ ns,
    get_neighbors e x y = Ok ns ∧
    NoDup ns ∧
    sublist ns [(x + 0, y + -1); (x + 1, y + 0); (x + 0, y + 1); (x + -1, y + 0)] ∧
    (∀ n, n ∈ ns ↔ is_walkable e n.1 n.2 = Ok true ∧ heuristic (x, y) n = 1) ∧
    (is_walkable e x y = Ok true → ∀ n, n ∈ ns → edge e n (x, y)).
Proof.
  intros Hok. exists (nbrs e (x, y)). rewrite get_neighbors_ok by done.
  assert (NoDup [(x + 0, y + -1); (x + 1, y + 0); (x + 0, y + 1); (x + -1, y + 0)])
    as Hnd.
  { repeat (constructor; [rewrite ?elem_of_cons, elem_of_nil;
                          intros H; repeat destruct H as [H|H];
                          try done; injection H; lia|]).
    constructor. }
  assert (∀ n, n ∈ nbrs e (x, y) ↔
               is_walkable e n.1 n.2 = Ok true ∧ heuristic (x, y) n = 1) as Hin.
  { intros n. unfold nbrs. rewrite list_elem_of_filter, manhattan_one. simpl.
    rewrite is_walkable_ok by done. destruct n as [nx ny]. simpl.
    split; [by intros [-> ?]|by intros [[= ->] ?]]. }
  split_and!; try done.
  - unfold nbrs. by apply NoDup_filter.
  - unfold nbrs. simpl. apply sublist_filter.
  - intros Hw n [Hn Hd]%Hin. apply edge_nbrs; [done|].
    destruct n as [nx ny]. simpl in *.
    unfold nbrs. apply list_elem_of_filter. split.
    + rewrite is_walkable_ok in Hw by done. by injection Hw.
    + apply manhattan_one. unfold heuristic in *. simpl in *. lia.
Qed.

(** The Manhattan distance between two cells is symmetric, vanishes only
    between a cell and itself, changes by at most one along an edge, and is
    never more than the number of hops of a route between them: as a
    heuristic it is consistent and admissible. *)
Theorem heuristic_admissible (e : Environment) (a b : coord) :
  grid_ok e →
  heuristic a b = heuristic b a ∧
  (heuristic a b = 0 ↔ a = b) ∧
  (∀ n goal, edge e a n → heuristic a goal ≤ 1 + heuristic n goal) ∧
  (∀ l, is_route e a l b → heuristic a b ≤ Z.of_nat (length l)).
Proof.
  intros Hok. split_and!.
  - unfold heuristic. lia.
  - destruct a as [ax ay], b as [bx by_]. unfold heuristic. simpl. split.
    + intros H. f_equal; lia.
    + intros [= -> ->]. lia.
  - intros n goal Hedge%edge_nbrs; [|done]. by apply (nbrs_heuristic e).
  - intros l Hl. pose proof (route_heuristic e a l b b Hok Hl) as H.
    assert (heuristic b b = 0) as Hbb by (unfold heuristic; lia). lia.
Qed.

(** ** Walking a route *)

(** Moving the robot to each cell of a path in turn, as the simulation does
    with the path of a plan; the flag tells whether every [move_robot]
    returned [True]. *)
Definition follow_path (l : list coord) (e : Environment) : res (Environment * bool) :=
  for_each l
    (λ pos s, let* (e', ok) := move_robot s.1 pos.1 pos.2 in Ok (e', s.2 && ok))
    (e, true).

Lemma is_route_set_robot_pos e p a l b :
  is_route (set_robot_pos e p) a l b ↔ is_route e a l b.
Proof. revert a. induction l as [|c l IH]; intros a; simpl; [done|]. by rewrite IH. Qed.

Lemma follow_route e l b (ok : bool) :
  grid_ok e → is_route e (robot_pos e) l b →
  ∃ e',
    for_each l
      (λ pos s, let* (e', ok) := move_robot s.1 pos.1 pos.2 in Ok (e', s.2 && ok))
      (e, ok) = Ok (e', ok) ∧
    robot_pos e' = b ∧ grid e' = grid e ∧ width e' = width e ∧
    height e' = height e ∧ total_dirt e' = total_dirt e ∧
    cleaned_dirt e' = cleaned_dirt e.
Proof.
  intros Hok. revert e Hok. induction l as [|c l IH]; intros e Hok; cbn [for_each is_route].
  - intros <-. by exists e.
  - intros [Hedge%edge_nbrs Hl]; [|done].
    apply nbrs_walkable in Hedge as Hw.
    unfold move_robot. cbn [fst snd]. rewrite is_walkable_ok by done.
    destruct c as [cx cy]. cbn [fst snd bind]. rewrite Hw. cbn [bind].
    rewrite andb_true_r.
    destruct (IH (set_robot_pos e (cx, cy))) as (e' & Hrun & Hpos & Hrest).
    + done.
    + by apply is_route_set_robot_pos.
    + exists e'. by split.
Qed.

(** ** The predecessor tree of [bfs] and [dfs] *)

Lemma reconstruct_loop_no_raise e start cf d fuel n acc x :
  tree_ok e start cf d → is_Some (cf !! n) →
  reconstruct_loop fuel cf start n acc ≠ Raise x.
Proof.
  intros (Hs & Hd0 & Hroot & Htree). revert n acc.
  induction fuel as [|fuel IH]; intros n acc Hn; simpl.
  - destruct (decide (n = start)); done.
  - destruct (decide (n = start)) as [->|Hne]; [done|].
    destruct Hn as [[p|] Hp]; rewrite Hp.
    + apply IH. by destruct (Htree n p Hp) as (? & _).
    + by apply Hroot in Hp.
Qed.

Lemma while_loop_no_raise {S R} (body : S → res (S + R)) (Inv : S → Prop) :
  (∀ s s', Inv s → body s = Ok (inl s') → Inv s') →
  (∀ s x, Inv s → body s ≠ Raise x) →
  ∀ fuel s x, Inv s → while_loop body fuel s ≠ Raise x.
Proof.
  intros Hstep Hbody fuel. induction fuel as [|fuel IH]; intros s x Hs; [done|].
  simpl. destruct (body s) as [[s'|r]|x'|] eqn:Hb; cbn [bind]; try done.
  - apply IH. by eapply Hstep.
  - intros [= ->]. by eapply Hbody.
Qed.

Section search_tree.
Context (e : Environment) (Hok : grid_ok e) (start goal : coord).

(** [came_from] is a tree rooted at [start] whose depth never exceeds the
    number of explored cells. *)
Definition tree_inv (st : search_state) : Prop :=
  ∃ d : coord → nat,
    tree_ok e start (came_from st) d ∧
    ∀ n, n ∈ dom (came_from st) → (d n ≤ size (st_explored st))%nat.

Definition search_inv (st : search_state) : Prop :=
  explore_inv e start st ∧ tree_inv st.

Lemma search_inv_initial : search_inv (initial_state start).
Proof.
  split; [by apply explore_initial|].
  exists (λ _, 0%nat). simpl. split; [|intros; lia].
  unfold tree_ok. split_and!; try done.
  - apply lookup_singleton_eq.
  - by intros n [-> _]%lookup_singleton_Some.
  - by intros n p [_ ?]%lookup_singleton_Some.
Qed.

Lemma tree_step st cur rest added cf' r :
  search_inv st → frontier st ≡ₚ cur :: rest →
  (∀ x, x ∈ added ↔
        x ∈ nbrs e cur ∧ came_from st !! x = None ∧ x ∉ st_explored st ∪ {[cur]}) →
  (∀ x, x ∈ added → cf' !! x = Some (Some cur)) →
  (∀ x, x ∉ added → cf' !! x = came_from st !! x) →
  dom cf' = dom (came_from st) ∪ list_to_set added →
  tree_inv (mkState (rest ++ added) cf' (st_explored st ∪ {[cur]}) r).
Proof.
  intros [((Hnd & Hdisj & Hdomf) & _) (d & (Hs & Hd0 & Hroot & Htree) & Hdepth)]
    Hperm Hadded Hnew Hold Hdom'.
  assert (cur ∈ dom (came_from st)) as Hcur.
  { rewrite Hdomf, Hperm. set_solver. }
  assert (cur ∉ st_explored st) as Hcex.
  { apply Hdisj. rewrite Hperm. by left. }
  assert (∀ x, x ∈ dom (came_from st) → x ∉ added) as Hrec.
  { intros x Hx (_ & Hl & _)%Hadded. by apply not_elem_of_dom in Hl. }
  set (d' := λ x, if decide (x ∈ added) then S (d cur) else d x).
  assert (∀ x, x ∈ dom (came_from st) → d' x = d x) as Hd'.
  { intros x Hx%Hrec. unfold d'. by rewrite decide_False. }
  assert (size (st_explored st ∪ {[cur]}) = S (size (st_explored st))) as Hsize.
  { rewrite (size_union (st_explored st)) by set_solver. rewrite size_singleton. lia. }
  exists d'. simpl. split.
  - unfold tree_ok. split_and!.
    + rewrite Hold; [done|]. apply Hrec. by apply elem_of_dom.
    + rewrite Hd'; [done|]. by apply elem_of_dom.
    + intros n Hn. destruct (decide (n ∈ added)) as [Hin|Hnin].
      * by rewrite Hnew in Hn.
      * rewrite Hold in Hn by done. by apply Hroot.
    + intros n p Hn. destruct (decide (n ∈ added)) as [Hin|Hnin].
      * rewrite Hnew in Hn by done. injection Hn as Hp. subst p. split_and!.
        -- rewrite Hold by by apply Hrec. by apply elem_of_dom.
        -- apply edge_nbrs; [done|]. by apply Hadded.
        -- rewrite (Hd' cur) by done. unfold d'. by rewrite decide_True.
      * rewrite Hold in Hn by done.
        destruct (Htree n p Hn) as (Hp & Hedge & Hdn).
        assert (p ∈ dom (came_from st)) as Hpd by by apply elem_of_dom.
        split_and!; [|done|].
        -- rewrite Hold by by apply Hrec. done.
        -- rewrite !Hd'; [done..|]. apply elem_of_dom. by rewrite Hn.
  - intros n. rewrite Hdom', Hsize.
    intros [Hn|Hn%elem_of_list_to_set]%elem_of_union.
    + rewrite Hd' by done. specialize (Hdepth n Hn). lia.
    + unfold d'. rewrite decide_True by done. specialize (Hdepth cur Hcur). lia.
Qed.

(** One expansion, from either end of the frontier. *)
Lemma search_inv_expand st cur rest :
  search_inv st → frontier st ≡ₚ cur :: rest →
  ∃ fr' cf',
    expand e (st_explored st ∪ {[cur]}) cur (rest, came_from st) = Ok (fr', cf') ∧
    ∀ r, nodes_expanded r = nodes_expanded (result st) + 1 → found r = false →
      search_inv (mkState fr' cf' (st_explored st ∪ {[cur]}) r) ∧
      (budget e start (length fr') (st_explored st ∪ {[cur]}) <
       budget e start (length (frontier st)) (st_explored st))%nat.
Proof.
  intros Hinv Hperm.
  destruct (expand_spec e (st_explored st ∪ {[cur]}) cur rest (came_from st) Hok)
    as (added & cf' & Heq & Hnd & Hadded & Hdom & Hnew & Hold).
  exists (rest ++ added), cf'. split; [done|]. intros r Hr Hf.
  destruct (explore_step e Hok start st cur rest added cf' r) as [Hexp Hlt];
    try done; [apply Hinv|].
  split; [split; [done|]|done]. by eapply tree_step.
Qed.

(** What the goal test returns. *)
Lemma search_inv_goal gas st :
  search_inv st → goal ∈ dom (came_from st) →
  (∀ p, reconstruct_path gas (came_from st) start goal = Ok p →
        is_route e start p goal) ∧
  (∀ x, reconstruct_path gas (came_from st) start goal ≠ Raise x) ∧
  ((size (universe e start) ≤ gas)%nat →
   ∃ p, reconstruct_path gas (came_from st) start goal = Ok p).
Proof.
  intros [Hexp (d & Ht & Hdepth)] Hg. split_and!.
  - intros p Hp. by eapply reconstruct_path_route in Hp as [? _];
      [|done|apply elem_of_dom].
  - intros x. unfold reconstruct_path.
    destruct (reconstruct_loop _ _ _ _ _) as [p|x'|] eqn:Hp; cbn [bind]; try done.
    by eapply reconstruct_loop_no_raise in Hp; [|done|apply elem_of_dom].
  - intros Hgas.
    destruct (reconstruct_loop_total e start (came_from st) d gas goal [] Ht)
      as [p Hp]; [by apply elem_of_dom| |].
    + etrans; [by apply Hdepth|]. etrans; [|done].
      apply subseteq_size. destruct Hexp as ((_ & _ & Hdom) & _ & Hu & _).
      set_solver.
    + unfold reconstruct_path. rewrite Hp. by eexists.
Qed.

(** The three ways an iteration of [bfs] or [dfs] can go: round the loop
    again, out with an empty frontier, or out through the goal test. *)
Definition body_cases (body : search_state → res (search_state + SearchResult))
    (gas : nat) (st : search_state) : Prop :=
  (∃ st', body st = Ok (inl st') ∧ search_inv st' ∧
          (measure e start st' < measure e start st)%nat ∧
          (goal ∉ st_explored st → goal ∉ st_explored st')) ∨
  (frontier st = [] ∧ ∃ r, body st = Ok (inr r) ∧ found r = false) ∨
  (goal ∈ dom (came_from st) ∧
   body st =
     let* p := reconstruct_path gas (came_from st) start goal in
     Ok (inr (set_found
                (count_expanded
                   (log_frontier (result st) (list_to_set (frontier st))))
                p (st_explored st ∪ {[goal]})))).

Lemma bfs_body_cases gas st :
  search_inv st → body_cases (bfs_body gas e start goal) gas st.
Proof.
  intros Hinv. unfold body_cases, bfs_body.
  destruct (frontier st) as [|cur rest] eqn:Hfr.
  { right. left. split; [done|]. eexists. split; [done|]. apply Hinv. }
  assert (cur ∈ dom (came_from st)) as Hcur.
  { destruct Hinv as [((_ & _ & ->) & _) _]. rewrite Hfr. set_solver. }
  destruct (decide (cur = goal)) as [->|Hne]; [by right; right|].
  left.
  destruct (search_inv_expand st cur rest Hinv) as (fr' & cf' & -> & Hnext).
  { by rewrite Hfr. }
  cbn [bind]. eexists. split; [done|].
  destruct (Hnext (count_expanded
              (log_frontier (result st) (list_to_set (cur :: rest))))) as [Hinv' Hlt].
  { done. }
  { simpl. apply Hinv. }
  split; [done|]. split; [|simpl; set_solver].
  unfold measure. simpl. rewrite ?Hfr in Hlt. simpl in Hlt. rewrite ?Hfr. exact Hlt.
Qed.

Lemma dfs_body_cases gas st :
  search_inv st → body_cases (dfs_body gas e start goal) gas st.
Proof.
  intros Hinv. unfold body_cases, dfs_body.
  destruct (py_pop (frontier st)) as [[rest cur]|] eqn:Hpop.
  2:{ apply py_pop_None in Hpop. right. left. split; [done|].
      eexists. split; [done|]. apply Hinv. }
  apply py_pop_Some in Hpop.
  assert (cur ∈ frontier st) as Hin.
  { rewrite Hpop. apply elem_of_app. right. by left. }
  assert (cur ∈ dom (came_from st)) as Hcur.
  { destruct Hinv as [((_ & _ & ->) & _) _]. set_solver. }
  rewrite bool_decide_eq_false_2.
  2:{ destruct Hinv as [((_ & Hdisj & _) & _) _]. by apply Hdisj. }
  destruct (decide (cur = goal)) as [->|Hne]; [by right; right|].
  left.
  destruct (search_inv_expand st cur rest Hinv) as (fr' & cf' & -> & Hnext).
  { rewrite Hpop. by rewrite Permutation_app_comm. }
  cbn [bind]. eexists. split; [done|].
  destruct (Hnext (count_expanded
              (log_frontier (result st) (list_to_set (frontier st))))) as [Hinv' Hlt].
  { done. }
  { simpl. apply Hinv. }
  split; [done|]. split; [|simpl; set_solver].
  by unfold measure.
Qed.

Section loop.
Context (body : search_state → res (search_state + SearchResult)) (gas : nat).
Context (Hcases : ∀ st, search_inv st → body_cases body gas st).

Lemma loop_step st st' :
  search_inv st → body st = Ok (inl st') → search_inv st'.
Proof.
  intros Hinv Hb.
  destruct (Hcases st Hinv) as [(st'' & Heq & ? & _)|[(_ & r & Heq & _)|(_ & Heq)]];
    rewrite Heq in Hb.
  - by injection Hb as <-.
  - done.
  - destruct (reconstruct_path _ _ _ _); done.
Qed.

Lemma loop_sound fuel r :
  while_loop body fuel (initial_state start) = Ok r → found r = true →
  is_route e start (path r) goal ∧ path_cost r = Z.of_nat (length (path r)).
Proof.
  intros Hrun Hfound.
  eapply (while_loop_inv body search_inv
            (λ r, found r = true →
                  is_route e start (path r) goal ∧
                  path_cost r = Z.of_nat (length (path r))));
    [apply loop_step| |apply search_inv_initial|done|done].
  clear Hrun Hfound. intros st r0 Hinv Hb.
  destruct (Hcases st Hinv) as [(st'' & Heq & _)|[(_ & r' & Heq & Hf)|(Hg & Heq)]];
    rewrite Heq in Hb.
  - done.
  - injection Hb as <-. by rewrite Hf.
  - destruct (reconstruct_path _ _ _ _) as [p| |] eqn:Hp; [|done..].
    injection Hb as <-. intros _. simpl. split; [|done].
    by apply (search_inv_goal gas st Hinv Hg).
Qed.

Lemma loop_no_raise fuel x :
  while_loop body fuel (initial_state start) ≠ Raise x.
Proof.
  apply (while_loop_no_raise body search_inv);
    [apply loop_step| |apply search_inv_initial].
  intros st x' Hinv Hb.
  destruct (Hcases st Hinv) as [(st'' & Heq & _)|[(_ & r' & Heq & Hf)|(Hg & Heq)]];
    rewrite Heq in Hb; try done.
  destruct (reconstruct_path _ _ _ _) as [p|x''|] eqn:Hp; [done| |done].
  by apply (search_inv_goal gas st Hinv Hg) in Hp.
Qed.

Lemma loop_exhausted fuel r :
  while_loop body fuel (initial_state start) = Ok r → found r = false →
  ¬ reachable e start goal.
Proof.
  intros Hrun Hfound.
  eapply (while_loop_inv body (λ st, search_inv st ∧ goal ∉ st_explored st)
            (λ r, found r = false → ¬ reachable e start goal));
    [| |split; [apply search_inv_initial|simpl; set_solver]|done|done];
    clear Hrun Hfound.
  - intros st st' [Hinv Hgoal] Hb. split; [by eapply loop_step|].
    destruct (Hcases st Hinv) as [(st'' & Heq & _ & _ & Hkeep)|[(_ & r' & Heq & _)|(_ & Heq)]];
      rewrite Heq in Hb.
    + injection Hb as <-. auto.
    + done.
    + destruct (reconstruct_path _ _ _ _); done.
  - intros st r0 [Hinv Hgoal] Hb Hf Hreach.
    destruct (Hcases st Hinv) as [(st'' & Heq & _)|[(Hfr & _)|(Hg & Heq)]].
    + by rewrite Heq in Hb.
    + destruct Hgoal. by apply (explore_done e Hok start st); [apply Hinv|..].
    + rewrite Heq in Hb.
      destruct (reconstruct_path _ _ _ _) as [p| |]; [|done..].
      injection Hb as <-. done.
Qed.

Lemma loop_total fuel :
  (size (universe e start) ≤ gas)%nat →
  (measure e start (initial_state start) < fuel)%nat →
  ∃ r, while_loop body fuel (initial_state start) = Ok r.
Proof.
  intros Hgas Hfuel.
  destruct (while_loop_total body search_inv (λ _, True) (measure e start))
    with (s := initial_state start) as (r & _ & Hrun).
  - intros st Hinv.
    destruct (Hcases st Hinv)
      as [(st' & Heq & Hinv' & Hlt & _)|[(_ & r & Heq & _)|(Hg & Heq)]].
    + left. by exists st'.
    + right. by exists r.
    + right. destruct (search_inv_goal gas st Hinv Hg) as (_ & _ & Htotal).
      destruct (Htotal Hgas) as [p Hp]. rewrite Heq, Hp. by eexists.
  - apply search_inv_initial.
  - exists r. by apply Hrun.
Qed.
End loop.
End search_tree.

(** ** More on [astar]: depth of the tree, errors, exhaustion *)

Section astar_more.
Context (e : Environment) (Hok : grid_ok e) (start goal : coord).

(** The [g_score]s written while the neighbours of [cur] are relaxed are
    that of [cur] plus one; that of [cur] stays. *)
Lemma relax_fold_values (ex : gset coord) (cur : coord) ns :
  cur ∈ ex →
  ∀ fr cf (g : gmap coord Z) fr' cf' g',
    for_each ns (relax goal ex cur) (fr, cf, g) = Ok (fr', cf', g') →
    g' !! cur = g !! cur ∧
    ∀ n gn, g' !! n = Some gn →
      g !! n = Some gn ∨ ∃ gc, g !! cur = Some gc ∧ gn = gc + 1.
Proof.
  intros Hcur. induction ns as [|n ns IH]; intros fr cf g fr' cf' g'; cbn [for_each].
  { intros [= <- <- <-]. auto. }
  assert (∀ fr1 cf1 g1,
    for_each ns (relax goal ex cur) (fr1, cf1, g1) = Ok (fr', cf', g') →
    g1 !! cur = g !! cur →
    (∀ m gm, g1 !! m = Some gm →
       g !! m = Some gm ∨ ∃ gc, g !! cur = Some gc ∧ gm = gc + 1) →
    g' !! cur = g !! cur ∧
    ∀ m gm, g' !! m = Some gm →
      g !! m = Some gm ∨ ∃ gc, g !! cur = Some gc ∧ gm = gc + 1) as Hnext.
  { intros fr1 cf1 g1 [Hc Hv]%IH Hc1 Hv1. split; [congruence|].
    intros m gm [Hm|(gc & Hgc & ->)]%Hv; [by apply Hv1|].
    right. exists gc. split; [congruence|done]. }
  unfold relax at 1. case_bool_decide as Hex; cbn [bind].
  { intros Hrun. apply (Hnext _ _ _ Hrun); auto. }
  destruct (g !! cur) as [gc|] eqn:Hgc; cbn [bind]; [|done].
  destruct (match g !! n with Some gn => bool_decide (gc + 1 < gn) | None => true end).
  - cbn [bind]. intros Hrun. apply (Hnext _ _ _ Hrun).
    + rewrite lookup_insert_ne; [done|]. intros ->. done.
    + intros m gm. rewrite lookup_insert. case_decide as Hmn; [|by auto].
      intros [= <-]. right. by exists gc.
  - cbn [bind]. intros Hrun. apply (Hnext _ _ _ Hrun); auto.
Qed.

Definition depth_inv (st : astar_state) : Prop :=
  ∀ n gn, g_score st !! n = Some gn → gn ≤ Z.of_nat (size (a_explored st)).

Lemma depth_inv_initial : depth_inv (astar_initial_state start).
Proof.
  intros n gn. simpl. intros [_ <-]%lookup_singleton_Some. lia.
Qed.

Lemma depth_inv_step gas st st' :
  depth_inv st → astar_body gas e start goal st = Ok (inl st') → depth_inv st'.
Proof.
  intros Hd. unfold astar_body.
  destruct (heappop (a_frontier st)) as [[[f cur] rest]|]; [|done].
  case_bool_decide as Hex; [by intros [= <-]|].
  destruct (decide (cur = goal)) as [->|Hne].
  { destruct (reconstruct_path _ _ _ _); done. }
  unfold astar_expand.
  destruct (get_neighbors e cur.1 cur.2) as [ns| |]; cbn [bind]; [|done..].
  destruct (for_each ns _ _) as [[[fr' cf'] g']| |] eqn:Hfold; cbn [bind]; [|done..].
  intros [= <-]. intros n gn. simpl.
  apply relax_fold_values in Hfold as [_ Hv]; [|set_solver].
  rewrite (size_union (a_explored st)) by set_solver. rewrite size_singleton.
  intros [Hn|(gc & Hgc & ->)]%Hv.
  - specialize (Hd n gn Hn). lia.
  - specialize (Hd cur gc Hgc). lia.
Qed.

Lemma astar_goal_pop gas st rest :
  relax_inv e start goal (a_explored st ∪ {[goal]}) (a_explored st) rest
    (a_came_from st) (g_score st) →
  is_Some (g_score st !! goal) →
  (∀ x, reconstruct_path gas (a_came_from st) start goal ≠ Raise x) ∧
  (depth_inv st → (size (universe e start) ≤ gas)%nat →
   ∃ p, reconstruct_path gas (a_came_from st) start goal = Ok p).
Proof.
  intros Hri [gg Hgg].
  pose proof (relax_inv_tree e Hok start goal _ _ _ _ _ Hri) as Ht.
  assert (is_Some (a_came_from st !! goal)) as Hcf.
  { apply elem_of_dom. rewrite (ri_dom _ _ _ _ _ _ _ _ Hri). by apply elem_of_dom. }
  split.
  - intros x. unfold reconstruct_path.
    destruct (reconstruct_loop _ _ _ _ _) as [p|x'|] eqn:Hp; cbn [bind]; try done.
    by eapply reconstruct_loop_no_raise in Hp.
  - intros Hd Hgas.
    destruct (reconstruct_loop_total e start (a_came_from st) _ gas goal [] Ht Hcf)
      as [p Hp].
    + rewrite Hgg. simpl. specialize (Hd goal gg Hgg).
      assert (size (a_explored st) ≤ size (universe e start))%nat; [|lia].
      apply subseteq_size. etrans; [|apply (ri_universe _ _ _ _ _ _ _ _ Hri)].
      etrans; [|apply (ri_explored _ _ _ _ _ _ _ _ Hri)]. set_solver.
    + unfold reconstruct_path. rewrite Hp. by eexists.
Qed.

Lemma astar_no_raise gas x : astar gas e start goal ≠ Raise x.
Proof.
  unfold astar. destruct (decide (start = goal)); [done|].
  apply (while_loop_no_raise _ (astar_inv e start goal));
    [by apply astar_inv_step| |apply astar_inv_initial].
  intros st x' Hinv Hb.
  destruct (astar_body_progress e Hok start goal gas st Hinv)
    as [(st' & Heq & _)|[(_ & _ & _ & Heq)|(rest & Hri & Hgg & Heq)]];
    rewrite Heq in Hb; try done.
  destruct (reconstruct_path _ _ _ _) as [p|x''|] eqn:Hp; [done| |done].
  by apply (astar_goal_pop gas st rest Hri Hgg) in Hp.
Qed.

Lemma astar_step_explored gas st st' :
  astar_body gas e start goal st = Ok (inl st') →
  goal ∉ a_explored st → goal ∉ a_explored st'.
Proof.
  unfold astar_body.
  destruct (heappop (a_frontier st)) as [[[f cur] rest]|]; [|done].
  case_bool_decide; [by intros [= <-]|].
  destruct (decide (cur = goal)) as [->|Hne].
  { destruct (reconstruct_path _ _ _ _); done. }
  destruct (astar_expand _ _ _ _ _) as [[[? ?] ?]| |]; cbn [bind]; [|done..].
  intros [= <-]. simpl. set_solver.
Qed.

Lemma astar_exhausted gas r :
  astar gas e start goal = Ok r → found r = false → ¬ reachable e start goal.
Proof.
  unfold astar. destruct (decide (start = goal)); [by intros [= <-]|].
  intros Hrun Hfound.
  eapply (while_loop_inv _ (λ st, astar_inv e start goal st ∧ goal ∉ a_explored st)
            (λ r, found r = false → ¬ reachable e start goal));
    [| |split; [apply astar_inv_initial|simpl; set_solver]|done|done];
    clear Hrun Hfound.
  - intros st st' [Hinv Hgoal] Hb. split; [by eapply astar_inv_step|].
    by eapply astar_step_explored.
  - intros st r0 [Hinv Hgoal] Hb Hf Hreach.
    destruct (astar_body_progress e Hok start goal gas st Hinv)
      as [(st' & Heq & _)|[(Hfr & Hstart & Hri & Heq)|(rest & Hri & Hgg & Heq)]];
      rewrite Heq in Hb.
    + done.
    + destruct Hgoal. by apply (astar_explored_component e Hok start goal st).
    + destruct (reconstruct_path _ _ _ _) as [p| |]; [|done..].
      injection Hb as <-. done.
Qed.

Lemma astar_total gas :
  (size (universe e start) ≤ gas)%nat →
  (astar_measure e start (astar_initial_state start) < gas)%nat →
  ∃ r, astar gas e start goal = Ok r.
Proof.
  intros Hgas Hfuel. unfold astar.
  destruct (decide (start = goal)); [by eexists|].
  destruct (while_loop_total (astar_body gas e start goal)
              (λ st, astar_inv e start goal st ∧ depth_inv st)
              (λ _, True) (astar_measure e start))
    with (s := astar_initial_state start) as (r & _ & Hrun).
  - intros st [Hinv Hd].
    destruct (astar_body_progress e Hok start goal gas st Hinv)
      as [(st' & Heq & Hinv' & Hlt)|[(_ & _ & _ & Heq)|(rest & Hri & Hgg & Heq)]].
    + left. exists st'. split_and!; try done. by eapply depth_inv_step.
    + right. by eexists.
    + right. destruct (astar_goal_pop gas st rest Hri Hgg) as [_ Htotal].
      destruct (Htotal Hd Hgas) as [p Hp]. rewrite Heq, Hp. by eexists.
  - split; [apply astar_inv_initial|apply depth_inv_initial].
  - exists r. by apply Hrun.
Qed.
End astar_more.

(** ** What every search returns *)

Lemma is_route_walkable e a l b :
  grid_ok e → is_route e a l b → ∀ c, c ∈ l → is_walkable e c.1 c.2 = Ok true.
Proof.
  intros Hok. revert a. induction l as [|x l IH]; simpl; intros a Hl c Hc.
  { by apply elem_of_nil in Hc. }
  destruct Hl as [Hedge%edge_nbrs Hl]; [|done].
  apply elem_of_cons in Hc as [->|Hc]; [|by eapply IH].
  rewrite is_walkable_ok by done. destruct x. simpl.
  by rewrite (nbrs_walkable _ _ _ Hedge).
Qed.

Lemma search_sound e start goal gas r search :
  grid_ok e → search ∈ [bfs; dfs; astar] →
  search gas e start goal = Ok r → found r = true →
  is_route e start (path r) goal ∧ path_cost r = Z.of_nat (length (path r)).
Proof.
  intros Hok Hsearch Hrun Hfound.
  repeat (apply elem_of_cons in Hsearch as [->|Hsearch]).
  - by destruct (bfs_shortest_route e Hok start goal gas r Hrun Hfound) as (? & _ & ?).
  - unfold dfs in Hrun. destruct (decide (start = goal)) as [->|Hne].
    + by injection Hrun as <-.
    + by eapply (loop_sound e Hok start goal _ gas (dfs_body_cases e Hok start goal gas)).
  - by destruct (astar_shortest_route e Hok start goal gas r Hrun Hfound) as (? & _ & ?).
  - by apply elem_of_nil in Hsearch.
Qed.

Lemma search_exhausted e start goal gas r search :
  grid_ok e → search ∈ [bfs; dfs; astar] →
  search gas e start goal = Ok r → found r = false → ¬ reachable e start goal.
Proof.
  intros Hok Hsearch Hrun Hfound.
  repeat (apply elem_of_cons in Hsearch as [->|Hsearch]).
  - unfold bfs in Hrun. destruct (decide (start = goal)) as [->|Hne].
    + by injection Hrun as <-.
    + by eapply (loop_exhausted e Hok start goal _ gas (bfs_body_cases e Hok start goal gas)).
  - unfold dfs in Hrun. destruct (decide (start = goal)) as [->|Hne].
    + by injection Hrun as <-.
    + by eapply (loop_exhausted e Hok start goal _ gas (dfs_body_cases e Hok start goal gas)).
  - by eapply astar_exhausted.
  - by apply elem_of_nil in Hsearch.
Qed.

(** A search that reports [found] returns a route from [start] to [goal]
    along [get_neighbors] edges, with [path_cost] its number of hops; every
    cell of the path is walkable, and the path is empty exactly when
    [start] is [goal]. *)
Theorem found_path_is_route (e : Environment) (start goal : coord) (gas : nat)
    (r : SearchResult) :
  grid_ok e →
  ∀ search, search ∈ [bfs; dfs; astar] →
    search gas e start goal = Ok r → found r = true →
    is_route e start (path r) goal ∧
    path_cost r = Z.of_nat (length (path r)) ∧
    (∀ c, c ∈ path r → is_walkable e c.1 c.2 = Ok true) ∧
    (path r = [] ↔ start = goal).
Proof.
  intros Hok search Hsearch Hrun Hfound.
  destruct (search_sound e start goal gas r search Hok Hsearch Hrun Hfound)
    as [Hroute Hcost].
  split_and!; [done..|by eapply is_route_walkable|].
  split; [intros Hnil; by rewrite Hnil in Hroute|intros ->].
  repeat (apply elem_of_cons in Hsearch as [->|Hsearch]);
    [unfold bfs in Hrun|unfold dfs in Hrun|unfold astar in Hrun
    |by apply elem_of_nil in Hsearch];
    rewrite decide_True in Hrun by done; by injection Hrun as <-.
Qed.

(** The path a search plans from the robot's position can be walked: every
    [move_robot] along it returns [True], the robot ends on [goal], and
    nothing else in the environment changes. *)
Theorem found_path_can_be_followed (e : Environment) (goal : coord) (gas : nat)
    (r : SearchResult) :
  grid_ok e →
  ∀ search, search ∈ [bfs; dfs; astar] →
    search gas e (robot_pos e) goal = Ok r → found r = true →
    ∃ e', follow_path (path r) e = Ok (e', true) ∧
          robot_pos e' = goal ∧ grid e' = grid e ∧
          width e' = width e ∧ height e' = height e ∧
          total_dirt e' = total_dirt e ∧ cleaned_dirt e' = cleaned_dirt e.
Proof.
  intros Hok search Hsearch Hrun Hfound.
  destruct (search_sound e (robot_pos e) goal gas r search Hok Hsearch Hrun Hfound)
    as [Hroute _].
  by apply follow_route.
Qed.

(** Whatever the fuel, a search that returns reports [found] exactly when
    [goal] can be reached from [start]. *)
Theorem found_iff_reachable (e : Environment) (start goal : coord) (gas : nat)
    (r : SearchResult) :
  grid_ok e →
  ∀ search, search ∈ [bfs; dfs; astar] →
    search gas e start goal = Ok r →
    (found r = true ↔ reachable e start goal).
Proof.
  intros Hok search Hsearch Hrun. split.
  - intros Hfound. exists (path r). by eapply search_sound.
  - intros Hreach. destruct (found r) eqn:Hfound; [done|].
    by destruct (search_exhausted e start goal gas r search Hok Hsearch Hrun Hfound).
Qed.

(** No search raises an exception on a grid of the shape [__init__] builds,
    and each one returns once its loop is given fuel beyond a bound that
    depends on the grid and on [start] only. *)
Theorem search_terminates_without_error (e : Environment) (start goal : coord) :
  grid_ok e →
  ∀ search, search ∈ [bfs; dfs; astar] →
    (∀ gas x, search gas e start goal ≠ Raise x) ∧
    (∀ gas, (4 * size (universe e start) + 1 < gas)%nat →
            ∃ r, search gas e start goal = Ok r).
Proof.
  intros Hok search Hsearch.
  assert (measure e start (initial_state start)
          = (1 + 4 * size (universe e start))%nat) as Hm.
  { unfold measure, budget. simpl.
    by replace (universe e start ∖ ∅) with (universe e start) by set_solver. }
  assert (astar_measure e start (astar_initial_state start)
          = (1 + 4 * size (universe e start))%nat) as Hma.
  { unfold astar_measure, budget. simpl.
    by replace (universe e start ∖ ∅) with (universe e start) by set_solver. }
  repeat (apply elem_of_cons in Hsearch as [->|Hsearch]).
  - split.
    + intros gas x. unfold bfs. destruct (decide (start = goal)); [done|].
      apply (loop_no_raise e Hok start goal _ gas (bfs_body_cases e Hok start goal gas)).
    + intros gas Hgas. unfold bfs. destruct (decide (start = goal)); [by eexists|].
      apply (loop_total e Hok start goal _ gas (bfs_body_cases e Hok start goal gas));
        lia.
  - split.
    + intros gas x. unfold dfs. destruct (decide (start = goal)); [done|].
      apply (loop_no_raise e Hok start goal _ gas (dfs_body_cases e Hok start goal gas)).
    + intros gas Hgas. unfold dfs. destruct (decide (start = goal)); [by eexists|].
      apply (loop_total e Hok start goal _ gas (dfs_body_cases e Hok start goal gas));
        lia.
  - split.
    + intros gas x. by apply astar_no_raise.
    + intros gas Hgas. apply astar_total; [done|lia..].
  - by apply elem_of_nil in Hsearch.
Qed.
(** *** On concrete worlds *)

Definition detour_dfs : SearchResult :=
  Eval vm_compute in
    match dfs 20 detour_world (0, 0) (0, 2) with Ok r => r | _ => SearchResult_new end.
Definition walled_bfs : SearchResult :=
  Eval vm_compute in
    match bfs 20 walled_world (0, 0) (2, 0) with Ok r => r | _ => SearchResult_new end.

Lemma detour_dfs_run : dfs 20 detour_world (0, 0) (0, 2) = Ok detour_dfs.
Proof. vm_compute. reflexivity. Qed.
Lemma walled_bfs_run : bfs 20 walled_world (0, 0) (2, 0) = Ok walled_bfs.
Proof. vm_compute. reflexivity. Qed.

Lemma get_neighbors_spec_witness :
  ∃ ns,
    get_neighbors detour_world 1 1 = Ok ns ∧
    NoDup ns ∧
    sublist ns [(1 + 0, 1 + -1); (1 + 1, 1 + 0); (1 + 0, 1 + 1); (1 + -1, 1 + 0)] ∧
    (∀ n, n ∈ ns ↔ is_walkable detour_world n.1 n.2 = Ok true ∧ heuristic (1, 1) n = 1) ∧
    (is_walkable detour_world 1 1 = Ok true → ∀ n, n ∈ ns → edge detour_world n (1, 1)).
Proof.
  apply (get_neighbors_spec detour_world 1 1).
  exact detour_world_ok.
Defined.

Lemma heuristic_admissible_witness :
  heuristic (0, 0) (0, 2) = heuristic (0, 2) (0, 0) ∧
  (heuristic (0, 0) (0, 2) = 0 ↔ (0, 0) = (0, 2)) ∧
  (∀ n goal, edge detour_world (0, 0) n →
             heuristic (0, 0) goal ≤ 1 + heuristic n goal) ∧
  (∀ l, is_route detour_world (0, 0) l (0, 2) →
        heuristic (0, 0) (0, 2) ≤ Z.of_nat (length l)).
Proof.
  apply (heuristic_admissible detour_world (0, 0) (0, 2)).
  exact detour_world_ok.
Defined.

Lemma found_path_is_route_witness :
  is_route detour_world (0, 0) (path detour_dfs) (0, 2) ∧
  path_cost detour_dfs = Z.of_nat (length (path detour_dfs)) ∧
  (∀ c, c ∈ path detour_dfs → is_walkable detour_world c.1 c.2 = Ok true) ∧
  (path detour_dfs = [] ↔ (0, 0) = (0, 2)).
Proof.
  apply (found_path_is_route detour_world (0, 0) (0, 2) 20 detour_dfs) with dfs.
  - exact detour_world_ok.
  - apply list_elem_of_further, list_elem_of_here.
  - exact detour_dfs_run.
  - reflexivity.
Defined.

Lemma found_path_can_be_followed_witness :
  ∃ e', follow_path (path detour_astar) detour_world = Ok (e', true) ∧
        robot_pos e' = (0, 2) ∧ grid e' = grid detour_world ∧
        width e' = width detour_world ∧ height e' = height detour_world ∧
        total_dirt e' = total_dirt detour_world ∧
        cleaned_dirt e' = cleaned_dirt detour_world.
Proof.
  apply (found_path_can_be_followed detour_world (0, 2) 20 detour_astar) with astar.
  - exact detour_world_ok.
  - apply list_elem_of_further, list_elem_of_further, list_elem_of_here.
  - exact detour_astar_run.
  - reflexivity.
Defined.

Lemma found_iff_reachable_witness :
  found walled_bfs = true ↔ reachable walled_world (0, 0) (2, 0).
Proof.
  apply (found_iff_reachable walled_world (0, 0) (2, 0) 20 walled_bfs) with bfs.
  - exact walled_world_ok.
  - apply list_elem_of_here.
  - exact walled_bfs_run.
Defined.

Lemma search_terminates_without_error_witness :
  (∀ gas x, dfs gas walled_world (0, 0) (2, 0) ≠ Raise x) ∧
  (∀ gas, (4 * size (universe walled_world (0%Z, 0%Z)) + 1 < gas)%nat →
          ∃ r, dfs gas walled_world (0, 0) (2, 0) = Ok r).
Proof.
  apply (search_terminates_without_error walled_world (0, 0) (2, 0)).
  - exact walled_world_ok.
  - apply list_elem_of_further, list_elem_of_here.
Defined.

(** ** The environment: construction, edge cases, dirt accounting *)

Lemma for_each_id {A S} (body : A → S → res S) (xs : list A) (s : S) :
  (∀ x, x ∈ xs → body x s = Ok s) → for_each xs body s = Ok s.
Proof.
  induction xs as [|x xs IH]; intros H; cbn [for_each]; [done|].
  rewrite H by left. cbn [bind]. apply IH. intros y Hy. apply H. by right.
Qed.

(** A loop over [range(n)] whose invariant depends on the index reached. *)
Lemma for_each_seqZ_inv {St} (I : Z → St → Prop) (body : Z → St → res St)
    (len : nat) (m : Z) (s : St) :
  (∀ i s, m ≤ i < m + Z.of_nat len → I i s → ∃ s', body i s = Ok s' ∧ I (i + 1) s') →
  I m s →
  ∃ s', for_each (seqZ m (Z.of_nat len)) body s = Ok s' ∧ I (m + Z.of_nat len) s'.
Proof.
  revert m s. induction len as [|len IH]; intros m s Hbody Hs.
  - exists s. simpl. by rewrite Z.add_0_r.
  - rewrite seqZ_cons by lia. cbn [for_each].
    destruct (Hbody m s) as (s1 & -> & Hs1); [lia|done|]. cbn [bind].
    replace (Z.pred (Z.of_nat (S len))) with (Z.of_nat len) by lia.
    destruct (IH (Z.succ m) s1) as (s2 & Hrun & Hs2).
    + intros i s' Hi. apply Hbody. lia.
    + by replace (Z.succ m) with (m + 1) by lia.
    + exists s2. split; [done|].
      by replace (m + Z.of_nat (S len)) with (Z.succ m + Z.of_nat len) by lia.
Qed.

Lemma for_each_range_inv {St} (I : Z → St → Prop) (body : Z → St → res St)
    (n : Z) (s : St) :
  (∀ i s, 0 ≤ i < n → I i s → ∃ s', body i s = Ok s' ∧ I (i + 1) s') →
  I 0 s →
  ∃ s', for_each (range n) body s = Ok s' ∧ I (Z.max 0 n) s'.
Proof.
  intros Hbody Hs. unfold range.
  destruct (decide (n ≤ 0)) as [Hn|Hn].
  - rewrite seqZ_nil by done. exists s. simpl. by replace (Z.max 0 n) with 0 by lia.
  - destruct (for_each_seqZ_inv I body (Z.to_nat n) 0 s) as (s' & Hrun & Hs').
    + intros i s' Hi. apply Hbody. lia.
    + done.
    + exists s'. rewrite Z2Nat.id in Hrun, Hs' by lia.
      split; [done|]. by replace (Z.max 0 n) with (0 + n) by lia.
Qed.

(** The dirty tiles, in the order [get_dirty_tiles] lists them. *)
Definition dirty_cells (e : Environment) : list coord :=
  filter (λ c, tile (grid e) c = DIRTY) (row_major e).

Lemma row_major_NoDup e : NoDup (row_major e).
Proof.
  pose proof (row_major_sorted e) as Hs.
  induction Hs as [|c l _ IH Hc]; constructor; [|done].
  intros Hin. rewrite Forall_forall in Hc. specialize (Hc c Hin).
  unfold scanned_before in Hc. lia.
Qed.

Lemma filter_length_update {A} (P Q : A → Prop) `{∀ x, Decision (P x)}
    `{∀ x, Decision (Q x)} (l : list A) (a : A) :
  NoDup l → a ∈ l → (∀ c, c ∈ l → c ≠ a → (P c ↔ Q c)) →
  (length (filter Q l) + (if decide (P a) then 1 else 0) =
   length (filter P l) + (if decide (Q a) then 1 else 0))%nat.
Proof.
  intros Hnd Ha Hext.
  assert (∀ l', a ∉ l' → (∀ c, c ∈ l' → c ≠ a → (P c ↔ Q c)) →
                length (filter Q l') = length (filter P l')) as Hsame.
  { clear. intros l'. induction l' as [|c l' IH]; intros Ha Hext; [done|].
    apply not_elem_of_cons in Ha as [Hca Ha].
    rewrite !filter_cons.
    assert (P c ↔ Q c) as Hc by (apply Hext; [by left|done]).
    assert (length (filter Q l') = length (filter P l')) as Hl.
    { apply IH; [done|]. intros c' Hc'. apply Hext. by right. }
    repeat case_decide; cbn [length]; try tauto; lia. }
  induction Hnd as [|c l Hc Hnd IH].
  { by apply elem_of_nil in Ha. }
  rewrite !filter_cons.
  apply elem_of_cons in Ha as [->|Ha].
  - assert (length (filter Q l) = length (filter P l)) as Hl.
    { apply Hsame; [done|]. intros c' Hc'. apply Hext. by right. }
    repeat case_decide; cbn [length]; lia.
  - assert (c ≠ a) as Hne by (by intros ->).
    assert (P c ↔ Q c) as Hpq by (apply Hext; [by left|done]).
    specialize (IH Ha).
    assert (∀ c0, c0 ∈ l → c0 ≠ a → P c0 ↔ Q c0) as Hext'.
    { intros c' Hc'. apply Hext. by right. }
    specialize (IH Hext').
    destruct (decide (P c)), (decide (Q c)); cbn [length]; try tauto; lia.
Qed.

Lemma dirty_cells_set e x y t g' :
  is_valid_position e x y = true →
  tile g' (x, y) = t →
  (∀ c, 0 ≤ c.1 → 0 ≤ c.2 → c ≠ (x, y) → tile g' c = tile (grid e) c) →
  (length (dirty_cells (set_grid e g')) + dirtiness (tile (grid e) (x, y)) =
   length (dirty_cells e) + dirtiness t)%nat.
Proof.
  intros Hv Ht Hother. unfold dirty_cells, dirtiness.
  change (row_major (set_grid e g')) with (row_major e). simpl.
  rewrite <-Ht.
  pose proof (filter_length_update (λ c, tile (grid e) c = DIRTY)
                (λ c, tile g' c = DIRTY) (row_major e) (x, y)) as Hupd.
  apply Hupd.
  - apply row_major_NoDup.
  - by apply elem_of_row_major.
  - intros c [Hx Hy]%elem_of_row_major%is_valid_position_spec Hne.
    rewrite Hother by (done || lia). done.
Qed.

Lemma get_dirty_tiles_cells e : grid_ok e → get_dirty_tiles e = Ok (dirty_cells e).
Proof. apply get_dirty_tiles_ok. Qed.

Lemma elem_of_dirty_cells e c :
  c ∈ dirty_cells e ↔ is_valid_position e c.1 c.2 = true ∧ tile (grid e) c = DIRTY.
Proof. unfold dirty_cells. rewrite list_elem_of_filter, elem_of_row_major. tauto. Qed.
(** What holds of the environment while [_initialize_grid] scans it: the
    counter [total_dirt] is the number of dirty tiles, and the tiles not
    yet visited are still clean. *)
Definition scan_inv (w h : Z) (s : Environment * nat) : Prop :=
  grid_ok s.1 ∧ width s.1 = w ∧ height s.1 = h ∧ robot_pos s.1 = (0, 0) ∧
  cleaned_dirt s.1 = 0 ∧
  Z.of_nat (length (dirty_cells s.1)) = total_dirt s.1 ∧
  (is_valid_position s.1 0 0 = true → tile (grid s.1) (0, 0) = CLEAN).

Definition pending (y x : Z) (s : Environment * nat) : Prop :=
  ∀ c, is_valid_position s.1 c.1 c.2 = true →
       y < c.2 ∨ (c.2 = y ∧ x ≤ c.1) → tile (grid s.1) c = CLEAN.

Lemma _initialize_cell_scan w h dirt_prob obstacle_prob r y x s :
  0 ≤ x < w → 0 ≤ y < h → scan_inv w h s → pending y x s →
  ∃ s', _initialize_cell dirt_prob obstacle_prob r y x s = Ok s' ∧
        scan_inv w h s' ∧ pending y (x + 1) s'.
Proof.
  intros Hx Hy. destruct s as [e k].
  intros (Hok & Hw & Hh & Hpos & Hcl & Hcount & Horigin) Hpend.
  unfold pending in *. simpl in *.
  assert (is_valid_position e x y = true) as Hv.
  { apply is_valid_position_spec. lia. }
  assert (tile (grid e) (x, y) = CLEAN) as Hold.
  { apply Hpend; [done|]. simpl. lia. }
  assert (∀ t g',
    (x, y) ≠ (0, 0) →
    grid_ok (set_grid e g') → tile g' (x, y) = t →
    (∀ c, 0 ≤ c.1 → 0 ≤ c.2 → c ≠ (x, y) → tile g' c = tile (grid e) c) →
    ∀ k' n, n = total_dirt e + Z.of_nat (dirtiness t) →
    scan_inv w h (set_total_dirt (set_grid e g') n, k') ∧
    ∀ c, is_valid_position e c.1 c.2 = true →
         y < c.2 ∨ (c.2 = y ∧ x + 1 ≤ c.1) → tile g' c = CLEAN) as Hset.
  { intros t g' Hne Hok' Ht Hother k' n ->.
    pose proof (dirty_cells_set e x y t g' Hv Ht Hother) as Hlen.
    rewrite Hold in Hlen. unfold dirtiness at 1 in Hlen. simpl in Hlen.
    split.
    - unfold scan_inv. simpl. split_and!; try done.
      + change (dirty_cells (set_total_dirt (set_grid e g') _))
          with (dirty_cells (set_grid e g')). lia.
      + intros Hv0. rewrite Hother; [exact (Horigin Hv0)|simpl; lia|simpl; lia|congruence].
    - intros c Hc Hafter.
      apply is_valid_position_spec in Hc as Hc'.
      rewrite Hother; [by apply Hpend; [|lia]|lia|lia|].
      intros ->. simpl in Hafter. lia. }
  unfold _initialize_cell. rewrite Hpos.
  destruct (decide ((x, y) = (0, 0))) as [|Hne].
  { eexists. split; [done|]. split; [done|].
    intros c Hc Hafter. apply Hpend; [done|]. simpl. lia. }
  destruct (decide (r k < obstacle_prob)%Qc).
  - destruct (grid_set_ok e x y OBSTACLE Hok Hv) as (g' & -> & Hok' & Ht & Hother & _).
    cbn [bind]. eexists. split; [done|].
    destruct (Hset OBSTACLE g' Hne Hok' Ht Hother (S k) (total_dirt e)) as [Hs Hp].
    { unfold dirtiness. simpl. lia. }
    split; [|exact Hp].
    destruct Hs as (? & ? & ? & ? & ? & ? & ?). by split_and!.
  - destruct (decide (r (S k) < dirt_prob)%Qc).
    + destruct (grid_set_ok e x y DIRTY Hok Hv) as (g' & -> & Hok' & Ht & Hother & _).
      cbn [bind]. eexists. split; [done|].
      destruct (Hset DIRTY g' Hne Hok' Ht Hother (S (S k)) (total_dirt e + 1))
        as [Hs Hp]; [done|].
      split; [exact Hs|exact Hp].
    + eexists. split; [done|]. split; [done|].
      intros c Hc Hafter. apply Hpend; [done|]. simpl. lia.
Qed.

Lemma _initialize_grid_scan w h dirt_prob obstacle_prob r s :
  scan_inv w h s → pending 0 0 s →
  ∃ s', _initialize_grid dirt_prob obstacle_prob r s = Ok s' ∧ scan_inv w h s'.
Proof.
  intros Hs Hp. unfold _initialize_grid.
  destruct Hs as (Hok & Hw & Hh & Hrest). rewrite Hh.
  destruct (for_each_range_inv (λ y s, scan_inv w h s ∧ pending y 0 s)
              (λ y s, for_each (range (width s.1))
                        (_initialize_cell dirt_prob obstacle_prob r y) s) h s)
    as (s' & Hrun & Hs' & _).
  - intros y s0 Hy [Hs0 Hp0].
    destruct Hs0 as (Hok0 & Hw0 & Hrest0). rewrite Hw0.
    destruct (for_each_range_inv (λ x s, scan_inv w h s ∧ pending y x s)
                (_initialize_cell dirt_prob obstacle_prob r y) w s0)
      as (s1 & Hrun & Hs1 & Hp1).
    + intros x s1 Hx [Hs1 Hp1]. by apply _initialize_cell_scan.
    + done.
    + exists s1. split; [done|]. split; [done|].
      intros c Hc Hafter. apply Hp1; [done|]. lia.
  - done.
  - by exists s'.
Qed.

Lemma Environment_init_scan w h dirt_probability obstacle_probability r :
  ∃ e k, Environment_init w h dirt_probability obstacle_probability r = Ok (e, k) ∧
         scan_inv w h (e, k).
Proof.
  unfold Environment_init. set (e0 := mkEnv w h _ _ _ _).
  assert (grid_ok e0) as Hok0.
  { split; simpl; [by rewrite length_replicate|].
    apply Forall_replicate. by rewrite length_replicate. }
  assert (∀ c, is_valid_position e0 c.1 c.2 = true → tile (grid e0) c = CLEAN) as Hclean.
  { intros c [Hx Hy]%is_valid_position_spec. simpl in *.
    unfold tile. simpl. rewrite lookup_replicate_2 by lia. simpl.
    by rewrite lookup_replicate_2 by lia. }
  destruct (_initialize_grid_scan w h dirt_probability obstacle_probability r
              (e0, 0%nat)) as ([e k] & Hrun & Hs).
  - unfold scan_inv. simpl. split_and!; try done.
    + destruct (dirty_cells e0) as [|c l] eqn:Hd; [done|].
      assert (c ∈ dirty_cells e0) as [Hc1 Hc2]%elem_of_dirty_cells
        by (rewrite Hd; left).
      by rewrite Hclean in Hc2.
    + apply (Hclean (0, 0)).
  - intros c Hc _. by apply Hclean.
  - by exists e, k.
Qed.

Lemma is_all_clean_dirty_cells e :
  cleaned_dirt e + Z.of_nat (length (dirty_cells e)) = total_dirt e →
  is_all_clean e = true ↔ dirty_cells e = [].
Proof.
  intros Hacc. unfold is_all_clean. rewrite bool_decide_eq_true.
  destruct (dirty_cells e); simpl in *; [split; [done|lia]|split; [lia|done]].
Qed.

(** [Environment(width, height, ...)] returns for every pair of dimensions,
    positive or not.  The grid has [height] rows of [width] tiles, the robot
    is at [(0, 0)], nothing is cleaned yet, and [total_dirt] is exactly the
    number of tiles [get_dirty_tiles] lists; the robot's tile, when it is
    in the grid, is clean. *)
Theorem Environment_init_spec (w h : Z) (dirt_probability obstacle_probability : Qc)
    (r : rng) :
  ∃ e k dirty,
    Environment_init w h dirt_probability obstacle_probability r = Ok (e, k) ∧
    width e = w ∧ height e = h ∧ grid_ok e ∧
    robot_pos e = (0, 0) ∧ cleaned_dirt e = 0 ∧
    get_dirty_tiles e = Ok dirty ∧
    total_dirt e = Z.of_nat (length dirty) ∧
    (is_all_clean e = true ↔ dirty = []) ∧
    get_tile_state e 0 0 = Ok (if decide (0 < w ∧ 0 < h) then CLEAN else OBSTACLE).
Proof.
  destruct (Environment_init_scan w h dirt_probability obstacle_probability r)
    as (e & k & Hrun & Hok & Hw & Hh & Hpos & Hcl & Hcount & Horigin).
  simpl in *.
  exists e, k, (dirty_cells e). split_and!; try done.
  - by apply get_dirty_tiles_cells.
  - apply is_all_clean_dirty_cells. lia.
  - rewrite get_tile_state_ok by done.
    destruct (is_valid_position e 0 0) eqn:Hv.
    + rewrite Horigin by done. apply is_valid_position_spec in Hv.
      rewrite decide_True; [done|lia].
    + rewrite decide_False; [done|]. intros [? ?].
      assert (is_valid_position e 0 0 = true); [|congruence].
      apply is_valid_position_spec. lia.
Qed.

(** [reset] works from any state of the environment, also one whose grid
    has been damaged: it keeps the dimensions and rebuilds everything else
    as [__init__] does with the default probabilities, so the outcome
    depends on the dimensions and the random draws only. *)
Theorem reset_spec (e0 : Environment) (r : rng) :
  ∃ e k dirty,
    reset e0 r = Ok (e, k) ∧
    width e = width e0 ∧ height e = height e0 ∧ grid_ok e ∧
    robot_pos e = (0, 0) ∧ cleaned_dirt e = 0 ∧
    get_dirty_tiles e = Ok dirty ∧
    total_dirt e = Z.of_nat (length dirty) ∧
    ∀ e1, width e1 = width e0 → height e1 = height e0 → reset e1 r = Ok (e, k).
Proof.
  unfold reset.
  destruct (Environment_init_scan (width e0) (height e0) default_dirt_probability
              default_obstacle_probability r)
    as (e & k & Hrun & Hok & Hw & Hh & Hpos & Hcl & Hcount & Horigin).
  simpl in *.
  exists e, k, (dirty_cells e). split_and!; try done.
  - by apply get_dirty_tiles_cells.
  - intros e1 -> ->. done.
Qed.

(** *** What [move_robot] and [clean_current_tile] leave alone *)

(** [e'] differs from [e] by moves of the robot and cleaned tiles only. *)
Definition frame (e e' : Environment) : Prop :=
  width e' = width e ∧ height e' = height e ∧ total_dirt e' = total_dirt e ∧
  (∀ c, walkable e' c = walkable e c) ∧
  (∀ c, c ∈ dirty_cells e' → c ∈ dirty_cells e) ∧
  cleaned_dirt e' + Z.of_nat (length (dirty_cells e')) =
  cleaned_dirt e + Z.of_nat (length (dirty_cells e)).

Lemma frame_refl e : frame e e.
Proof. by unfold frame. Qed.

Lemma frame_trans e1 e2 e3 : frame e1 e2 → frame e2 e3 → frame e1 e3.
Proof.
  intros (Hw & Hh & Ht & Hwalk & Hd & Hc) (Hw' & Hh' & Ht' & Hwalk' & Hd' & Hc').
  unfold frame. split_and!; try congruence; auto.
Qed.

Lemma run_command_frame c e :
  env_ok e → ∃ e', run_command c e = Ok e' ∧ env_ok e' ∧ frame e e'.
Proof.
  intros [Hok Hv]. destruct c as [x y|]; simpl.
  - unfold move_robot. rewrite is_walkable_ok by done. cbn [bind].
    destruct (walkable e (x, y)) eqn:Hw; cbn [bind]; eexists; (split; [done|]).
    + apply andb_true_iff in Hw as [Hv' _]. split; [by split|by unfold frame].
    + split; [by split|apply frame_refl].
  - unfold clean_current_tile.
    destruct (robot_pos e) as [x y] eqn:Hpos. simpl in Hv.
    rewrite grid_get_ok by done. cbn [bind].
    destruct (decide (tile (grid e) (x, y) = DIRTY)) as [Hd|Hd].
    + destruct (grid_set_ok e x y CLEAN Hok Hv) as (g' & -> & Hok' & Ht & Hother & _).
      cbn [bind]. eexists. split; [done|]. split.
      { split; [done|]. simpl. by rewrite Hpos. }
      pose proof (dirty_cells_set e x y CLEAN g' Hv Ht Hother) as Hlen.
      rewrite Hd in Hlen. unfold dirtiness in Hlen. simpl in Hlen.
      unfold frame. simpl. split_and!; try done.
      * intros c. unfold walkable. simpl.
        change (is_valid_position (set_cleaned_dirt (set_grid e g') _) c.1 c.2)
          with (is_valid_position e c.1 c.2).
        destruct (is_valid_position e c.1 c.2) eqn:Hc; [|done]. simpl.
        apply is_valid_position_spec in Hc.
        destruct (decide (c = (x, y))) as [->|Hne].
        -- by rewrite Ht, Hd.
        -- by rewrite Hother by (done || lia).
      * intros c [Hc Hdc]%elem_of_dirty_cells. simpl in *.
        apply elem_of_dirty_cells. split; [done|].
        apply is_valid_position_spec in Hc.
        destruct (decide (c = (x, y))) as [->|Hne]; [congruence|].
        by rewrite <-Hother by (done || lia).
      * change (dirty_cells (set_cleaned_dirt (set_grid e g') _))
          with (dirty_cells (set_grid e g')). lia.
    + cbn [bind]. eexists. split; [done|]. split; [|apply frame_refl].
      split; [done|]. by rewrite Hpos.
Qed.

Lemma run_commands_frame cs e :
  env_ok e → ∃ e', run_commands cs e = Ok e' ∧ env_ok e' ∧ frame e e'.
Proof.
  revert e. induction cs as [|c cs IH]; intros e He.
  - exists e. split; [done|]. split; [done|apply frame_refl].
  - destruct (run_command_frame c e He) as (e1 & Hrun1 & He1 & Hf1).
    destruct (IH e1 He1) as (e2 & Hrun2 & He2 & Hf2).
    exists e2. unfold run_commands in *. cbn [for_each]. rewrite Hrun1. cbn [bind].
    split; [done|]. split; [done|]. by eapply frame_trans.
Qed.

Lemma nbrs_frame e e' c : (∀ c, walkable e' c = walkable e c) → nbrs e' c = nbrs e c.
Proof.
  intros Hwalk. unfold nbrs. apply list_filter_iff. intros n. by rewrite Hwalk.
Qed.

Lemma is_route_frame e e' a l b :
  grid_ok e → grid_ok e' → (∀ c, walkable e' c = walkable e c) →
  is_route e' a l b ↔ is_route e a l b.
Proof.
  intros Hok Hok' Hwalk. revert a. induction l as [|c l IH]; intros a; simpl; [done|].
  rewrite IH, !edge_nbrs by done. by rewrite (nbrs_frame e e').
Qed.

(** Starting with the robot inside a well-shaped grid, no sequence of
    [move_robot] and [clean_current_tile] calls raises, and it changes
    neither the dimensions, nor [total_dirt], nor which cells are walkable,
    nor which cells can be reached from which.  No tile becomes dirty, and
    [cleaned_dirt] grows by exactly the number of tiles that left
    [get_dirty_tiles]. *)
Theorem commands_frame (e : Environment) (cs : list command) :
  env_ok e →
  ∃ e' dirty dirty',
    run_commands cs e = Ok e' ∧ env_ok e' ∧
    width e' = width e ∧ height e' = height e ∧ total_dirt e' = total_dirt e ∧
    (∀ x y, is_walkable e' x y = is_walkable e x y) ∧
    (∀ x y, get_neighbors e' x y = get_neighbors e x y) ∧
    (∀ a b, reachable e' a b ↔ reachable e a b) ∧
    get_dirty_tiles e = Ok dirty ∧ get_dirty_tiles e' = Ok dirty' ∧
    dirty' ⊆ dirty ∧
    cleaned_dirt e' - cleaned_dirt e =
      Z.of_nat (length dirty) - Z.of_nat (length dirty').
Proof.
  intros He.
  destruct (run_commands_frame cs e He)
    as (e' & Hrun & He' & Hw & Hh & Ht & Hwalk & Hd & Hc).
  pose proof He as [Hok _]. pose proof He' as [Hok' _].
  exists e', (dirty_cells e), (dirty_cells e'). split_and!; try done.
  - intros x y. by rewrite !is_walkable_ok, Hwalk by done.
  - intros x y. by rewrite !get_neighbors_ok, (nbrs_frame e e') by done.
  - intros a b. unfold reachable. by setoid_rewrite (is_route_frame e e').
  - by apply get_dirty_tiles_cells.
  - by apply get_dirty_tiles_cells.
  - lia.
Qed.

(** On a grid of positive dimensions, after construction and any sequence
    of moves and cleanings, [cleaned_dirt] plus the number of dirty tiles is
    [total_dirt]: [is_all_clean] answers [True] exactly when
    [get_dirty_tiles] is empty, that is when no tile reads [DIRTY]. *)
Theorem dirt_accounting (w h : Z) (dirt_probability obstacle_probability : Qc)
    (r : rng) (cs : list command) :
  0 < w → 0 < h →
  ∃ e k e' dirty,
    Environment_init w h dirt_probability obstacle_probability r = Ok (e, k) ∧
    run_commands cs e = Ok e' ∧
    get_dirty_tiles e' = Ok dirty ∧
    cleaned_dirt e' + Z.of_nat (length dirty) = total_dirt e' ∧
    (is_all_clean e' = true ↔ dirty = []) ∧
    (is_all_clean e' = true ↔ ∀ x y, get_tile_state e' x y ≠ Ok DIRTY).
Proof.
  intros Hw Hh.
  destruct (Environment_init_scan w h dirt_probability obstacle_probability r)
    as (e & k & Hinit & Hok & Hwe & Hhe & Hpos & Hcl & Hcount & Horigin).
  simpl in *.
  assert (env_ok e) as He.
  { split; [done|]. rewrite Hpos. apply is_valid_position_spec. simpl. lia. }
  destruct (run_commands_frame cs e He)
    as (e' & Hrun & [Hok' Hv'] & _ & _ & Ht & _ & _ & Hc).
  assert (cleaned_dirt e' + Z.of_nat (length (dirty_cells e')) = total_dirt e')
    as Hacc by lia.
  exists e, k, e', (dirty_cells e'). split_and!; try done.
  - by apply get_dirty_tiles_cells.
  - by apply is_all_clean_dirty_cells.
  - rewrite is_all_clean_dirty_cells by done. split.
    + intros Hnil x y. rewrite get_tile_state_ok by done.
      destruct (is_valid_position e' x y) eqn:Hxy; [|done].
      intros [= Hd].
      assert ((x, y) ∈ dirty_cells e') as Hin by (by apply elem_of_dirty_cells).
      rewrite Hnil in Hin. by apply elem_of_nil in Hin.
    + intros Hnone. destruct (dirty_cells e') as [|c l] eqn:Hd; [done|].
      assert (c ∈ dirty_cells e') as [Hc1 Hc2]%elem_of_dirty_cells
        by (rewrite Hd; left).
      destruct (Hnone c.1 c.2). rewrite get_tile_state_ok, Hc1 by done.
      destruct c. by rewrite <-Hc2.
Qed.

(** *** Grids without cells *)

(** With a width or a height that is not positive, [__init__] still
    returns, leaving the robot at [(0, 0)] outside the grid.  There
    [clean_current_tile] raises [IndexError]; every other reading of the
    environment answers as for an obstacle-only world that is already
    clean. *)
Theorem degenerate_world (w h : Z) (dirt_probability obstacle_probability : Qc)
    (r : rng) :
  w ≤ 0 ∨ h ≤ 0 →
  let e := mkEnv w h (replicate (Z.to_nat h) (replicate (Z.to_nat w) CLEAN))
             (0, 0) 0 0 in
  Environment_init w h dirt_probability obstacle_probability r = Ok (e, 0%nat) ∧
  is_valid_position e 0 0 = false ∧
  clean_current_tile e = Raise IndexError ∧
  (∀ x y, move_robot e x y = Ok (e, false)) ∧
  (∀ x y, get_tile_state e x y = Ok OBSTACLE) ∧
  get_dirty_tiles e = Ok [] ∧
  is_all_clean e = true ∧
  perceive e = Ok (mkPerception (0, 0) OBSTACLE [] true).
Proof.
  intros Hwh e.
  assert (∀ x y, is_valid_position e x y = false) as Hinv.
  { intros x y. apply not_true_is_false.
    intros Hv%is_valid_position_spec. simpl in Hv. lia. }
  assert (∀ x y, is_walkable e x y = Ok false) as Hwalk.
  { intros x y. unfold is_walkable. by rewrite Hinv. }
  split_and!.
  - unfold Environment_init, _initialize_grid. fold e. simpl.
    apply for_each_id. intros y Hy%elem_of_seqZ. simpl.
    unfold range. rewrite seqZ_nil; [done|lia].
  - apply Hinv.
  - unfold clean_current_tile, grid_get, py_getitem. simpl.
    destruct (decide (h ≤ 0)) as [Hh|Hh].
    + replace (Z.to_nat h) with 0%nat by lia. done.
    + destruct (Z.to_nat h) as [|n] eqn:Hn; [lia|]. simpl.
      unfold py_norm. simpl. replace (Z.to_nat w) with 0%nat by lia. done.
  - intros x y. unfold move_robot. by rewrite Hwalk.
  - intros x y. unfold get_tile_state. by rewrite Hinv.
  - unfold get_dirty_tiles. simpl. apply for_each_id.
    intros y Hy%elem_of_seqZ. unfold range. rewrite (seqZ_nil 0 w); [done|lia].
  - done.
  - unfold perceive, get_tile_state, get_neighbors, directions. simpl robot_pos.
    cbn [for_each bind fst snd]. rewrite Hinv. cbn [negb bind].
    rewrite !Hwalk. by cbn [bind].
Qed.

Lemma commands_frame_witness :
  ∃ e' dirty dirty',
    run_commands [CleanCurrentTile; MoveRobot 0 2; CleanCurrentTile; MoveRobot 0 1]
      detour_world_at_dirt = Ok e' ∧
    env_ok e' ∧
    width e' = width detour_world_at_dirt ∧
    height e' = height detour_world_at_dirt ∧
    total_dirt e' = total_dirt detour_world_at_dirt ∧
    (∀ x y, is_walkable e' x y = is_walkable detour_world_at_dirt x y) ∧
    (∀ x y, get_neighbors e' x y = get_neighbors detour_world_at_dirt x y) ∧
    (∀ a b, reachable e' a b ↔ reachable detour_world_at_dirt a b) ∧
    get_dirty_tiles detour_world_at_dirt = Ok dirty ∧
    get_dirty_tiles e' = Ok dirty' ∧
    dirty' ⊆ dirty ∧
    cleaned_dirt e' - cleaned_dirt detour_world_at_dirt =
      Z.of_nat (length dirty) - Z.of_nat (length dirty').
Proof.
  apply (commands_frame detour_world_at_dirt).
  exact detour_world_at_dirt_ok.
Defined.

Lemma dirt_accounting_witness :
  ∃ e k e' dirty,
    Environment_init 3 2 default_dirt_probability default_obstacle_probability
      (λ n, Q2Qc (QArith_base.Qmake 1 (Pos.of_nat (4 + n `mod` 3)))) = Ok (e, k) ∧
    run_commands [MoveRobot 1 0; CleanCurrentTile; MoveRobot 2 0; CleanCurrentTile] e
      = Ok e' ∧
    get_dirty_tiles e' = Ok dirty ∧
    cleaned_dirt e' + Z.of_nat (length dirty) = total_dirt e' ∧
    (is_all_clean e' = true ↔ dirty = []) ∧
    (is_all_clean e' = true ↔ ∀ x y, get_tile_state e' x y ≠ Ok DIRTY).
Proof.
  apply (dirt_accounting 3 2); lia.
Defined.

Lemma degenerate_world_witness :
  let e := mkEnv 0 3 (replicate (Z.to_nat 3) (replicate (Z.to_nat 0) CLEAN))
             (0, 0) 0 0 in
  Environment_init 0 3 default_dirt_probability default_obstacle_probability
    (λ _, Q2Qc (QArith_base.Qmake 1 5)) = Ok (e, 0%nat) ∧
  is_valid_position e 0 0 = false ∧
  clean_current_tile e = Raise IndexError ∧
  (∀ x y, move_robot e x y = Ok (e, false)) ∧
  (∀ x y, get_tile_state e x y = Ok OBSTACLE) ∧
  get_dirty_tiles e = Ok [] ∧
  is_all_clean e = true ∧
  perceive e = Ok (mkPerception (0, 0) OBSTACLE [] true).
Proof.
  apply (degenerate_world 0 3). lia.
Defined.

(** ** The agents *)

Lemma search_no_raise e start goal gas x search :
  grid_ok e → search ∈ [bfs; dfs; astar] → search gas e start goal ≠ Raise x.
Proof.
  intros Hok Hsearch.
  repeat (apply elem_of_cons in Hsearch as [->|Hsearch]).
  - unfold bfs. destruct (decide (start = goal)); [done|].
    apply (loop_no_raise e Hok start goal _ gas (bfs_body_cases e Hok start goal gas)).
  - unfold dfs. destruct (decide (start = goal)); [done|].
    apply (loop_no_raise e Hok start goal _ gas (dfs_body_cases e Hok start goal gas)).
  - by apply astar_no_raise.
  - by apply elem_of_nil in Hsearch.
Qed.

Lemma search_total e start goal gas search :
  grid_ok e → search ∈ [bfs; dfs; astar] →
  (4 * size (universe e start) + 1 < gas)%nat →
  ∃ r, search gas e start goal = Ok r.
Proof.
  intros Hok Hsearch Hgas.
  assert (measure e start (initial_state start)
          = (1 + 4 * size (universe e start))%nat) as Hm.
  { unfold measure, budget. simpl.
    by replace (universe e start ∖ ∅) with (universe e start) by set_solver. }
  assert (astar_measure e start (astar_initial_state start)
          = (1 + 4 * size (universe e start))%nat) as Hma.
  { unfold astar_measure, budget. simpl.
    by replace (universe e start ∖ ∅) with (universe e start) by set_solver. }
  repeat (apply elem_of_cons in Hsearch as [->|Hsearch]).
  - unfold bfs. destruct (decide (start = goal)); [by eexists|].
    apply (loop_total e Hok start goal _ gas (bfs_body_cases e Hok start goal gas));
      lia.
  - unfold dfs. destruct (decide (start = goal)); [by eexists|].
    apply (loop_total e Hok start goal _ gas (dfs_body_cases e Hok start goal gas));
      lia.
  - apply astar_total; [done|lia..].
  - by apply elem_of_nil in Hsearch.
Qed.

Lemma random_choice_ok {A} (r : nat) (l : list A) :
  l ≠ [] → ∃ x, random_choice r l = Ok x ∧ x ∈ l.
Proof.
  intros Hl. unfold random_choice.
  destruct (lookup_lt_is_Some_2 l (r `mod` length l)%nat) as [x Hx].
  { apply Nat.mod_upper_bound. by destruct l. }
  rewrite Hx. exists x. split; [done|]. by eapply list_elem_of_lookup_2.
Qed.

Lemma py_min_elem_of {A} (key : A → Z) (best : A) (l : list A) :
  py_min key best l ∈ best :: l ∧
  ∀ x, x ∈ best :: l → key (py_min key best l) ≤ key x.
Proof.
  destruct (py_min_first key l [] [] best) as (l1 & l2 & Heq & H1 & H2).
  - intros x Hx. by apply elem_of_nil in Hx.
  - intros x Hx. by apply elem_of_nil in Hx.
  - simpl in Heq. rewrite Heq. split.
    + apply elem_of_app. right. by left.
    + intros x [Hx|Hx]%elem_of_app; [specialize (H1 x Hx); lia|].
      apply elem_of_cons in Hx as [->|Hx]; [lia|by apply H2].
Qed.

Lemma find_nearest_dirty_tile_ok e start :
  grid_ok e →
  ∃ o, find_nearest_dirty_tile e start = Ok o ∧
       (o = None ↔ dirty_cells e = []) ∧
       ∀ t, o = Some t →
            t ∈ dirty_cells e ∧
            ∀ c, c ∈ dirty_cells e → heuristic start t ≤ heuristic start c.
Proof.
  intros Hok. unfold find_nearest_dirty_tile.
  rewrite get_dirty_tiles_cells by done. cbn [bind].
  destruct (dirty_cells e) as [|t ts].
  - exists None. split; [done|]. split; [done|]. by intros t.
  - eexists. split; [done|]. split; [done|]. intros t' [= <-].
    apply (py_min_elem_of (λ pos, heuristic start pos)).
Qed.

Lemma perceive_ok e :
  grid_ok e →
  perceive e =
    Ok (mkPerception (robot_pos e)
          (if is_valid_position e (robot_pos e).1 (robot_pos e).2
           then tile (grid e) (robot_pos e) else OBSTACLE)
          (nbrs e (robot_pos e)) (is_all_clean e)).
Proof.
  intros Hok. unfold perceive. destruct (robot_pos e) as [x y]. simpl.
  by rewrite get_tile_state_ok, get_neighbors_ok by done.
Qed.

Lemma wander_ok r a perception :
  ∃ action, ModelBasedAgent_wander r a perception = Ok (a, action) ∧
            match action with
            | Move pos => pos ∈ neighbors perception
            | Wait => neighbors perception = []
            | Clean => False
            end.
Proof.
  unfold ModelBasedAgent_wander.
  destruct (filter _ (neighbors perception)) as [|n ns] eqn:Hf.
  - destruct (neighbors perception) as [|n ns] eqn:Hn; [by exists Wait|].
    destruct (random_choice_ok r (n :: ns)) as (x & -> & Hx); [done|].
    by exists (Move x).
  - destruct (random_choice_ok r (n :: ns)) as (x & -> & Hx); [done|].
    exists (Move x). split; [done|].
    rewrite <-Hf in Hx. by apply list_elem_of_filter in Hx as [_ ?].
Qed.

(** The outcomes of the planning step shared by the three planning agents:
    the search either fails for lack of fuel, or returns. *)
Lemma search_outcome e start goal gas search :
  grid_ok e → search ∈ [bfs; dfs; astar] →
  search gas e start goal = OutOfFuel ∨ ∃ r, search gas e start goal = Ok r.
Proof.
  intros Hok Hsearch.
  destruct (search gas e start goal) as [r|x|] eqn:Hs; [by right; eexists| |by left].
  by apply search_no_raise in Hs.
Qed.

Lemma act_runs (e : Environment) (p : Policy) (perception : Perception)
    (r : nat) :
  grid_ok e →
  (∀ gas x, act gas r p e perception ≠ Raise x) ∧
  (∀ gas, (4 * size (universe e (position perception)) + 1 < gas)%nat →
          ∃ p' action, act gas r p e perception = Ok (p', action)).
Proof.
  intros Hok.
  assert (∀ gas search, search ∈ [bfs; dfs; astar] → ∀ goal,
            (search gas e (position perception) goal = OutOfFuel ∧
             ¬ (4 * size (universe e (position perception)) + 1 < gas)%nat) ∨
            ∃ res, search gas e (position perception) goal = Ok res) as Hsearch.
  { intros gas search Hs goal.
    destruct (decide (4 * size (universe e (position perception)) + 1 < gas)%nat)
      as [Hgas|Hgas].
    - right. by apply search_total.
    - destruct (search_outcome e (position perception) goal gas search Hok Hs)
        as [?|?]; [by left|by right]. }
  assert (∀ gas p' action (m : res (Policy * Action)),
            m = Ok (p', action) →
            (∀ x, m ≠ Raise x) ∧
            ((4 * size (universe e (position perception)) + 1 < gas)%nat →
             ∃ p' action, m = Ok (p', action))) as Hret.
  { intros gas p' action m ->. split; [done|]. intros _. by eexists _, _. }
  assert (∀ gas (m : res (Policy * Action)),
            m = OutOfFuel →
            ¬ (4 * size (universe e (position perception)) + 1 < gas)%nat →
            (∀ x, m ≠ Raise x) ∧
            ((4 * size (universe e (position perception)) + 1 < gas)%nat →
             ∃ p' action, m = Ok (p', action))) as Hfuel.
  { intros gas m -> Hgas. split; [done|]. intros ?. done. }
  cut (∀ gas, (∀ x, act gas r p e perception ≠ Raise x) ∧
              ((4 * size (universe e (position perception)) + 1 < gas)%nat →
               ∃ p' action, act gas r p e perception = Ok (p', action))).
  { intros H. split; intros gas; apply H. }
  intros gas.
  destruct (find_nearest_dirty_tile_ok e (position perception) Hok)
    as (o & Hnear & _).
  destruct p as [a|a|a|a]; unfold act.
  - unfold SimpleReflexAgent_act.
    destruct (decide (tile_state perception = DIRTY)); [by eapply Hret|].
    destruct (neighbors perception) as [|nb nbs] eqn:Hn; [by eapply Hret|].
    destruct (random_choice_ok r (nb :: nbs)) as (x & -> & _); [done|].
    by eapply Hret.
  - unfold ModelBasedAgent_act.
    destruct (decide (tile_state perception = DIRTY)); [by eapply Hret|].
    destruct (mb_current_path a) as [|next rest]; [|by eapply Hret].
    rewrite Hnear. cbn [bind].
    destruct o as [nearest|].
    2:{ destruct (wander_ok r a perception) as (action & -> & _). by eapply Hret. }
    destruct (decide (search_algorithm a = "bfs")).
    + destruct (Hsearch gas bfs ltac:(set_solver) nearest) as [[-> Hgas]|[res ->]];
        [by apply Hfuel|]. cbn [bind].
      destruct (found res); [destruct (path res)|].
      * destruct (wander_ok r (mkModelBased (mb_base a) (cleaned_tiles a) []
                                 (search_algorithm a)) perception)
          as (action & -> & _). by eapply Hret.
      * by eapply Hret.
      * destruct (wander_ok r a perception) as (action & -> & _). by eapply Hret.
    + destruct (Hsearch gas astar ltac:(set_solver) nearest) as [[-> Hgas]|[res ->]];
        [by apply Hfuel|]. cbn [bind].
      destruct (found res); [destruct (path res)|].
      * destruct (wander_ok r (mkModelBased (mb_base a) (cleaned_tiles a) []
                                 (search_algorithm a)) perception)
          as (action & -> & _). by eapply Hret.
      * by eapply Hret.
      * destruct (wander_ok r a perception) as (action & -> & _). by eapply Hret.
  - unfold UtilityBasedAgent_act.
    destruct (decide (tile_state perception = DIRTY)); [by eapply Hret|].
    assert (∀ a0, (∀ x, (let* (a', act) := UtilityBasedAgent_plan gas a0 e perception in
                         Ok (UtilityBased a', act)) ≠ Raise x) ∧
                  ((4 * size (universe e (position perception)) + 1 < gas)%nat →
                   ∃ p' action,
                     (let* (a', act) := UtilityBasedAgent_plan gas a0 e perception in
                      Ok (UtilityBased a', act)) = Ok (p', action))) as Hplan.
    { intros a0. unfold UtilityBasedAgent_plan. rewrite Hnear. cbn [bind].
      destruct o as [nearest|]; [|by eapply Hret].
      destruct (Hsearch gas astar ltac:(set_solver) nearest) as [[-> Hgas]|[res ->]];
        [by apply Hfuel|]. cbn [bind].
      destruct (found res); [destruct (path res)|]; by eapply Hret. }
    destruct (ub_current_path a) as [|next rest]; [apply Hplan|].
    destruct (current_goal a) as [goal|]; [|apply Hplan].
    rewrite get_tile_state_ok by done. cbn [bind].
    destruct (decide _); [by eapply Hret|apply Hplan].
  - unfold GoalBasedAgent_act.
    destruct (decide (tile_state perception = DIRTY)); [by eapply Hret|].
    destruct (gb_current_path a) as [|next rest]; [|by eapply Hret].
    rewrite get_dirty_tiles_cells by done. cbn [bind].
    destruct (dirty_cells e) as [|target ?]; [by eapply Hret|].
    destruct (Hsearch gas dfs ltac:(set_solver) target) as [[-> Hgas]|[res ->]];
      [by apply Hfuel|]. cbn [bind].
    destruct (found res); [destruct (path res)|]; by eapply Hret.
Qed.

(** On a well-shaped grid [act] raises for none of the four agents,
    whatever the perception handed to it and whatever the agent has cached;
    it returns as soon as the search loops are given fuel beyond four times
    the number of cells. *)
Theorem act_never_raises (e : Environment) (p : Policy) (perception : Perception)
    (r : nat) :
  grid_ok e →
  (∀ gas x, act gas r p e perception ≠ Raise x) ∧
  (∀ gas, (4 * size (universe e (position perception)) + 1 < gas)%nat →
          ∃ p' action, act gas r p e perception = Ok (p', action)).
Proof. apply act_runs. Qed.

Lemma act_never_raises_witness :
  (∀ gas x, act gas 7 (GoalBased GoalBasedAgent_new) detour_world
              (mkPerception (0, 0) CLEAN [(1, 0)] false) ≠ Raise x) ∧
  (∀ gas, (4 * size (universe detour_world
                       (position (mkPerception (0%Z, 0%Z) CLEAN [(1%Z, 0%Z)] false)))
           + 1 < gas)%nat →
          ∃ p' action, act gas 7 (GoalBased GoalBasedAgent_new) detour_world
                         (mkPerception (0, 0) CLEAN [(1, 0)] false) = Ok (p', action)).
Proof.
  apply (act_never_raises detour_world (GoalBased GoalBasedAgent_new)
           (mkPerception (0, 0) CLEAN [(1, 0)] false) 7).
  exact detour_world_ok.
Defined.


(** *** Bounds on the paths and on the number of cells *)

Lemma reconstruct_loop_length fuel cf start n acc r :
  reconstruct_loop fuel cf start n acc = Ok r →
  (length r ≤ length acc + fuel)%nat.
Proof.
  revert n acc. induction fuel as [|fuel IH]; intros n acc; simpl.
  - destruct (decide (n = start)); [|done]. intros [= <-]. lia.
  - destruct (decide (n = start)); [intros [= <-]; lia|].
    destruct (cf !! n) as [[p|]|]; [|done..].
    intros Hr%IH. rewrite length_app in Hr. simpl in Hr. lia.
Qed.

Lemma reconstruct_path_length fuel cf start goal p :
  reconstruct_path fuel cf start goal = Ok p → (length p ≤ fuel)%nat.
Proof.
  unfold reconstruct_path.
  destruct (reconstruct_loop _ _ _ _ _) as [r| |] eqn:Hr; cbn [bind]; [|done..].
  intros [= <-]. apply reconstruct_loop_length in Hr.
  rewrite length_reverse. simpl in Hr. lia.
Qed.

(** The path of a result is never longer than the bound given to the loop
    of [reconstruct_path]. *)
Lemma search_path_bound e start goal gas r search :
  grid_ok e → search ∈ [bfs; dfs; astar] →
  search gas e start goal = Ok r → found r = true → (length (path r) ≤ gas)%nat.
Proof.
  intros Hok Hsearch Hrun Hfound.
  assert (∀ body,
    (∀ st, search_inv e start st → body_cases e start goal body gas st) →
    while_loop body gas (initial_state start) = Ok r →
    (length (path r) ≤ gas)%nat) as Hloop.
  { intros body Hcases Hloop.
    eapply (while_loop_inv body (search_inv e start)
              (λ r, found r = true → (length (path r) ≤ gas)%nat));
      [by eapply loop_step| |by apply search_inv_initial|done|done].
    intros st r0 Hinv Hb.
    destruct (Hcases st Hinv) as [(st'' & Heq & _)|[(_ & r' & Heq & Hf)|(Hg & Heq)]];
      rewrite Heq in Hb.
    - done.
    - injection Hb as <-. by rewrite Hf.
    - destruct (reconstruct_path _ _ _ _) as [p| |] eqn:Hp; [|done..].
      injection Hb as <-. intros _. simpl. by eapply reconstruct_path_length. }
  repeat (apply elem_of_cons in Hsearch as [->|Hsearch]).
  - unfold bfs in Hrun. destruct (decide (start = goal)).
    { injection Hrun as <-. simpl. lia. }
    apply (Hloop _ (bfs_body_cases e Hok start goal gas) Hrun).
  - unfold dfs in Hrun. destruct (decide (start = goal)).
    { injection Hrun as <-. simpl. lia. }
    apply (Hloop _ (dfs_body_cases e Hok start goal gas) Hrun).
  - unfold astar in Hrun. destruct (decide (start = goal)).
    { injection Hrun as <-. simpl. lia. }
    eapply (while_loop_inv _ (astar_inv e start goal)
              (λ r, found r = true → (length (path r) ≤ gas)%nat));
      [by apply astar_inv_step| |apply astar_inv_initial|done|done].
    intros st r0 Hinv Hb.
    destruct (astar_body_progress e Hok start goal gas st Hinv)
      as [(st' & Heq & _)|[(_ & _ & _ & Heq)|(rest & _ & _ & Heq)]];
      rewrite Heq in Hb.
    + done.
    + injection Hb as <-. simpl. destruct Hinv as (_ & _ & ->). done.
    + destruct (reconstruct_path _ _ _ _) as [p| |] eqn:Hp; [|done..].
      injection Hb as <-. intros _. simpl. by eapply reconstruct_path_length.
  - by apply elem_of_nil in Hsearch.
Qed.

Lemma length_row_major e :
  length (row_major e) = (Z.to_nat (height e) * Z.to_nat (width e))%nat.
Proof.
  unfold row_major, range.
  assert (∀ y : Z, length (x ← seqZ 0 (width e); [(x, y)]) = Z.to_nat (width e)) as Hrow.
  { intros y. rewrite <-(length_seqZ 0 (width e)).
    induction (seqZ 0 (width e)) as [|x xs IH]; [done|].
    cbn [mbind list_bind]. rewrite length_app, IH. done. }
  rewrite <-(length_seqZ 0 (height e)).
  induction (seqZ 0 (height e)) as [|y ys IH]; [done|].
  cbn [mbind list_bind]. rewrite length_app, IH, Hrow. simpl. lia.
Qed.

Lemma size_universe e start :
  is_valid_position e start.1 start.2 = true →
  size (universe e start) = (Z.to_nat (height e) * Z.to_nat (width e))%nat.
Proof.
  intros Hv. unfold universe.
  assert (start ∈ cells e) as Hin.
  { unfold cells. apply elem_of_list_to_set. by apply elem_of_row_major. }
  replace ({[start]} ∪ cells e) with (cells e) by set_solver.
  unfold cells. rewrite <-length_row_major.
  apply size_list_to_set, row_major_NoDup.
Qed.

(** *** Planning *)

Lemma not_dirty_not_target e t :
  (if is_valid_position e (robot_pos e).1 (robot_pos e).2
   then tile (grid e) (robot_pos e) else OBSTACLE) ≠ DIRTY →
  t ∈ dirty_cells e → robot_pos e ≠ t.
Proof.
  intros Hnd [Hv Ht]%elem_of_dirty_cells <-. by rewrite Hv in Hnd.
Qed.

Lemma first_hop e start pos rest t :
  grid_ok e → is_route e start (pos :: rest) t → pos ∈ nbrs e start.
Proof. intros Hok [Hedge _]. by apply edge_nbrs. Qed.

Lemma utility_plan (e : Environment) (a a' : UtilityBasedAgent)
    (perception : Perception) (gas : nat) (action : Action) :
  grid_ok e → perceive e = Ok perception → tile_state perception ≠ DIRTY →
  ub_current_path a = [] →
  UtilityBasedAgent_act gas a e perception = Ok (a', action) →
  match action with
  | Clean => False
  | Wait =>
      a' = a ∧
      ∀ t, find_nearest_dirty_tile e (robot_pos e) = Ok (Some t) →
           ¬ reachable e (robot_pos e) t
  | Move pos =>
      ∃ t, find_nearest_dirty_tile e (robot_pos e) = Ok (Some t) ∧
           t ∈ dirty_cells e ∧
           (length (pos :: ub_current_path a') ≤ gas)%nat ∧
           current_goal a' = Some t ∧ ub_base a' = ub_base a ∧
           is_route e (robot_pos e) (pos :: ub_current_path a') t ∧
           (∀ l, is_route e (robot_pos e) l t →
                 (length (pos :: ub_current_path a') ≤ length l)%nat) ∧
           pos ∈ neighbors perception
  end.
Proof.
  intros Hok Hper Hnd Hpath. rewrite perceive_ok in Hper by done.
  injection Hper as <-. simpl in Hnd.
  unfold UtilityBasedAgent_act. rewrite decide_False by done. rewrite Hpath.
  unfold UtilityBasedAgent_plan. cbn [position neighbors].
  destruct (find_nearest_dirty_tile_ok e (robot_pos e) Hok)
    as (o & Hnear & Hnone & Hsome).
  rewrite Hnear. cbn [bind]. destruct o as [t|].
  2:{ intros [= <- <-]. split; [done|]. by intros t. }
  destruct (Hsome t eq_refl) as [Ht _].
  destruct (astar gas e (robot_pos e) t) as [res| |] eqn:Hrun; cbn [bind]; [|done..].
  destruct (found res) eqn:Hfound.
  - destruct (astar_shortest_route e Hok _ _ gas res Hrun Hfound)
      as (Hroute & Hmin & _).
    destruct (path res) as [|pos rest] eqn:Hp.
    { simpl in Hroute. by destruct (not_dirty_not_target e t). }
    pose proof Hroute as [Hedge Hrest].
    assert (length (path res) ≤ gas)%nat as Hlen.
    { apply (search_path_bound e (robot_pos e) t gas res astar Hok);
        [set_solver|done..]. }
    rewrite Hp in Hlen.
    intros [= <- <-]. exists t. simpl. split_and!; try done.
    by eapply first_hop.
  - intros [= <- <-]. split; [done|]. intros t' [= <-].
    by eapply astar_exhausted.
Qed.

(** With no path cached and the robot on a tile that is not dirty, the
    utility-based agent aims at the dirty tile nearest in Manhattan
    distance.  It answers with the first move of a shortest route to that
    tile and caches the rest; it waits, unchanged, exactly when there is no
    dirty tile or that tile cannot be reached, even if other dirty tiles
    can. *)
Theorem utility_agent_plans (e : Environment) (a a' : UtilityBasedAgent)
    (perception : Perception) (gas : nat) (action : Action) :
  grid_ok e → perceive e = Ok perception → tile_state perception ≠ DIRTY →
  ub_current_path a = [] →
  UtilityBasedAgent_act gas a e perception = Ok (a', action) →
  match action with
  | Clean => False
  | Wait =>
      a' = a ∧
      ∀ t, find_nearest_dirty_tile e (robot_pos e) = Ok (Some t) →
           ¬ reachable e (robot_pos e) t
  | Move pos =>
      ∃ t, find_nearest_dirty_tile e (robot_pos e) = Ok (Some t) ∧
           current_goal a' = Some t ∧ ub_base a' = ub_base a ∧
           is_route e (robot_pos e) (pos :: ub_current_path a') t ∧
           (∀ l, is_route e (robot_pos e) l t →
                 (length (pos :: ub_current_path a') ≤ length l)%nat) ∧
           pos ∈ neighbors perception
  end.
Proof.
  intros Hok Hper Hnd Hpath Hact.
  pose proof (utility_plan e a a' perception gas action Hok Hper Hnd Hpath Hact) as H.
  destruct action as [|pos|]; [done| |done].
  destruct H as (t & ? & _ & _ & ?). by exists t.
Qed.

Lemma goal_plan (e : Environment) (a a' : GoalBasedAgent)
    (perception : Perception) (gas : nat) (action : Action) :
  grid_ok e → perceive e = Ok perception → tile_state perception ≠ DIRTY →
  gb_current_path a = [] →
  GoalBasedAgent_act gas a e perception = Ok (a', action) →
  match action with
  | Clean => False
  | Wait =>
      a' = a ∧
      ∀ t ts, get_dirty_tiles e = Ok (t :: ts) → ¬ reachable e (robot_pos e) t
  | Move pos =>
      ∃ t ts, get_dirty_tiles e = Ok (t :: ts) ∧
              t ∈ dirty_cells e ∧
              (length (pos :: gb_current_path a') ≤ gas)%nat ∧
              (∀ c, c ∈ ts → scanned_before t c) ∧
              gb_base a' = gb_base a ∧
              is_route e (robot_pos e) (pos :: gb_current_path a') t ∧
              pos ∈ neighbors perception
  end.
Proof.
  intros Hok Hper Hnd Hpath. rewrite perceive_ok in Hper by done.
  injection Hper as <-. simpl in Hnd.
  unfold GoalBasedAgent_act. rewrite decide_False by done. rewrite Hpath.
  cbn [position neighbors].
  rewrite get_dirty_tiles_cells by done. cbn [bind].
  destruct (dirty_cells e) as [|t ts] eqn:Hd.
  { intros [= <- <-]. split; [done|]. by intros t ts. }
  assert (t ∈ dirty_cells e) as Ht by (rewrite Hd; left).
  assert (dfs ∈ [bfs; dfs; astar]) as Hdfs by set_solver.
  destruct (dfs gas e (robot_pos e) t) as [res| |] eqn:Hrun; cbn [bind]; [|done..].
  destruct (found res) eqn:Hfound.
  - destruct (search_sound e _ _ gas res dfs Hok Hdfs Hrun Hfound) as [Hroute _].
    destruct (path res) as [|pos rest] eqn:Hp.
    { simpl in Hroute. by destruct (not_dirty_not_target e t). }
    pose proof Hroute as [Hedge Hrest].
    assert (length (path res) ≤ gas)%nat as Hlen.
    { by apply (search_path_bound e (robot_pos e) t gas res dfs Hok). }
    rewrite Hp in Hlen.
    intros [= <- <-]. exists t, ts. simpl. split_and!; try done.
    + by left.
    + pose proof (filter_sorted scanned_before (λ c, tile (grid e) c = DIRTY)
                    (row_major e) (row_major_sorted e)) as Hs.
      fold (dirty_cells e) in Hs. rewrite Hd in Hs.
      apply StronglySorted_inv in Hs as [_ Hs]. by apply Forall_forall.
    + by eapply first_hop.
  - intros [= <- <-]. split; [done|]. intros t' ts' [= <- <-].
    by eapply (search_exhausted e _ _ gas res dfs).
Qed.

(** The goal-based agent aims at the first dirty tile in the order
    [get_dirty_tiles] scans the grid, and answers with the first move of
    the route [dfs] finds, caching the rest; it waits, unchanged, exactly
    when no tile is dirty or that first tile cannot be reached. *)
Theorem goal_agent_plans (e : Environment) (a a' : GoalBasedAgent)
    (perception : Perception) (gas : nat) (action : Action) :
  grid_ok e → perceive e = Ok perception → tile_state perception ≠ DIRTY →
  gb_current_path a = [] →
  GoalBasedAgent_act gas a e perception = Ok (a', action) →
  match action with
  | Clean => False
  | Wait =>
      a' = a ∧
      ∀ t ts, get_dirty_tiles e = Ok (t :: ts) → ¬ reachable e (robot_pos e) t
  | Move pos =>
      ∃ t ts, get_dirty_tiles e = Ok (t :: ts) ∧
              (∀ c, c ∈ ts → scanned_before t c) ∧
              gb_base a' = gb_base a ∧
              is_route e (robot_pos e) (pos :: gb_current_path a') t ∧
              pos ∈ neighbors perception
  end.
Proof.
  intros Hok Hper Hnd Hpath Hact.
  pose proof (goal_plan e a a' perception gas action Hok Hper Hnd Hpath Hact) as H.
  destruct action as [|pos|]; [done| |done].
  destruct H as (t & ts & ? & _ & _ & ?). by exists t, ts.
Qed.

Lemma model_plan (e : Environment) (a a' : ModelBasedAgent)
    (perception : Perception) (gas r : nat) (action : Action) :
  grid_ok e → perceive e = Ok perception → tile_state perception ≠ DIRTY →
  mb_current_path a = [] →
  ModelBasedAgent_act gas r a e perception = Ok (a', action) →
  (∃ t pos,
     find_nearest_dirty_tile e (robot_pos e) = Ok (Some t) ∧
     t ∈ dirty_cells e ∧
     (length (pos :: mb_current_path a') ≤ gas)%nat ∧
     action = Move pos ∧
     mb_base a' = mb_base a ∧ cleaned_tiles a' = cleaned_tiles a ∧
     search_algorithm a' = search_algorithm a ∧
     is_route e (robot_pos e) (pos :: mb_current_path a') t ∧
     (∀ l, is_route e (robot_pos e) l t →
           (length (pos :: mb_current_path a') ≤ length l)%nat) ∧
     pos ∈ neighbors perception) ∨
  ((∀ t, find_nearest_dirty_tile e (robot_pos e) = Ok (Some t) →
         ¬ reachable e (robot_pos e) t) ∧
   a' = a ∧
   match action with
   | Clean => False
   | Wait => neighbors perception = []
   | Move pos =>
       pos ∈ neighbors perception ∧
       ((∃ n, n ∈ neighbors perception ∧ n ∉ cleaned_tiles a) →
        pos ∉ cleaned_tiles a)
   end).
Proof.
  intros Hok Hper Hnd Hpath. rewrite perceive_ok in Hper by done.
  injection Hper as <-. simpl in Hnd.
  set (perception := mkPerception _ _ _ _).
  assert (∀ action,
    ModelBasedAgent_wander r a perception = Ok (a', action) →
    a' = a ∧
    match action with
    | Clean => False
    | Wait => neighbors perception = []
    | Move pos =>
        pos ∈ neighbors perception ∧
        ((∃ n, n ∈ neighbors perception ∧ n ∉ cleaned_tiles a) →
         pos ∉ cleaned_tiles a)
    end) as Hwander.
  { intros act0. unfold ModelBasedAgent_wander.
    destruct (filter _ (neighbors perception)) as [|n ns] eqn:Hf.
    - destruct (neighbors perception) as [|n ns] eqn:Hn; [by intros [= <- <-]|].
      destruct (random_choice_ok r (n :: ns)) as (x & -> & Hx); [done|].
      intros [= <- <-]. split; [done|]. split; [done|].
      intros (n' & Hn' & Hun).
      assert (n' ∈ filter (λ n, n ∉ cleaned_tiles a) (n :: ns)) as Hin
        by (by apply list_elem_of_filter).
      rewrite Hf in Hin. by apply elem_of_nil in Hin.
    - destruct (random_choice_ok r (n :: ns)) as (x & -> & Hx); [done|].
      intros [= <- <-]. split; [done|].
      rewrite <-Hf in Hx. apply list_elem_of_filter in Hx as [Hx1 Hx2].
      by split. }
  intros Hact. unfold ModelBasedAgent_act in Hact.
  rewrite decide_False in Hact by done. rewrite Hpath in Hact.
  change (position perception) with (robot_pos e) in Hact.
  destruct (find_nearest_dirty_tile_ok e (robot_pos e) Hok)
    as (o & Hnear & Hnone & Hsome).
  rewrite Hnear in Hact. cbn [bind] in Hact. destruct o as [t|].
  2:{ apply Hwander in Hact. right. split; [|done]. intros t. by rewrite Hnear. }
  destruct (Hsome t eq_refl) as [Ht _].
  revert Hact.
  lazymatch goal with
  | |- _ → ?G =>
      assert (∀ search, search ∈ [bfs; astar] →
        (let* result := search gas e (robot_pos e) t in
         if found result then
           match path result with
           | next_pos :: rest =>
               Ok (mkModelBased (mb_base a) (cleaned_tiles a) rest
                     (search_algorithm a), Move next_pos)
           | [] =>
               ModelBasedAgent_wander r
                 (mkModelBased (mb_base a) (cleaned_tiles a) []
                    (search_algorithm a)) perception
           end
         else ModelBasedAgent_wander r a perception) = Ok (a', action) → G) as Hplan
  end.
  { intros search Hsearch.
    destruct (search gas e (robot_pos e) t) as [res| |] eqn:Hrun; cbn [bind]; [|done..].
    destruct (found res) eqn:Hfound.
    - assert (is_route e (robot_pos e) (path res) t ∧
              ∀ l, is_route e (robot_pos e) l t →
                   (length (path res) ≤ length l)%nat) as [Hroute Hmin].
      { apply elem_of_cons in Hsearch as [->|Hsearch].
        - by destruct (bfs_shortest_route e Hok _ _ gas res Hrun Hfound) as (? & ? & _).
        - apply elem_of_cons in Hsearch as [->|Hsearch];
            [|by apply elem_of_nil in Hsearch].
          by destruct (astar_shortest_route e Hok _ _ gas res Hrun Hfound)
            as (? & ? & _). }
      destruct (path res) as [|pos rest] eqn:Hp.
      { simpl in Hroute. by destruct (not_dirty_not_target e t). }
      pose proof Hroute as [Hedge Hrest].
      assert (length (path res) ≤ gas)%nat as Hlen.
      { apply (search_path_bound e (robot_pos e) t gas res search Hok);
          [set_solver|done..]. }
      rewrite Hp in Hlen.
      intros [= <- <-]. left. exists t, pos. simpl. split_and!; try done.
      by eapply first_hop.
    - intros Hw%Hwander. right. split; [|done]. intros t'. rewrite Hnear.
      intros [= <-].
      apply (search_exhausted e _ _ gas res search Hok); [set_solver|done..]. }
  destruct (decide (search_algorithm a = "bfs")).
  - apply (Hplan bfs). set_solver.
  - apply (Hplan astar). set_solver.
Qed.

(** The model-based agent, with no path cached and the robot on a tile
    that is not dirty: when the dirty tile nearest in Manhattan distance can
    be reached it answers with the first move of a shortest route to it
    ([bfs] or [astar], both shortest) and caches the rest.  Otherwise it
    wanders, its state unchanged: to a neighbour, one outside
    [cleaned_tiles] if there is any, and it waits only when the robot has
    no neighbour. *)
Theorem model_agent_plans (e : Environment) (a a' : ModelBasedAgent)
    (perception : Perception) (gas r : nat) (action : Action) :
  grid_ok e → perceive e = Ok perception → tile_state perception ≠ DIRTY →
  mb_current_path a = [] →
  ModelBasedAgent_act gas r a e perception = Ok (a', action) →
  (∃ t pos,
     find_nearest_dirty_tile e (robot_pos e) = Ok (Some t) ∧
     action = Move pos ∧
     mb_base a' = mb_base a ∧ cleaned_tiles a' = cleaned_tiles a ∧
     search_algorithm a' = search_algorithm a ∧
     is_route e (robot_pos e) (pos :: mb_current_path a') t ∧
     (∀ l, is_route e (robot_pos e) l t →
           (length (pos :: mb_current_path a') ≤ length l)%nat) ∧
     pos ∈ neighbors perception) ∨
  ((∀ t, find_nearest_dirty_tile e (robot_pos e) = Ok (Some t) →
         ¬ reachable e (robot_pos e) t) ∧
   a' = a ∧
   match action with
   | Clean => False
   | Wait => neighbors perception = []
   | Move pos =>
       pos ∈ neighbors perception ∧
       ((∃ n, n ∈ neighbors perception ∧ n ∉ cleaned_tiles a) →
        pos ∉ cleaned_tiles a)
   end).
Proof.
  intros Hok Hper Hnd Hpath Hact.
  destruct (model_plan e a a' perception gas r action Hok Hper Hnd Hpath Hact)
    as [(t & pos & ? & _ & _ & ?)|?]; [left; by exists t, pos|by right].
Qed.

(** *** On concrete worlds *)

(** The dirty tile nearest to the robot is walled in; another one, farther
    away, can be reached. *)
Definition stuck_world : Environment :=
  mkEnv 3 3 [[CLEAN; CLEAN; CLEAN]; [OBSTACLE; CLEAN; CLEAN]; [DIRTY; OBSTACLE; DIRTY]]
    (0, 0) 2 0.

Lemma stuck_world_ok : grid_ok stuck_world.
Proof. split; [done|]. by repeat constructor. Qed.

Lemma stuck_world_reachable : reachable stuck_world (0, 0) (2, 2).
Proof.
  exists [(1, 0); (2, 0); (2, 1); (2, 2)].
  assert (∀ a b, b ∈ nbrs stuck_world a → edge stuck_world a b) as Hedge.
  { intros a b. by apply edge_nbrs, stuck_world_ok. }
  simpl. split_and!; try done; apply Hedge; vm_compute; set_solver.
Qed.

Lemma utility_agent_plans_witness :
  UtilityBasedAgent_new = UtilityBasedAgent_new ∧
  ∀ t, find_nearest_dirty_tile stuck_world (robot_pos stuck_world) = Ok (Some t) →
       ¬ reachable stuck_world (robot_pos stuck_world) t.
Proof.
  apply (utility_agent_plans stuck_world UtilityBasedAgent_new UtilityBasedAgent_new
           (mkPerception (0, 0) CLEAN [(1, 0)] false) 60 Wait).
  - exact stuck_world_ok.
  - reflexivity.
  - discriminate.
  - reflexivity.
  - vm_compute. reflexivity.
Defined.

Lemma goal_agent_plans_witness :
  ∃ t ts, get_dirty_tiles detour_world = Ok (t :: ts) ∧
          (∀ c, c ∈ ts → scanned_before t c) ∧
          gb_base (mkGoalBased (gb_base GoalBasedAgent_new) [(1, 1); (1, 2); (0, 2)])
            = gb_base GoalBasedAgent_new ∧
          is_route detour_world (robot_pos detour_world)
            ((1, 0) :: gb_current_path
               (mkGoalBased (gb_base GoalBasedAgent_new) [(1, 1); (1, 2); (0, 2)])) t ∧
          (1, 0) ∈ neighbors (mkPerception (0, 0) CLEAN [(1, 0)] false).
Proof.
  apply (goal_agent_plans detour_world GoalBasedAgent_new
           (mkGoalBased (gb_base GoalBasedAgent_new) [(1, 1); (1, 2); (0, 2)])
           (mkPerception (0, 0) CLEAN [(1, 0)] false) 20 (Move (1, 0))).
  - exact detour_world_ok.
  - reflexivity.
  - discriminate.
  - reflexivity.
  - vm_compute. reflexivity.
Defined.

Lemma model_agent_plans_witness :
  let a := ModelBasedAgent_new "astar" in
  let a' := mkModelBased (mb_base a) ∅ [(1, 1); (1, 2); (0, 2)] "astar" in
  let perception := mkPerception (0, 0) CLEAN [(1, 0)] false in
  (∃ t pos,
     find_nearest_dirty_tile detour_world (robot_pos detour_world) = Ok (Some t) ∧
     Move (1, 0) = Move pos ∧
     mb_base a' = mb_base a ∧ cleaned_tiles a' = cleaned_tiles a ∧
     search_algorithm a' = search_algorithm a ∧
     is_route detour_world (robot_pos detour_world) (pos :: mb_current_path a') t ∧
     (∀ l, is_route detour_world (robot_pos detour_world) l t →
           (length (pos :: mb_current_path a') ≤ length l)%nat) ∧
     pos ∈ neighbors perception) ∨
  ((∀ t, find_nearest_dirty_tile detour_world (robot_pos detour_world) = Ok (Some t) →
         ¬ reachable detour_world (robot_pos detour_world) t) ∧
   a' = a ∧
   (1, 0) ∈ neighbors perception ∧
   ((∃ n, n ∈ neighbors perception ∧ n ∉ cleaned_tiles a) →
    (1, 0) ∉ cleaned_tiles a)).
Proof.
  intros a a' perception.
  apply (model_agent_plans detour_world a a' perception 20 3 (Move (1, 0))).
  - exact detour_world_ok.
  - reflexivity.
  - discriminate.
  - reflexivity.
  - vm_compute. reflexivity.
Defined.

(** ** main.py: the simulation step *)

(** The attributes of the base class [Agent] inside each agent. *)
Definition agent_base (p : Policy) : Agent :=
  match p with
  | Reflex a => a
  | ModelBased a => mb_base a
  | UtilityBased a => ub_base a
  | GoalBased a => gb_base a
  end.

Definition set_agent_base (p : Policy) (b : Agent) : Policy :=
  match p with
  | Reflex _ => Reflex b
  | ModelBased a =>
      ModelBased (mkModelBased b (cleaned_tiles a) (mb_current_path a)
                    (search_algorithm a))
  | UtilityBased a => UtilityBased (mkUtilityBased b (ub_current_path a) (current_goal a))
  | GoalBased a => GoalBased (mkGoalBased b (gb_current_path a))
  end.

(** [agent.tiles_cleaned += 1] and [agent.steps_taken += 1] *)
Definition count_tile_cleaned (p : Policy) : Policy :=
  let b := agent_base p in
  set_agent_base p (mkAgent (name b) (steps_taken b) (tiles_cleaned b + 1)).
Definition count_step (p : Policy) : Policy :=
  let b := agent_base p in
  set_agent_base p (mkAgent (name b) (steps_taken b + 1) (tiles_cleaned b)).

(** The state [VacuumSimulation.step] reads and writes: the attributes of
    the simulation, and the two counters of the display,
    [ui.steps_taken] and [ui.cleaning_actions].  The fields of the display
    that serve the animation, and the printing, are left out. *)
Record Simulation := mkSimulation {
  environment : Environment;
  current_agent : Policy;
  is_running : bool;
  is_complete : bool;
  ui_steps_taken : Z;
  ui_cleaning_actions : Z
}.

(** [VacuumSimulation.step]; [r] is the number drawn if the agent calls
    [random.choice]. *)
Definition step (gas r : nat) (s : Simulation) : res Simulation :=
  if is_complete s then Ok s
  else
    let* perception := perceive (environment s) in
    let* (agent, action) := act gas r (current_agent s) (environment s) perception in
    match action with
    | Clean =>
        let* (e', cleaned) := clean_current_tile (environment s) in
        if cleaned then
          Ok (mkSimulation e' (count_tile_cleaned agent) (is_running s)
                (is_complete s) (ui_steps_taken s) (ui_cleaning_actions s + 1))
        else
          Ok (mkSimulation e' agent (is_running s) (is_complete s)
                (ui_steps_taken s) (ui_cleaning_actions s))
    | Move pos =>
        let* (e', moved) := move_robot (environment s) pos.1 pos.2 in
        if moved then
          Ok (mkSimulation e' (count_step agent) (is_running s) (is_complete s)
                (ui_steps_taken s + 1) (ui_cleaning_actions s))
        else
          Ok (mkSimulation e' agent (is_running s) (is_complete s)
                (ui_steps_taken s) (ui_cleaning_actions s))
    | Wait =>
        if is_all_clean (environment s) then
          Ok (mkSimulation (environment s) agent false true
                (ui_steps_taken s) (ui_cleaning_actions s))
        else
          Ok (mkSimulation (environment s) agent (is_running s) (is_complete s)
                (ui_steps_taken s) (ui_cleaning_actions s))
    end.

(** [n] calls of [step], the [i]-th with the random number [rs i]. *)
Fixpoint simulate (gas : nat) (rs : nat → nat) (n : nat) (s : Simulation)
  : res Simulation :=
  match n with
  | O => Ok s
  | S n' => let* s' := step gas (rs O) s in simulate gas (λ i, rs (S i)) n' s'
  end.

(** Which of the four classes an agent belongs to. *)
Definition kind (p : Policy) : nat :=
  match p with
  | Reflex _ => 0
  | ModelBased _ => 1
  | UtilityBased _ => 2
  | GoalBased _ => 3
  end.

(** The utility-based and the goal-based agent drop their path when they
    clean. *)
Definition planner (p : Policy) : Prop := (2 ≤ kind p)%nat.

(** Fuel that lets every search on [e] run to its end. *)
Definition enough (gas : nat) (e : Environment) : Prop :=
  (4 * (Z.to_nat (height e) * Z.to_nat (width e)) + 1 < gas)%nat.

(** The cached path leads from the robot to some cell.  For the three
    agents that search, that cell is a dirty tile; for the model-based
    agent, which keeps its path when it cleans, the path is moreover a
    shortest one, and for the utility-based agent the cell is its goal. *)
Definition plan_inv (gas : nat) (p : Policy) (e : Environment) : Prop :=
  cached_path p = [] ∨
  ∃ t, is_route e (robot_pos e) (cached_path p) t ∧
       (length (cached_path p) ≤ gas)%nat ∧
       ((1 ≤ kind p)%nat → t ∈ dirty_cells e) ∧
       (kind p = 1%nat →
        ∀ l, is_route e (robot_pos e) l t →
             (length (cached_path p) ≤ length l)%nat) ∧
       (kind p = 2%nat → cached_goal p = Some t).

Lemma agent_base_set p b : agent_base (set_agent_base p b) = b.
Proof. by destruct p. Qed.
Lemma cached_path_set p b : cached_path (set_agent_base p b) = cached_path p.
Proof. by destruct p. Qed.
Lemma cached_goal_set p b : cached_goal (set_agent_base p b) = cached_goal p.
Proof. by destruct p. Qed.
Lemma kind_set p b : kind (set_agent_base p b) = kind p.
Proof. by destruct p. Qed.

Lemma plan_inv_set gas p b e : plan_inv gas (set_agent_base p b) e ↔ plan_inv gas p e.
Proof.
  unfold plan_inv. by rewrite cached_path_set, cached_goal_set, kind_set.
Qed.

Lemma dirty_cells_valid e c : c ∈ dirty_cells e → is_valid_position e c.1 c.2 = true.
Proof. by intros [? _]%elem_of_dirty_cells. Qed.

(** Cleaning under the robot when its tile is dirty. *)
Lemma clean_dirty e :
  env_ok e → robot_pos e ∈ dirty_cells e →
  ∃ e', clean_current_tile e = Ok (e', true) ∧ env_ok e' ∧ frame e e' ∧
        robot_pos e' = robot_pos e ∧ cleaned_dirt e' = cleaned_dirt e + 1 ∧
        (robot_pos e ∉ dirty_cells e') ∧
        (∀ c, c ∈ dirty_cells e → c ≠ robot_pos e → c ∈ dirty_cells e').
Proof.
  intros [Hok Hv] [_ Hd]%elem_of_dirty_cells.
  destruct (run_command_frame CleanCurrentTile e) as (e' & Hrun & He' & Hf); [done|].
  simpl in Hrun. unfold clean_current_tile in *.
  destruct (robot_pos e) as [x y] eqn:Hpos. simpl in Hv.
  rewrite grid_get_ok in * by done. cbn [bind] in *.
  rewrite decide_True in * by done.
  destruct (grid_set_ok e x y CLEAN Hok Hv) as (g' & Hg & _ & Ht & Hother & _).
  rewrite Hg in *. cbn [bind] in *. injection Hrun as <-.
  eexists. split; [done|]. split_and!; try done.
  - intros [_ Hd']%elem_of_dirty_cells. simpl in Hd'. congruence.
  - intros c [Hc Hdc]%elem_of_dirty_cells Hne. apply elem_of_dirty_cells.
    split; [done|]. simpl. apply is_valid_position_spec in Hc.
    rewrite Hother by (done || lia). done.
Qed.

Lemma move_neighbor e pos :
  grid_ok e → pos ∈ nbrs e (robot_pos e) →
  move_robot e pos.1 pos.2 = Ok (set_robot_pos e pos, true).
Proof.
  intros Hok Hpos%nbrs_walkable. unfold move_robot.
  rewrite is_walkable_ok by done. destruct pos. simpl in *. by rewrite Hpos.
Qed.

(** Between walkable cells a neighbour can be left the way it was entered. *)
Lemma nbrs_sym e a b :
  walkable e a = true → b ∈ nbrs e a → a ∈ nbrs e b.
Proof.
  intros Ha Hb. unfold nbrs in *.
  apply list_elem_of_filter in Hb as [Hwb Hb].
  apply list_elem_of_filter. split; [done|].
  destruct a as [ax ay], b as [bx by_].
  apply (manhattan_one bx by_ (ax, ay)).
  apply (manhattan_one ax ay (bx, by_)) in Hb.
  unfold heuristic in *. simpl in *. lia.
Qed.

Lemma reachable_from_neighbor e a b t :
  grid_ok e → walkable e a = true → b ∈ nbrs e a →
  reachable e a t → reachable e b t.
Proof.
  intros Hok Ha Hb [l Hl]. exists (a :: l). split; [|done].
  apply edge_nbrs; [done|]. by apply nbrs_sym.
Qed.

(** *** What the agents answer during a simulation *)

Lemma follow_plan gas p p' e next rest :
  grid_ok e → plan_inv gas p e →
  cached_path p = next :: rest → cached_path p' = rest →
  kind p' = kind p → cached_goal p' = cached_goal p →
  next ∈ nbrs e (robot_pos e) ∧
  plan_inv gas p' (set_robot_pos e next) ∧
  ((1 ≤ kind p)%nat → rest = [] → next ∈ dirty_cells e).
Proof.
  intros Hok [Hnil|(t & Hroute & Hlen & Hdirty & Hmin & Hgoal)] Hp Hp' Hk Hg.
  { by rewrite Hp in Hnil. }
  rewrite Hp in Hroute, Hlen, Hmin. pose proof Hroute as [Hedge Hroute'].
  split; [by apply edge_nbrs|]. split.
  - destruct rest as [|c rest]; [by left|]. right. exists t.
    rewrite Hp', Hk, Hg. split_and!; try done.
    + by apply is_route_set_robot_pos.
    + simpl in *. lia.
    + intros Hk1 l Hl%is_route_set_robot_pos.
      assert (is_route e (robot_pos e) (next :: l) t) as Hl' by done.
      specialize (Hmin Hk1 _ Hl'). simpl in *. lia.
  - intros Hpl ->. simpl in Hroute'. subst t. by apply Hdirty.
Qed.

Lemma new_plan gas p' e pos t :
  grid_ok e → is_route e (robot_pos e) (pos :: cached_path p') t →
  (length (pos :: cached_path p') ≤ gas)%nat → t ∈ dirty_cells e →
  (kind p' = 1%nat →
   ∀ l, is_route e (robot_pos e) l t →
        (length (pos :: cached_path p') ≤ length l)%nat) →
  (kind p' = 2%nat → cached_goal p' = Some t) →
  pos ∈ nbrs e (robot_pos e) ∧
  plan_inv gas p' (set_robot_pos e pos) ∧
  (cached_path p' = [] → pos ∈ dirty_cells e).
Proof.
  intros Hok Hfull Hlen Hdirty Hmin Hgoal. pose proof Hfull as [Hedge Hroute].
  split; [by apply edge_nbrs|]. split.
  - destruct (cached_path p') as [|c rest] eqn:Hp'; [by left|]. right. exists t.
    rewrite Hp'. split_and!; try done.
    + by apply is_route_set_robot_pos.
    + simpl in *. lia.
    + intros Hk1 l Hl%is_route_set_robot_pos.
      assert (is_route e (robot_pos e) (pos :: l) t) as Hl' by done.
      specialize (Hmin Hk1 _ Hl'). simpl in *. lia.
  - intros Hnil. rewrite Hnil in Hroute. simpl in Hroute. by subst t.
Qed.

Lemma no_target e :
  grid_ok e →
  (∀ t, find_nearest_dirty_tile e (robot_pos e) = Ok (Some t) →
        ¬ reachable e (robot_pos e) t) →
  ∀ t, t ∈ dirty_cells e →
       ∃ t', t' ∈ dirty_cells e ∧ ¬ reachable e (robot_pos e) t'.
Proof.
  intros Hok Hnone t0 Ht0.
  destruct (find_nearest_dirty_tile_ok e (robot_pos e) Hok)
    as (o & Hnear & Hnil & Hsome).
  destruct o as [t|].
  - exists t. split; [by apply Hsome|by apply Hnone].
  - destruct Hnil as [Hnil _]. rewrite Hnil in Ht0 by done.
    by apply elem_of_nil in Ht0.
Qed.

Local Ltac close_act :=
  simpl in *; split_and!; try done; try lia; try (by left);
  try (intros; lia); try (intros ? ?; left; by auto);
  try (intros ? ?; right; by split); try (intros ?; by auto).

Lemma act_spec gas r p e :
  env_ok e → enough gas e → plan_inv gas p e →
  ∃ perception p' action,
    perceive e = Ok perception ∧
    act gas r p e perception = Ok (p', action) ∧
    agent_base p' = agent_base p ∧ kind p' = kind p ∧
    match action with
    | Clean =>
        robot_pos e ∈ dirty_cells e ∧
        (planner p → cached_path p' = []) ∧
        (¬ planner p → cached_path p' = cached_path p)
    | Move pos =>
        (robot_pos e ∉ dirty_cells e) ∧
        pos ∈ nbrs e (robot_pos e) ∧
        plan_inv gas p' (set_robot_pos e pos) ∧
        (cached_path p ≠ [] → cached_path p = pos :: cached_path p') ∧
        ((1 ≤ kind p)%nat → cached_path p' = [] →
         pos ∈ dirty_cells e ∨
         (kind p = 1%nat ∧
          ∀ t, t ∈ dirty_cells e →
               ∃ t', t' ∈ dirty_cells e ∧ ¬ reachable e (robot_pos e) t'))
    | Wait =>
        (robot_pos e ∉ dirty_cells e) ∧ p' = p ∧ cached_path p = [] ∧
        ((kind p ≤ 1)%nat → nbrs e (robot_pos e) = []) ∧
        ((1 ≤ kind p)%nat →
         ∀ t, t ∈ dirty_cells e →
              ∃ t', t' ∈ dirty_cells e ∧ ¬ reachable e (robot_pos e) t')
    end.
Proof.
  intros [Hok Hv] Hgas Hplan.
  pose proof (perceive_ok e Hok) as Hper. rewrite Hv in Hper.
  set (perception := mkPerception _ _ _ _) in Hper.
  assert (tile_state perception = DIRTY ↔ robot_pos e ∈ dirty_cells e) as Hdirty.
  { rewrite elem_of_dirty_cells. simpl. tauto. }
  destruct (act_runs e p perception r Hok) as [_ Htotal].
  destruct (Htotal gas) as (p' & action & Hact).
  { simpl. rewrite size_universe by done. exact Hgas. }
  exists perception, p', action. split; [done|]. split; [done|].
  destruct (decide (tile_state perception = DIRTY)) as [Hd|Hnd].
  { (* the tile under the robot is dirty *)
    apply Hdirty in Hd as Hin.
    destruct p as [a|a|a|a]; unfold act in Hact;
      [unfold SimpleReflexAgent_act in Hact|unfold ModelBasedAgent_act in Hact
      |unfold UtilityBasedAgent_act in Hact|unfold GoalBasedAgent_act in Hact];
      rewrite decide_True in Hact by done; cbn [bind] in Hact;
      injection Hact as <- <-; unfold planner; simpl;
      (split_and!; [done..| |]; intros; (done || lia)). }
  assert (robot_pos e ∉ dirty_cells e) as Hout by (by rewrite <-Hdirty).
  destruct p as [a|a|a|a]; unfold act in Hact.
  - (* reflex *)
    unfold SimpleReflexAgent_act in Hact. rewrite decide_False in Hact by done.
    change (neighbors perception) with (nbrs e (robot_pos e)) in Hact.
    destruct (nbrs e (robot_pos e)) as [|nb nbs] eqn:Hn.
    + injection Hact as <- <-. close_act.
    + destruct (random_choice_ok r (nb :: nbs)) as (x & Hx & Hin); [done|].
      rewrite Hx in Hact. cbn [bind] in Hact. injection Hact as <- <-.
      close_act.
  - (* model-based *)
    destruct (ModelBasedAgent_act gas r a e perception) as [[a' act']| |] eqn:Ha;
      cbn [bind] in Hact; [|done..]. injection Hact as <- <-.
    destruct (mb_current_path a) as [|next rest] eqn:Hpath.
    + destruct (model_plan e a a' perception gas r act' Hok Hper Hnd Hpath Ha)
        as [(t & pos & Hnear & Ht & Hlen & -> & Hb & Hc & Hs & Hroute & Hmin & Hpos)
           |(Hnone & -> & Hcase)].
      * destruct (new_plan gas (ModelBased a') e pos t) as (Hn1 & Hn2 & Hn3);
          try done.
        close_act.
      * pose proof (no_target e Hok Hnone) as Hnot.
        destruct act' as [|pos|]; [done| |].
        -- destruct Hcase as [Hpos _]. rewrite ?Hpath. close_act.
        -- rewrite ?Hpath. close_act.
    + unfold ModelBasedAgent_act in Ha. rewrite decide_False, Hpath in Ha by done.
      injection Ha as <- <-.
      destruct (follow_plan gas (ModelBased a)
                  (ModelBased (mkModelBased (mb_base a) (cleaned_tiles a) rest
                                 (search_algorithm a))) e next rest)
        as (Hf1 & Hf2 & Hf3); try done.
      close_act.
  - (* utility-based *)
    destruct (UtilityBasedAgent_act gas a e perception) as [[a' act']| |] eqn:Ha;
      cbn [bind] in Hact; [|done..]. injection Hact as <- <-.
    destruct (ub_current_path a) as [|next rest] eqn:Hpath.
    + pose proof (utility_plan e a a' perception gas act' Hok Hper Hnd Hpath Ha)
        as Hcase.
      destruct act' as [|pos|]; [done| |].
      * destruct Hcase as (t & Hnear & Ht & Hlen & Hgoal & Hb & Hroute & _ & Hpos).
        destruct (new_plan gas (UtilityBased a') e pos t) as (Hn1 & Hn2 & Hn3);
          try done.
        close_act.
      * destruct Hcase as [-> Hnone].
        pose proof (no_target e Hok Hnone) as Hnot. rewrite ?Hpath. close_act.
    + pose proof Hplan as [Hnil|(t & Hroute & Hlen & Ht & _ & Hgoal)].
      { simpl in Hnil. congruence. }
      specialize (Ht ltac:(simpl; lia)).
      specialize (Hgoal eq_refl). simpl in Hgoal.
      unfold UtilityBasedAgent_act in Ha.
      rewrite decide_False, Hpath, Hgoal in Ha by done.
      apply elem_of_dirty_cells in Ht as Ht'. destruct Ht' as [Htv Htd].
      rewrite get_tile_state_ok, Htv in Ha by done. cbn [bind] in Ha.
      destruct t as [tx ty]. simpl in Ha. rewrite decide_True in Ha by done.
      injection Ha as <- <-.
      destruct (follow_plan gas (UtilityBased a)
                  (UtilityBased (mkUtilityBased (ub_base a) rest (Some (tx, ty))))
                  e next rest) as (Hf1 & Hf2 & Hf3); try done.
      close_act.
  - (* goal-based *)
    destruct (GoalBasedAgent_act gas a e perception) as [[a' act']| |] eqn:Ha;
      cbn [bind] in Hact; [|done..]. injection Hact as <- <-.
    destruct (gb_current_path a) as [|next rest] eqn:Hpath.
    + pose proof (goal_plan e a a' perception gas act' Hok Hper Hnd Hpath Ha)
        as Hcase.
      destruct act' as [|pos|]; [done| |].
      * destruct Hcase as (t & ts & Hd & Ht & Hlen & _ & Hb & Hroute & Hpos).
        destruct (new_plan gas (GoalBased a') e pos t) as (Hn1 & Hn2 & Hn3);
          try done.
        close_act.
      * destruct Hcase as [-> Hnone].
        assert (∀ t, t ∈ dirty_cells e →
                     ∃ t', t' ∈ dirty_cells e ∧ ¬ reachable e (robot_pos e) t')
          as Hnot.
        { intros t0 Ht0.
          destruct (dirty_cells e) as [|t ts] eqn:Hd; [by apply elem_of_nil in Ht0|].
          exists t. split; [by left|]. apply (Hnone t ts).
          by rewrite get_dirty_tiles_cells, ?Hd. }
        rewrite ?Hpath. close_act.
    + unfold GoalBasedAgent_act in Ha. rewrite decide_False, Hpath in Ha by done.
      injection Ha as <- <-.
      destruct (follow_plan gas (GoalBased a)
                  (GoalBased (mkGoalBased (gb_base a) rest)) e next rest)
        as (Hf1 & Hf2 & Hf3); try done.
      close_act.
Qed.

(** *** One step *)

(** What holds between two steps of a simulation. *)
Definition sim_inv (gas : nat) (s : Simulation) : Prop :=
  env_ok (environment s) ∧
  walkable (environment s) (robot_pos (environment s)) = true ∧
  cleaned_dirt (environment s) + Z.of_nat (length (dirty_cells (environment s)))
    = total_dirt (environment s) ∧
  plan_inv gas (current_agent s) (environment s) ∧
  tiles_cleaned (agent_base (current_agent s)) = cleaned_dirt (environment s) ∧
  ui_cleaning_actions s = cleaned_dirt (environment s) ∧
  steps_taken (agent_base (current_agent s)) = ui_steps_taken s ∧
  (is_complete s = true →
   is_all_clean (environment s) = true ∧ is_running s = false).

(** Every dirty tile can be reached from the robot. *)
Definition all_reachable (e : Environment) : Prop :=
  ∀ t, t ∈ dirty_cells e → reachable e (robot_pos e) t.

(** The number of steps a searching agent still needs at most: for each
    dirty tile a plan, the walk and the cleaning. *)
Definition todo (gas : nat) (s : Simulation) : nat :=
  length (dirty_cells (environment s)) * (gas + 3) +
  (if decide (robot_pos (environment s) ∈ dirty_cells (environment s)) then 0
   else match cached_path (current_agent s) with
        | [] => gas + 2
        | l => length l
        end).

Lemma step_complete gas r s : is_complete s = true → step gas r s = Ok s.
Proof. intros H. unfold step. by rewrite H. Qed.

Lemma step_spec gas r s :
  sim_inv gas s → enough gas (environment s) → is_complete s = false →
  ∃ s',
    step gas r s = Ok s' ∧ sim_inv gas s' ∧
    frame (environment s) (environment s') ∧
    kind (current_agent s') = kind (current_agent s) ∧
    ui_steps_taken s ≤ ui_steps_taken s' ∧
    ui_cleaning_actions s ≤ ui_cleaning_actions s' ∧
    ui_steps_taken s' + ui_cleaning_actions s'
      ≤ ui_steps_taken s + ui_cleaning_actions s + 1 ∧
    ((kind (current_agent s) ≤ 1)%nat →
     nbrs (environment s) (robot_pos (environment s)) ≠ [] →
     is_complete s' = false ∧
     nbrs (environment s') (robot_pos (environment s')) ≠ []) ∧
    ((1 ≤ kind (current_agent s))%nat → all_reachable (environment s) →
     all_reachable (environment s') ∧
     (is_complete s' = true ∨
      (kind (current_agent s) = 1%nat ∧ dirty_cells (environment s) = []) ∨
      (todo gas s' < todo gas s)%nat)).
Proof.
  destruct s as [e p running complete steps cleanings]. simpl.
  intros (He & Hw & Hacc & Hplan & Htiles & Hui & Hsteps & _) Hgas ->.
  cbn [environment current_agent is_running is_complete ui_steps_taken
       ui_cleaning_actions] in *.
  pose proof He as [Hok Hv].
  destruct (act_spec gas r p e He Hgas Hplan)
    as (perception & p' & action & Hper & Hact & Hbase & Hkind & Hcase).
  unfold step. cbn [is_complete environment current_agent].
  rewrite Hper. cbn [bind]. rewrite Hact. cbn [bind].
  destruct action as [|pos|].
  - (* clean *)
    destruct Hcase as (Hin & Hp1 & Hp2).
    destruct (clean_dirty e He Hin)
      as (e' & -> & He' & Hf & Hpos & Hcl & Hout & Hkeep).
    cbn [bind]. eexists. split; [done|].
    pose proof Hf as (Hfw & Hfh & Hft & Hfwalk & Hfd & Hfc).
    pose proof He' as [Hok' _].
    assert (plan_inv gas p' e') as Hplan'.
    { destruct (decide (planner p)) as [Hpl|Hpl]; [left; by apply Hp1|].
      destruct Hplan as [Hnil|(t & Hroute & Hlen & Hdt & Hmin & _)].
      { left. by rewrite Hp2. }
      destruct (decide (cached_path p = [])) as [Hcp|Hcp]; [left; by rewrite Hp2|].
      right. exists t. rewrite Hp2, Hpos by done. unfold planner in *.
      rewrite Hkind. split_and!.
      - by apply (is_route_frame e e').
      - done.
      - intros Hk1. apply Hkeep; [by apply Hdt|]. intros ->.
        assert (kind p = 1%nat) as Hk by lia.
        specialize (Hmin Hk [] eq_refl). destruct (cached_path p); [done|].
        simpl in Hmin. lia.
      - intros Hk1 l Hl. apply Hmin; [done|]. by apply (is_route_frame e e').
      - intros Hk2. lia. }
    assert (length (cached_path p') ≤ gas)%nat as Hlen'.
    { destruct Hplan' as [->|(t & _ & ? & _)]; [simpl; lia|done]. }
    assert (sim_inv gas (mkSimulation e' (count_tile_cleaned p') running false steps
                           (cleanings + 1))) as Hinv'.
    { unfold sim_inv, count_tile_cleaned. simpl. rewrite agent_base_set. simpl.
      rewrite Hbase. split_and!; try done; try lia; try (by apply plan_inv_set).
      by rewrite Hfwalk, Hpos. }
    split; [done|]. split; [done|]. cbn [environment current_agent is_complete
      ui_steps_taken ui_cleaning_actions].
    split; [unfold count_tile_cleaned; by rewrite kind_set|].
    split; [lia|]. split; [lia|]. split; [lia|]. split.
    + intros _ Hn. split; [done|]. by rewrite (nbrs_frame e e'), Hpos.
    + intros Hpl Hall. split.
      * intros t Ht. rewrite Hpos.
        destruct (Hall t (Hfd t Ht)) as [l Hl]. exists l.
        by apply (is_route_frame e e').
      * right. right. unfold todo. cbn [environment current_agent].
        rewrite (decide_True (P := robot_pos e ∈ dirty_cells e)) by done.
        unfold count_tile_cleaned. rewrite cached_path_set.
        assert (length (dirty_cells e') + 1 = length (dirty_cells e))%nat as Hd
          by lia.
        match goal with
        | |- (_ + ?x < _)%nat => assert (x ≤ gas + 2)%nat as Hpart
        end.
        { case_decide; [lia|]. destruct (cached_path p'); simpl in *; lia. }
        rewrite <-Hd. nia.
  - (* move *)
    destruct Hcase as (Hout & Hpos & Hplan' & Hfollow & Hlast).
    rewrite move_neighbor by done. cbn [bind].
    eexists. split; [done|].
    pose proof (nbrs_walkable _ _ _ Hpos) as Hwpos.
    assert (is_valid_position e pos.1 pos.2 = true) as Hvpos.
    { unfold walkable in Hwpos. by apply andb_true_iff in Hwpos as [? _]. }
    assert (sim_inv gas (mkSimulation (set_robot_pos e pos) (count_step p') running
                           false (steps + 1) cleanings)) as Hinv'.
    { unfold sim_inv, count_step. simpl. rewrite agent_base_set. simpl.
      rewrite Hbase.
      split_and!; try done; try lia; try (by apply plan_inv_set); try (by split). }
    split; [done|]. split; [by unfold frame|]. cbn [environment current_agent
      is_complete ui_steps_taken ui_cleaning_actions].
    split; [unfold count_step; by rewrite kind_set|].
    split; [lia|]. split; [lia|]. split; [lia|]. split.
    + intros _ _. split; [done|]. intros Hnil.
      assert (robot_pos e ∈ nbrs e pos) as Hback by (by apply nbrs_sym).
      change (nbrs (set_robot_pos e pos) (robot_pos (set_robot_pos e pos)))
        with (nbrs e pos) in Hnil.
      rewrite Hnil in Hback. by apply elem_of_nil in Hback.
    + intros Hpl Hall. split.
      * intros t Ht.
        destruct (reachable_from_neighbor e (robot_pos e) pos t Hok Hw Hpos
                    (Hall t Ht)) as [l Hl].
        exists l. by apply is_route_set_robot_pos.
      * destruct (decide (pos ∈ dirty_cells e)) as [Hd|Hd].
        { right. right. unfold todo.
          cbn [environment current_agent robot_pos set_robot_pos].
          change (dirty_cells (set_robot_pos e pos)) with (dirty_cells e).
          rewrite (decide_False (P := robot_pos e ∈ dirty_cells e)) by done.
          rewrite (decide_True (P := pos ∈ dirty_cells e)) by done.
          destruct (cached_path p); simpl; lia. }
        destruct (cached_path p') as [|c l'] eqn:Hp'.
        { destruct (Hlast Hpl eq_refl) as [?|[Hk1 Hno]]; [done|].
          right. left. split; [done|].
          destruct (dirty_cells e) as [|t ts] eqn:Hdc; [done|].
          destruct (Hno t) as (t' & Ht' & Hnot); [by left|].
          destruct Hnot. apply Hall. by rewrite ?Hdc. }
        right. right. unfold todo.
        cbn [environment current_agent robot_pos set_robot_pos].
        change (dirty_cells (set_robot_pos e pos)) with (dirty_cells e).
        rewrite (decide_False (P := robot_pos e ∈ dirty_cells e)) by done.
        rewrite (decide_False (P := pos ∈ dirty_cells e)) by done.
        unfold count_step. rewrite cached_path_set, Hp'.
        destruct (cached_path p) as [|c0 l0] eqn:Hp.
        -- destruct Hplan' as [Hnil|(t & _ & Hlen & _)]; [congruence|].
           rewrite ?Hp' in Hlen. simpl in *. lia.
        -- rewrite Hfollow by done. simpl. lia.
  - (* wait *)
    destruct Hcase as (Hout & -> & Hnil & Hlone & Hstuck).
    assert (∀ running' complete',
              (complete' = true → is_all_clean e = true ∧ running' = false) →
              sim_inv gas (mkSimulation e p running' complete' steps cleanings))
      as Hinv'.
    { intros running' complete' Hc. unfold sim_inv. simpl. by split_and!. }
    destruct (is_all_clean e) eqn:Hclean; eexists; (split; [done|]);
      (split; [by apply Hinv'|]); (split; [apply frame_refl|]);
      cbn [environment current_agent is_complete ui_steps_taken ui_cleaning_actions];
      (split; [done|]); (split; [lia|]); (split; [lia|]); (split; [lia|]); split.
    + intros Hk Hn. by destruct Hn; apply Hlone.
    + intros _ Hall. split; [done|by left].
    + intros Hk Hn. by destruct Hn; apply Hlone.
    + intros Hpl Hall. split; [done|]. exfalso.
      pose proof (is_all_clean_dirty_cells e Hacc) as [_ Hiff].
      destruct (dirty_cells e) as [|t ts] eqn:Hd.
      { rewrite Hiff in Hclean; done. }
      destruct (Hstuck Hpl t) as (t' & Ht' & Hno); [rewrite ?Hd; by left|].
      apply Hno, Hall. by rewrite ?Hd.
Qed.

(** *** Runs *)

Lemma enough_frame gas e e' : frame e e' → enough gas e → enough gas e'.
Proof. intros (Hw & Hh & _). unfold enough. by rewrite Hw, Hh. Qed.

Lemma simulate_complete gas rs n s :
  is_complete s = true → simulate gas rs n s = Ok s.
Proof.
  intros Hc. revert rs. induction n as [|n IH]; intros rs; [done|].
  cbn [simulate]. rewrite step_complete by done. cbn [bind]. apply IH.
Qed.

Lemma simulate_inv gas rs n s :
  sim_inv gas s → enough gas (environment s) →
  ∃ s',
    simulate gas rs n s = Ok s' ∧ sim_inv gas s' ∧
    frame (environment s) (environment s') ∧
    kind (current_agent s') = kind (current_agent s) ∧
    ui_steps_taken s ≤ ui_steps_taken s' ∧
    ui_cleaning_actions s ≤ ui_cleaning_actions s' ∧
    ui_steps_taken s' + ui_cleaning_actions s'
      ≤ ui_steps_taken s + ui_cleaning_actions s + Z.of_nat n ∧
    ((kind (current_agent s) ≤ 1)%nat → is_complete s = false →
     nbrs (environment s) (robot_pos (environment s)) ≠ [] →
     is_complete s' = false).
Proof.
  revert rs s. induction n as [|n IH]; intros rs s Hinv Hgas.
  { exists s. split; [done|]. split_and!; try done; try lia; apply frame_refl. }
  cbn [simulate].
  destruct (is_complete s) eqn:Hc.
  { rewrite step_complete by done. cbn [bind].
    destruct (IH (λ i, rs (S i)) s Hinv Hgas)
      as (s' & Hrun & Hinv' & Hf & Hk & H1 & H2 & H3 & _).
    exists s'. split_and!; try done. lia. }
  destruct (step_spec gas (rs O) s Hinv Hgas Hc)
    as (s1 & -> & Hinv1 & Hf1 & Hk1 & Ha1 & Hb1 & Hc1 & Hlone & _).
  cbn [bind].
  destruct (IH (λ i, rs (S i)) s1 Hinv1 (enough_frame _ _ _ Hf1 Hgas))
    as (s' & Hrun & Hinv' & Hf & Hk & H1 & H2 & H3 & Hlone').
  exists s'. split; [done|]. split; [done|]. split; [by eapply frame_trans|].
  split; [congruence|]. split; [lia|]. split; [lia|]. split; [lia|].
  intros Hkind _ Hn. destruct (Hlone Hkind Hn) as [Hc' Hn'].
  apply Hlone'; [lia|done..].
Qed.

Lemma simulate_done gas m :
  ∀ s, sim_inv gas s → enough gas (environment s) →
    planner (current_agent s) → all_reachable (environment s) →
    (todo gas s < m)%nat →
    ∀ n rs, (m ≤ n)%nat →
      ∃ s', simulate gas rs n s = Ok s' ∧ sim_inv gas s' ∧ is_complete s' = true ∧
            frame (environment s) (environment s').
Proof.
  induction m as [|m IH]; intros s Hinv Hgas Hpl Hall Hlt n rs Hn; [lia|].
  destruct (is_complete s) eqn:Hc.
  { exists s. rewrite simulate_complete by done.
    split_and!; try done; apply frame_refl. }
  destruct n as [|n]; [lia|]. cbn [simulate].
  destruct (step_spec gas (rs O) s Hinv Hgas Hc)
    as (s1 & -> & Hinv1 & Hf1 & Hk1 & _ & _ & _ & _ & Hprog).
  cbn [bind].
  destruct (Hprog ltac:(unfold planner in *; lia) Hall) as [Hall1 Hcase].
  assert (planner (current_agent s1)) as Hpl1 by (unfold planner in *; lia).
  destruct Hcase as [Hc1|[[Hk _]|Hless]].
  - exists s1. rewrite simulate_complete by done. by split_and!.
  - unfold planner in *. lia.
  - destruct (IH s1 Hinv1 (enough_frame _ _ _ Hf1 Hgas) Hpl1 Hall1 ltac:(lia)
                n (λ i, rs (S i)) ltac:(lia)) as (s' & Hrun & Hinv' & Hc' & Hf').
    exists s'. split_and!; try done; by eapply frame_trans.
Qed.

Lemma simulate_clean gas m :
  ∀ s, sim_inv gas s → enough gas (environment s) →
    kind (current_agent s) = 1%nat → all_reachable (environment s) →
    (todo gas s < m)%nat →
    ∀ n rs, (m ≤ n)%nat →
      ∃ s', simulate gas rs n s = Ok s' ∧ sim_inv gas s' ∧
            dirty_cells (environment s') = [] ∧
            frame (environment s) (environment s').
Proof.
  assert (∀ s n rs, sim_inv gas s → enough gas (environment s) →
            dirty_cells (environment s) = [] →
            ∃ s', simulate gas rs n s = Ok s' ∧ sim_inv gas s' ∧
                  dirty_cells (environment s') = [] ∧
                  frame (environment s) (environment s')) as Hstay.
  { intros s n rs Hinv Hgas Hnil.
    destruct (simulate_inv gas rs n s Hinv Hgas) as (s' & Hrun & Hinv' & Hf & _).
    exists s'. split_and!; try done.
    destruct Hf as (_ & _ & _ & _ & Hsub & _).
    destruct (dirty_cells (environment s')) as [|c l]; [done|].
    assert (c ∈ dirty_cells (environment s)) as Hc by (apply Hsub; by left).
    rewrite Hnil in Hc. by apply elem_of_nil in Hc. }
  induction m as [|m IH]; intros s Hinv Hgas Hk Hall Hlt n rs Hn; [lia|].
  destruct (is_complete s) eqn:Hc.
  { apply Hstay; try done.
    destruct Hinv as (_ & _ & Hacc & _ & _ & _ & _ & Hdone).
    destruct (Hdone Hc) as [Hclean _].
    by apply (is_all_clean_dirty_cells _ Hacc). }
  destruct n as [|n]; [lia|]. cbn [simulate].
  destruct (step_spec gas (rs O) s Hinv Hgas Hc)
    as (s1 & -> & Hinv1 & Hf1 & Hk1 & _ & _ & _ & _ & Hprog).
  cbn [bind]. destruct (Hprog ltac:(lia) Hall) as [Hall1 Hcase].
  pose proof (enough_frame _ _ _ Hf1 Hgas) as Hgas1.
  assert (∀ s', frame (environment s1) (environment s') →
                frame (environment s) (environment s')) as Htrans.
  { intros s'. by apply frame_trans. }
  destruct Hcase as [Hc1|[[_ Hnil]|Hless]].
  - destruct (Hstay s1 n (λ i, rs (S i)) Hinv1 Hgas1)
      as (s' & Hrun & Hinv' & Hnil' & Hf'); [|by exists s'; split_and!; auto].
    destruct Hinv1 as (_ & _ & Hacc & _ & _ & _ & _ & Hdone).
    destruct (Hdone Hc1) as [Hclean _].
    by apply (is_all_clean_dirty_cells _ Hacc).
  - destruct (Hstay s1 n (λ i, rs (S i)) Hinv1 Hgas1)
      as (s' & Hrun & Hinv' & Hnil' & Hf'); [|by exists s'; split_and!; auto].
    destruct Hf1 as (_ & _ & _ & _ & Hsub & _).
    destruct (dirty_cells (environment s1)) as [|c l]; [done|].
    assert (c ∈ dirty_cells (environment s)) as Hcin by (apply Hsub; by left).
    rewrite Hnil in Hcin. by apply elem_of_nil in Hcin.
  - destruct (IH s1 Hinv1 Hgas1 ltac:(lia) Hall1 ltac:(lia)
                n (λ i, rs (S i)) ltac:(lia)) as (s' & Hrun & Hinv' & Hnil' & Hf').
    exists s'. split_and!; auto.
Qed.

(** A simulation on a freshly built world with a reset agent. *)
Lemma fresh_sim_inv gas w h dirt_probability obstacle_probability r0 e k p running :
  0 < w → 0 < h →
  Environment_init w h dirt_probability obstacle_probability r0 = Ok (e, k) →
  cached_path p = [] →
  steps_taken (agent_base p) = 0 → tiles_cleaned (agent_base p) = 0 →
  sim_inv gas (mkSimulation e p running false 0 0) ∧
  width e = w ∧ height e = h ∧ robot_pos e = (0, 0) ∧ cleaned_dirt e = 0 ∧
  (0, 0) ∉ dirty_cells e.
Proof.
  intros Hw Hh Hinit Hpath Hsteps Htiles.
  destruct (Environment_init_scan w h dirt_probability obstacle_probability r0)
    as (e' & k' & Hinit' & Hok & Hwe & Hhe & Hpos & Hcl & Hcount & Horigin).
  rewrite Hinit in Hinit'. injection Hinit' as <- <-. simpl in *.
  assert (is_valid_position e 0 0 = true) as Hv.
  { apply is_valid_position_spec. lia. }
  assert (env_ok e) as He by (split; [done|by rewrite Hpos]).
  assert (walkable e (0, 0) = true) as Hwalk.
  { unfold walkable. simpl. rewrite Hv, Horigin by done. done. }
  assert (plan_inv gas p e) as Hplan by (by left).
  split_and!; try done.
  - unfold sim_inv. simpl. rewrite Hpos, Hcl. split_and!; try done; lia.
  - intros [_ Hd]%elem_of_dirty_cells. rewrite Horigin in Hd; done.
Qed.

(** Start a simulation on a freshly built world of positive dimensions
    with a reset agent of any of the four classes, and give the searches
    enough fuel.  Then any number of steps runs without an exception.
    Afterwards the robot stands on a walkable tile and the cached path is a
    route starting there; the agent's [tiles_cleaned], the display's
    [cleaning_actions] and the environment's [cleaned_dirt] agree, as do
    the agent's and the display's [steps_taken]; and a simulation marked
    complete has stopped running and left no dirty tile. *)
Theorem simulation_safe (w h : Z) (dirt_probability obstacle_probability : Qc)
    (r0 : rng) (e : Environment) (k : nat) (p : Policy) (running : bool)
    (gas : nat) (rs : nat → nat) (n : nat) :
  0 < w → 0 < h →
  Environment_init w h dirt_probability obstacle_probability r0 = Ok (e, k) →
  cached_path p = [] →
  steps_taken (agent_base p) = 0 → tiles_cleaned (agent_base p) = 0 →
  (4 * (Z.to_nat h * Z.to_nat w) + 1 < gas)%nat →
  ∃ s',
    simulate gas rs n (mkSimulation e p running false 0 0) = Ok s' ∧
    is_walkable (environment s') (robot_pos (environment s')).1
      (robot_pos (environment s')).2 = Ok true ∧
    (∃ t, is_route (environment s') (robot_pos (environment s'))
            (cached_path (current_agent s')) t) ∧
    tiles_cleaned (agent_base (current_agent s')) = cleaned_dirt (environment s') ∧
    ui_cleaning_actions s' = cleaned_dirt (environment s') ∧
    steps_taken (agent_base (current_agent s')) = ui_steps_taken s' ∧
    0 ≤ ui_steps_taken s' ∧ 0 ≤ ui_cleaning_actions s' ∧
    ui_steps_taken s' + ui_cleaning_actions s' ≤ Z.of_nat n ∧
    total_dirt (environment s') = total_dirt e ∧
    (is_complete s' = true →
     is_running s' = false ∧
     get_dirty_tiles (environment s') = Ok [] ∧
     cleaned_dirt (environment s') = total_dirt e).
Proof.
  intros Hw Hh Hinit Hpath Hsteps Htiles Hgas.
  destruct (fresh_sim_inv gas w h dirt_probability obstacle_probability r0 e k p
              running Hw Hh Hinit Hpath Hsteps Htiles)
    as (Hinv & Hwe & Hhe & _).
  destruct (simulate_inv gas rs n (mkSimulation e p running false 0 0) Hinv)
    as (s' & Hrun & Hinv' & Hf & _ & H1 & H2 & H3 & _).
  { unfold enough. simpl. by rewrite Hwe, Hhe. }
  simpl in *.
  destruct Hinv' as ([Hok' Hv'] & Hwalk & Hacc & Hplan & Ht & Hui & Hst & Hdone).
  destruct Hf as (_ & _ & Htotal & _).
  exists s'. split_and!; try done; try lia.
  - rewrite is_walkable_ok by done. destruct (robot_pos (environment s')).
    by rewrite <-Hwalk.
  - destruct Hplan as [->|(t & Hroute & _)]; [by eexists|by exists t].
  - intros Hc. destruct (Hdone Hc) as [Hclean Hrun'].
    apply (is_all_clean_dirty_cells _ Hacc) in Hclean.
    split_and!; try done.
    + by rewrite get_dirty_tiles_cells, Hclean.
    + rewrite Hclean in Hacc. simpl in Hacc. lia.
Qed.

(** The simple reflex agent and the model-based agent answer [wait] only
    when the robot has no neighbour.  So if the robot can move at all when
    the simulation starts, the simulation is never marked complete with one
    of these agents, however long it runs and even when no dirt is left. *)
Theorem wandering_agents_never_complete (w h : Z)
    (dirt_probability obstacle_probability : Qc) (r0 : rng) (e : Environment)
    (k : nat) (p : Policy) (running : bool) (gas : nat) (rs : nat → nat) (n : nat) :
  0 < w → 0 < h →
  Environment_init w h dirt_probability obstacle_probability r0 = Ok (e, k) →
  (∃ a, p = Reflex a) ∨ (∃ a, p = ModelBased a) →
  cached_path p = [] →
  steps_taken (agent_base p) = 0 → tiles_cleaned (agent_base p) = 0 →
  get_neighbors e 0 0 ≠ Ok [] →
  (4 * (Z.to_nat h * Z.to_nat w) + 1 < gas)%nat →
  ∃ s',
    simulate gas rs n (mkSimulation e p running false 0 0) = Ok s' ∧
    is_complete s' = false.
Proof.
  intros Hw Hh Hinit Hkind Hpath Hsteps Htiles Hnbrs Hgas.
  destruct (fresh_sim_inv gas w h dirt_probability obstacle_probability r0 e k p
              running Hw Hh Hinit Hpath Hsteps Htiles)
    as (Hinv & Hwe & Hhe & Hpos & _).
  destruct (simulate_inv gas rs n (mkSimulation e p running false 0 0) Hinv)
    as (s' & Hrun & Hinv' & _ & _ & _ & _ & _ & Hlone).
  { unfold enough. simpl. by rewrite Hwe, Hhe. }
  exists s'. split; [done|]. apply Hlone; simpl.
  - destruct Hkind as [[a ->]|[a ->]]; simpl; lia.
  - done.
  - rewrite Hpos. intros Hnil. apply Hnbrs.
    rewrite get_neighbors_ok by apply Hinv. by rewrite Hnil.
Qed.

(** With the utility-based or the goal-based agent, on a fresh world in
    which every dirty tile can be reached from [(0, 0)], the simulation
    completes: after [(total_dirt + 1) * (gas + 3)] steps, or any larger
    number, it is marked complete and stopped, no tile is dirty and every
    dirty tile has been counted as cleaned. *)
Theorem planners_clean_everything (w h : Z)
    (dirt_probability obstacle_probability : Qc) (r0 : rng) (e : Environment)
    (k : nat) (p : Policy) (running : bool) (gas : nat) (rs : nat → nat) (n : nat) :
  0 < w → 0 < h →
  Environment_init w h dirt_probability obstacle_probability r0 = Ok (e, k) →
  (∃ a, p = UtilityBased a) ∨ (∃ a, p = GoalBased a) →
  cached_path p = [] →
  steps_taken (agent_base p) = 0 → tiles_cleaned (agent_base p) = 0 →
  (∀ x y, get_tile_state e x y = Ok DIRTY → reachable e (0, 0) (x, y)) →
  (4 * (Z.to_nat h * Z.to_nat w) + 1 < gas)%nat →
  ((Z.to_nat (total_dirt e) + 1) * (gas + 3) ≤ n)%nat →
  ∃ s',
    simulate gas rs n (mkSimulation e p running false 0 0) = Ok s' ∧
    is_complete s' = true ∧ is_running s' = false ∧
    get_dirty_tiles (environment s') = Ok [] ∧
    cleaned_dirt (environment s') = total_dirt e ∧
    tiles_cleaned (agent_base (current_agent s')) = total_dirt e ∧
    ui_cleaning_actions s' = total_dirt e.
Proof.
  intros Hw Hh Hinit Hkind Hpath Hsteps Htiles Hreach Hgas Hn.
  destruct (fresh_sim_inv gas w h dirt_probability obstacle_probability r0 e k p
              running Hw Hh Hinit Hpath Hsteps Htiles)
    as (Hinv & Hwe & Hhe & Hpos & Hcl & Horigin).
  pose proof Hinv as ([Hok _] & _ & Hacc0 & _). simpl in Hacc0.
  destruct (simulate_done gas ((Z.to_nat (total_dirt e) + 1) * (gas + 3))
              (mkSimulation e p running false 0 0) Hinv) with (n := n) (rs := rs)
    as (s' & Hrun & Hinv' & Hc & Hf); simpl.
  - unfold enough. by rewrite Hwe, Hhe.
  - unfold planner. destruct Hkind as [[a ->]|[a ->]]; simpl; lia.
  - intros t [Hv Ht]%elem_of_dirty_cells. rewrite Hpos. destruct t as [x y].
    apply Hreach. rewrite get_tile_state_ok by done. simpl in Hv. by rewrite Hv, Ht.
  - unfold todo. simpl. rewrite Hpos, Hpath.
    rewrite decide_False by done.
    replace (Z.to_nat (total_dirt e)) with (length (dirty_cells e)) by lia. lia.
  - done.
  - destruct Hinv' as ([Hok' _] & _ & Hacc & _ & Ht & Hui & _ & Hdone).
    destruct (Hdone Hc) as [Hclean Hrun'].
    destruct Hf as (_ & _ & Htotal & _). simpl in Htotal.
    apply (is_all_clean_dirty_cells _ Hacc) in Hclean.
    assert (cleaned_dirt (environment s') = total_dirt e) as Hall.
    { rewrite Hclean in Hacc. simpl in Hacc. lia. }
    exists s'. split_and!; try done; try lia.
    by rewrite get_dirty_tiles_cells, Hclean.
Qed.

(** The model-based agent cleans everything too when every dirty tile can
    be reached from [(0, 0)]: from [(total_dirt + 1) * (gas + 3)] steps
    on, no tile is dirty and every dirty tile has been counted as cleaned,
    although the simulation need not be marked complete. *)
Theorem model_agent_cleans_everything (w h : Z)
    (dirt_probability obstacle_probability : Qc) (r0 : rng) (e : Environment)
    (k : nat) (a : ModelBasedAgent) (running : bool) (gas : nat) (rs : nat → nat)
    (n : nat) :
  0 < w → 0 < h →
  Environment_init w h dirt_probability obstacle_probability r0 = Ok (e, k) →
  mb_current_path a = [] →
  steps_taken (mb_base a) = 0 → tiles_cleaned (mb_base a) = 0 →
  (∀ x y, get_tile_state e x y = Ok DIRTY → reachable e (0, 0) (x, y)) →
  (4 * (Z.to_nat h * Z.to_nat w) + 1 < gas)%nat →
  ((Z.to_nat (total_dirt e) + 1) * (gas + 3) ≤ n)%nat →
  ∃ s',
    simulate gas rs n (mkSimulation e (ModelBased a) running false 0 0) = Ok s' ∧
    get_dirty_tiles (environment s') = Ok [] ∧
    is_all_clean (environment s') = true ∧
    cleaned_dirt (environment s') = total_dirt e ∧
    tiles_cleaned (agent_base (current_agent s')) = total_dirt e ∧
    ui_cleaning_actions s' = total_dirt e.
Proof.
  intros Hw Hh Hinit Hpath Hsteps Htiles Hreach Hgas Hn.
  destruct (fresh_sim_inv gas w h dirt_probability obstacle_probability r0 e k
              (ModelBased a) running Hw Hh Hinit Hpath Hsteps Htiles)
    as (Hinv & Hwe & Hhe & Hpos & Hcl & Horigin).
  pose proof Hinv as ([Hok _] & _ & Hacc0 & _). simpl in Hacc0.
  destruct (simulate_clean gas ((Z.to_nat (total_dirt e) + 1) * (gas + 3))
              (mkSimulation e (ModelBased a) running false 0 0) Hinv)
    with (n := n) (rs := rs) as (s' & Hrun & Hinv' & Hnil & Hf); simpl.
  - unfold enough. by rewrite Hwe, Hhe.
  - done.
  - intros t [Hv Ht]%elem_of_dirty_cells. rewrite Hpos. destruct t as [x y].
    apply Hreach. rewrite get_tile_state_ok by done. simpl in Hv. by rewrite Hv, Ht.
  - unfold todo. simpl. rewrite Hpos, Hpath.
    rewrite decide_False by done.
    replace (Z.to_nat (total_dirt e)) with (length (dirty_cells e)) by lia. lia.
  - done.
  - destruct Hinv' as ([Hok' _] & _ & Hacc & _ & Ht & Hui & _ & Hdone).
    destruct Hf as (_ & _ & Htotal & _). simpl in Htotal.
    assert (cleaned_dirt (environment s') = total_dirt e) as Hall.
    { rewrite Hnil in Hacc. simpl in Hacc. lia. }
    exists s'. split_and!; try done; try lia.
    + by rewrite get_dirty_tiles_cells, Hnil.
    + apply (is_all_clean_dirty_cells _ Hacc). done.
Qed.

(** A utility-based agent whose nearest dirty tile cannot be reached, or
    a goal-based agent whose first dirty tile cannot be reached, does
    nothing at all: with no cached path and the robot on a tile that is not
    dirty, every step leaves the whole simulation as it is, so it is never
    marked complete, whatever else could be cleaned. *)
Theorem planner_stuck (s : Simulation) (t : coord) (gas : nat) (rs : nat → nat)
    (n : nat) :
  let e := environment s in
  env_ok e → is_complete s = false → is_all_clean e = false →
  cached_path (current_agent s) = [] →
  get_tile_state e (robot_pos e).1 (robot_pos e).2 ≠ Ok DIRTY →
  (∃ a, current_agent s = UtilityBased a ∧
        find_nearest_dirty_tile e (robot_pos e) = Ok (Some t)) ∨
  (∃ a ts, current_agent s = GoalBased a ∧ get_dirty_tiles e = Ok (t :: ts)) →
  ¬ reachable e (robot_pos e) t →
  (4 * (Z.to_nat (height e) * Z.to_nat (width e)) + 1 < gas)%nat →
  simulate gas rs n s = Ok s.
Proof.
  intros e [Hok Hv] Hc Hclean Hpath Hnd Hkind Hno Hgas.
  assert (∀ r, step gas r s = Ok s) as Hstep.
  { intros r. unfold step. rewrite Hc. fold e.
    pose proof (perceive_ok e Hok) as Hper. rewrite Hper. cbn [bind].
    set (perception := mkPerception _ _ _ _) in *.
    assert (tile_state perception ≠ DIRTY) as Hnd'.
    { intros Hd. apply Hnd. rewrite get_tile_state_ok by done.
      destruct (robot_pos e). simpl in *. by rewrite <-Hd. }
    destruct (act_runs e (current_agent s) perception r Hok) as [_ Htotal].
    destruct (Htotal gas) as (p' & action & Hact).
    { simpl. rewrite size_universe by done. exact Hgas. }
    rewrite Hact. cbn [bind].
    assert (p' = current_agent s ∧ action = Wait) as [-> ->].
    { destruct Hkind as [(a & Hp & Hnear)|(a & ts & Hp & Hd)];
        rewrite Hp in Hact, Hpath; unfold act in Hact; simpl in Hpath.
      - destruct (UtilityBasedAgent_act gas a e perception) as [[a' act']| |] eqn:Ha;
          cbn [bind] in Hact; [|done..]. injection Hact as <- <-.
        pose proof (utility_plan e a a' perception gas act' Hok Hper Hnd' Hpath Ha)
          as Hcase.
        destruct act' as [|pos|]; [done| |].
        + destruct Hcase as (t' & Hnear' & _ & _ & _ & _ & Hroute & _).
          rewrite Hnear in Hnear'. injection Hnear' as <-.
          destruct Hno. by eexists.
        + destruct Hcase as [-> _]. by rewrite Hp.
      - destruct (GoalBasedAgent_act gas a e perception) as [[a' act']| |] eqn:Ha;
          cbn [bind] in Hact; [|done..]. injection Hact as <- <-.
        pose proof (goal_plan e a a' perception gas act' Hok Hper Hnd' Hpath Ha)
          as Hcase.
        destruct act' as [|pos|]; [done| |].
        + destruct Hcase as (t' & ts' & Hd' & _ & _ & _ & _ & Hroute & _).
          rewrite Hd in Hd'. injection Hd' as <- <-.
          destruct Hno. by eexists.
        + destruct Hcase as [-> _]. by rewrite Hp. }
    rewrite Hclean. subst e. clear -Hc. destruct s. simpl in Hc. by subst. }
  revert rs. induction n as [|n IH]; intros rs; [done|].
  cbn [simulate]. rewrite Hstep. cbn [bind]. apply IH.
Qed.

(** *** On concrete worlds *)

(** Two tiles, the second one dirty, as [__init__] builds them when every
    random draw is [1/5]. *)
Definition pair_world : Environment * nat :=
  Eval vm_compute in
    match Environment_init 2 1 default_dirt_probability default_obstacle_probability
            (λ _, Q2Qc (QArith_base.Qmake 1 5)) with
    | Ok s => s
    | _ => (mkEnv 0 0 [] (0, 0) 0 0, 0%nat)
    end.

Lemma pair_world_init :
  Environment_init 2 1 default_dirt_probability default_obstacle_probability
    (λ _, Q2Qc (QArith_base.Qmake 1 5)) = Ok (pair_world.1, pair_world.2).
Proof. vm_compute. reflexivity. Qed.

Lemma pair_world_ok : grid_ok pair_world.1.
Proof. split; [done|]. by repeat constructor. Qed.

Lemma pair_world_reachable x y :
  get_tile_state pair_world.1 x y = Ok DIRTY → reachable pair_world.1 (0, 0) (x, y).
Proof.
  rewrite get_tile_state_ok by apply pair_world_ok.
  destruct (is_valid_position pair_world.1 x y) eqn:Hv; [|done].
  apply is_valid_position_spec in Hv. simpl in Hv.
  assert (y = 0) as -> by lia.
  assert (x = 0 ∨ x = 1) as [->| ->] by lia; [done|]. intros _.
  exists [(1, 0)]. split; [|done].
  apply edge_nbrs; [apply pair_world_ok|]. vm_compute. by left.
Qed.

Lemma simulation_safe_witness :
  ∃ s',
    simulate 10 (λ i, i) 5
      (mkSimulation pair_world.1 (Reflex SimpleReflexAgent_new) true false 0 0) = Ok s' ∧
    is_walkable (environment s') (robot_pos (environment s')).1
      (robot_pos (environment s')).2 = Ok true ∧
    (∃ t, is_route (environment s') (robot_pos (environment s'))
            (cached_path (current_agent s')) t) ∧
    tiles_cleaned (agent_base (current_agent s')) = cleaned_dirt (environment s') ∧
    ui_cleaning_actions s' = cleaned_dirt (environment s') ∧
    steps_taken (agent_base (current_agent s')) = ui_steps_taken s' ∧
    0 ≤ ui_steps_taken s' ∧ 0 ≤ ui_cleaning_actions s' ∧
    ui_steps_taken s' + ui_cleaning_actions s' ≤ Z.of_nat 5 ∧
    total_dirt (environment s') = total_dirt pair_world.1 ∧
    (is_complete s' = true →
     is_running s' = false ∧
     get_dirty_tiles (environment s') = Ok [] ∧
     cleaned_dirt (environment s') = total_dirt pair_world.1).
Proof.
  apply (simulation_safe 2 1 default_dirt_probability default_obstacle_probability
           (λ _, Q2Qc (QArith_base.Qmake 1 5)) pair_world.1 pair_world.2).
  - lia.
  - lia.
  - exact pair_world_init.
  - reflexivity.
  - reflexivity.
  - reflexivity.
  - simpl. lia.
Defined.

Lemma wandering_agents_never_complete_witness :
  ∃ s',
    simulate 10 (λ i, i) 40
      (mkSimulation pair_world.1 (ModelBased (ModelBasedAgent_new "bfs"))
         true false 0 0) = Ok s' ∧
    is_complete s' = false.
Proof.
  apply (wandering_agents_never_complete 2 1 default_dirt_probability
           default_obstacle_probability (λ _, Q2Qc (QArith_base.Qmake 1 5))
           pair_world.1 pair_world.2).
  - lia.
  - lia.
  - exact pair_world_init.
  - right. by eexists.
  - reflexivity.
  - reflexivity.
  - reflexivity.
  - vm_compute. discriminate.
  - simpl. lia.
Defined.

Lemma planners_clean_everything_witness :
  ∃ s',
    simulate 10 (λ i, i) 26
      (mkSimulation pair_world.1 (UtilityBased UtilityBasedAgent_new)
         true false 0 0) = Ok s' ∧
    is_complete s' = true ∧ is_running s' = false ∧
    get_dirty_tiles (environment s') = Ok [] ∧
    cleaned_dirt (environment s') = total_dirt pair_world.1 ∧
    tiles_cleaned (agent_base (current_agent s')) = total_dirt pair_world.1 ∧
    ui_cleaning_actions s' = total_dirt pair_world.1.
Proof.
  apply (planners_clean_everything 2 1 default_dirt_probability
           default_obstacle_probability (λ _, Q2Qc (QArith_base.Qmake 1 5))
           pair_world.1 pair_world.2).
  - lia.
  - lia.
  - exact pair_world_init.
  - left. by eexists.
  - reflexivity.
  - reflexivity.
  - reflexivity.
  - exact pair_world_reachable.
  - simpl. lia.
  - simpl. lia.
Defined.

Lemma model_agent_cleans_everything_witness :
  ∃ s',
    simulate 10 (λ i, i) 30
      (mkSimulation pair_world.1 (ModelBased (ModelBasedAgent_new "bfs"))
         true false 0 0) = Ok s' ∧
    get_dirty_tiles (environment s') = Ok [] ∧
    is_all_clean (environment s') = true ∧
    cleaned_dirt (environment s') = total_dirt pair_world.1 ∧
    tiles_cleaned (agent_base (current_agent s')) = total_dirt pair_world.1 ∧
    ui_cleaning_actions s' = total_dirt pair_world.1.
Proof.
  apply (model_agent_cleans_everything 2 1 default_dirt_probability
           default_obstacle_probability (λ _, Q2Qc (QArith_base.Qmake 1 5))
           pair_world.1 pair_world.2).
  - lia.
  - lia.
  - exact pair_world_init.
  - reflexivity.
  - reflexivity.
  - reflexivity.
  - exact pair_world_reachable.
  - simpl. lia.
  - simpl. lia.
Defined.

Lemma stuck_world_unreachable : ¬ reachable stuck_world (0, 0) (0, 2).
Proof.
  apply (astar_exhausted stuck_world stuck_world_ok (0, 0) (0, 2) 60
           (match astar 60 stuck_world (0, 0) (0, 2) with
            | Ok r => r
            | _ => SearchResult_new
            end)).
  - vm_compute. reflexivity.
  - vm_compute. reflexivity.
Qed.

Lemma planner_stuck_witness :
  simulate 60 (λ i, i) 7
    (mkSimulation stuck_world (UtilityBased UtilityBasedAgent_new) true false 0 0)
  = Ok (mkSimulation stuck_world (UtilityBased UtilityBasedAgent_new) true false 0 0).
Proof.
  apply (planner_stuck
           (mkSimulation stuck_world (UtilityBased UtilityBasedAgent_new)
              true false 0 0) (0, 2)).
  - split; [exact stuck_world_ok|reflexivity].
  - reflexivity.
  - reflexivity.
  - reflexivity.
  - vm_compute. discriminate.
  - left. eexists. split; [reflexivity|]. vm_compute. reflexivity.
  - exact stuck_world_unreachable.
  - simpl. lia.
Defined.


(** *** [VacuumSimulation.reset] *)

(** The [reset] method of the class of each agent. *)
Definition Policy_reset (p : Policy) : Policy :=
  match p with
  | Reflex a => Reflex (Agent_reset a)
  | ModelBased a => ModelBased (ModelBasedAgent_reset a)
  | UtilityBased a => UtilityBased (UtilityBasedAgent_reset a)
  | GoalBased a => GoalBased (GoalBasedAgent_reset a)
  end.

(** [VacuumSimulation.reset]: a new world of the same dimensions, the
    statistics and the plan of the current agent cleared, the counters of
    the display at zero, the simulation paused. *)
Definition VacuumSimulation_reset (r : rng) (s : Simulation) : res Simulation :=
  let* (e, _) := reset (environment s) r in
  Ok (mkSimulation e (Policy_reset (current_agent s)) false false 0 0).

(** Resetting brings a simulation back to a sound start from any state,
    whatever its counters, plans and flags were: the agent keeps its class
    and name but loses its statistics and its cached path, the world is
    rebuilt with the same dimensions, and from there any number of steps
    runs without an exception with the counters of agent, display and
    environment in agreement. *)
Theorem reset_then_run (s : Simulation) (r0 : rng) (gas : nat) (rs : nat → nat)
    (n : nat) :
  0 < width (environment s) → 0 < height (environment s) →
  (4 * (Z.to_nat (height (environment s)) * Z.to_nat (width (environment s))) + 1
   < gas)%nat →
  ∃ s0 s',
    VacuumSimulation_reset r0 s = Ok s0 ∧
    is_running s0 = false ∧ is_complete s0 = false ∧
    ui_steps_taken s0 = 0 ∧ ui_cleaning_actions s0 = 0 ∧
    width (environment s0) = width (environment s) ∧
    height (environment s0) = height (environment s) ∧
    kind (current_agent s0) = kind (current_agent s) ∧
    name (agent_base (current_agent s0)) = name (agent_base (current_agent s)) ∧
    cached_path (current_agent s0) = [] ∧ cached_goal (current_agent s0) = None ∧
    simulate gas rs n s0 = Ok s' ∧
    tiles_cleaned (agent_base (current_agent s')) = cleaned_dirt (environment s') ∧
    ui_cleaning_actions s' = cleaned_dirt (environment s') ∧
    steps_taken (agent_base (current_agent s')) = ui_steps_taken s' ∧
    (is_complete s' = true → get_dirty_tiles (environment s') = Ok []).
Proof.
  intros Hw Hh Hgas. unfold VacuumSimulation_reset, reset.
  destruct (Environment_init_scan (width (environment s)) (height (environment s))
              default_dirt_probability default_obstacle_probability r0)
    as (e & k & Hinit & _).
  rewrite Hinit. cbn [bind].
  set (p := Policy_reset (current_agent s)).
  assert (cached_path p = [] ∧ cached_goal p = None ∧
          steps_taken (agent_base p) = 0 ∧ tiles_cleaned (agent_base p) = 0 ∧
          kind p = kind (current_agent s) ∧
          name (agent_base p) = name (agent_base (current_agent s)))
    as (Hpath & Hgoal & Hsteps & Htiles & Hkind & Hname).
  { unfold p. by destruct (current_agent s). }
  destruct (fresh_sim_inv gas _ _ _ _ r0 e k p false Hw Hh Hinit Hpath Hsteps Htiles)
    as (Hinv & Hwe & Hhe & _).
  destruct (simulate_inv gas rs n (mkSimulation e p false false 0 0) Hinv)
    as (s' & Hrun & Hinv' & _).
  { unfold enough. simpl. by rewrite Hwe, Hhe. }
  destruct Hinv' as ([Hok' _] & _ & Hacc & _ & Ht & Hui & Hst & Hdone).
  exists (mkSimulation e p false false 0 0), s'. simpl.
  split_and!; try done.
  intros Hc. destruct (Hdone Hc) as [Hclean _].
  apply (is_all_clean_dirty_cells _ Hacc) in Hclean.
  by rewrite get_dirty_tiles_cells, Hclean.
Qed.

Lemma reset_then_run_witness :
  let s := mkSimulation stuck_world
             (ModelBased (mkModelBased (mkAgent "Model-Based Agent" 12 (-3))
                            {[(1, 1)]} [(5, 5)] "bfs")) true true 40 2 in
  ∃ s0 s',
    VacuumSimulation_reset (λ _, Q2Qc (QArith_base.Qmake 1 5)) s = Ok s0 ∧
    is_running s0 = false ∧ is_complete s0 = false ∧
    ui_steps_taken s0 = 0 ∧ ui_cleaning_actions s0 = 0 ∧
    width (environment s0) = width (environment s) ∧
    height (environment s0) = height (environment s) ∧
    kind (current_agent s0) = kind (current_agent s) ∧
    name (agent_base (current_agent s0)) = name (agent_base (current_agent s)) ∧
    cached_path (current_agent s0) = [] ∧ cached_goal (current_agent s0) = None ∧
    simulate 40 (λ i, i) 9 s0 = Ok s' ∧
    tiles_cleaned (agent_base (current_agent s')) = cleaned_dirt (environment s') ∧
    ui_cleaning_actions s' = cleaned_dirt (environment s') ∧
    steps_taken (agent_base (current_agent s')) = ui_steps_taken s' ∧
    (is_complete s' = true → get_dirty_tiles (environment s') = Ok []).
Proof.
  intros s. apply (reset_then_run s); simpl; lia.
Defined.


(** ** The statistics of a search *)

(** The fields of the result that the loops only write on the way out. *)
Definition quiet (r : SearchResult) : Prop :=
  nodes_in_frontier r = 0 ∧
  nodes_expanded r ≤ Z.of_nat (length (frontier_history r)) ∧
  path r = [] ∧ path_cost r = 0 ∧ explored r = ∅.

Definition stats_ok (e : Environment) (start goal : coord) (r : SearchResult) : Prop :=
  nodes_expanded r = Z.of_nat (size (explored r)) ∧
  (∀ c, c ∈ explored r → reachable e start c) ∧
  (start ≠ goal → (goal ∈ explored r ↔ found r = true)) ∧
  nodes_in_frontier r = 0 ∧
  nodes_expanded r ≤ Z.of_nat (length (frontier_history r)) ∧
  (found r = false → path r = [] ∧ path_cost r = 0).

Lemma quiet_new : quiet SearchResult_new.
Proof. by unfold quiet. Qed.

Lemma quiet_log (r : SearchResult) (f : gset coord) : quiet r → quiet (log_frontier r f).
Proof.
  intros (? & ? & ? & ? & ?). unfold quiet. simpl. rewrite length_app. simpl.
  split_and!; try done. lia.
Qed.

Lemma quiet_count (r : SearchResult) (f : gset coord) : quiet r → quiet (count_expanded (log_frontier r f)).
Proof.
  intros (? & ? & ? & ? & ?). unfold quiet. simpl. rewrite length_app. simpl.
  split_and!; try done. lia.
Qed.

Lemma stats_empty (e : Environment) (start goal : coord) (r0 : SearchResult)
    (ex : gset coord) :
  quiet r0 → found r0 = false → nodes_expanded r0 = Z.of_nat (size ex) →
  (∀ c, c ∈ ex → reachable e start c) → goal ∉ ex →
  stats_ok e start goal (set_explored r0 ex).
Proof.
  intros (? & ? & ? & ? & ?) Hf Hn Hreach Hgoal. unfold stats_ok. simpl.
  split_and!; try done. intros _. split; [done|]. by rewrite Hf.
Qed.

Lemma stats_found (e : Environment) (start goal : coord) (r0 : SearchResult)
    (f : gset coord) (p : list coord) (ex : gset coord) :
  quiet r0 → nodes_expanded r0 = Z.of_nat (size ex) →
  (∀ c, c ∈ ex ∪ {[goal]} → reachable e start c) → goal ∉ ex →
  stats_ok e start goal
    (set_found (count_expanded (log_frontier r0 f)) p (ex ∪ {[goal]})).
Proof.
  intros (? & ? & ? & ? & ?) Hn Hreach Hgoal. unfold stats_ok. simpl.
  rewrite length_app. simpl. split_and!; try done; try lia.
  - rewrite size_union, size_singleton by set_solver. lia.
  - intros _. split; [done|set_solver].
Qed.

Lemma bfs_body_quiet gas e start goal st st' :
  quiet (result st) → bfs_body gas e start goal st = Ok (inl st') →
  quiet (result st').
Proof.
  intros Hq. unfold bfs_body.
  destruct (frontier st) as [|cur rest]; [done|].
  destruct (decide (cur = goal)).
  { destruct (reconstruct_path _ _ _ _); done. }
  destruct (expand _ _ _ _) as [[fr cf]| |]; cbn [bind]; [|done..].
  intros [= <-]. simpl. by apply quiet_count.
Qed.

Lemma dfs_body_quiet gas e start goal st st' :
  quiet (result st) → dfs_body gas e start goal st = Ok (inl st') →
  quiet (result st').
Proof.
  intros Hq. unfold dfs_body.
  destruct (py_pop (frontier st)) as [[rest cur]|]; [|done].
  case_bool_decide.
  { intros [= <-]. simpl. by apply quiet_log. }
  destruct (decide (cur = goal)).
  { destruct (reconstruct_path _ _ _ _); done. }
  destruct (expand _ _ _ _) as [[fr cf]| |]; cbn [bind]; [|done..].
  intros [= <-]. simpl. by apply quiet_count.
Qed.

Lemma astar_body_quiet gas e start goal st st' :
  quiet (a_result st) → astar_body gas e start goal st = Ok (inl st') →
  quiet (a_result st').
Proof.
  intros Hq. unfold astar_body.
  destruct (heappop (a_frontier st)) as [[[f cur] rest]|]; [|done].
  case_bool_decide.
  { intros [= <-]. simpl. by apply quiet_log. }
  destruct (decide (cur = goal)).
  { destruct (reconstruct_path _ _ _ _); done. }
  destruct (astar_expand _ _ _ _ _) as [[fc g]| |]; cbn [bind]; try done.
  intros [= <-]. simpl. by apply quiet_count.
Qed.

Lemma search_stats e start goal gas r search :
  grid_ok e → search ∈ [bfs; dfs; astar] →
  search gas e start goal = Ok r → stats_ok e start goal r.
Proof.
  intros Hok Hsearch Hrun.
  assert (start = goal → stats_ok e start goal
            (mkResult [] 0 0 ∅ [] 0 true)) as Hsame.
  { intros Heq. unfold stats_ok. simpl. by split_and!. }
  assert (∀ body,
    (∀ st, search_inv e start st → body_cases e start goal body gas st) →
    (∀ st st', quiet (result st) → body st = Ok (inl st') → quiet (result st')) →
    (∀ st, frontier st = [] →
           body st = Ok (inr (set_explored (result st) (st_explored st)))) →
    while_loop body gas (initial_state start) = Ok r →
    stats_ok e start goal r) as Hloop.
  { intros body Hcases Hquiet Hempty Hloop.
    eapply (while_loop_inv body
              (λ st, search_inv e start st ∧ (goal ∉ st_explored st) ∧
                     quiet (result st))
              (stats_ok e start goal));
      [| |split_and!; [by apply search_inv_initial|simpl; set_solver
                      |apply quiet_new]|done].
    - intros st st' (Hinv & Hgoal & Hq) Hb. split_and!.
      + by eapply loop_step.
      + destruct (Hcases st Hinv)
          as [(st'' & Heq & _ & _ & Hkeep)|[(_ & r' & Heq & _)|(_ & Heq)]];
          rewrite Heq in Hb.
        * injection Hb as <-. auto.
        * done.
        * destruct (reconstruct_path _ _ _ _); done.
      + by eapply Hquiet.
    - intros st r0 (Hinv & Hgoal & Hq) Hb.
      pose proof Hinv as [((_ & _ & Hdom) & _ & _ & Hreach & _ & Hcount & Hfound) _].
      destruct (Hcases st Hinv)
        as [(st'' & Heq & _)|[(Hfr & _)|(Hg & Heq)]].
      + by rewrite Heq in Hb.
      + rewrite Hempty in Hb by done. injection Hb as <-.
        apply stats_empty; try done.
        intros c Hc. apply Hreach. rewrite Hdom. set_solver.
      + rewrite Heq in Hb.
        destruct (reconstruct_path _ _ _ _) as [p| |]; [|done..].
        injection Hb as <-. apply stats_found; try done.
        intros c [Hc| ->%elem_of_singleton]%elem_of_union; apply Hreach; [|done].
        rewrite Hdom. set_solver. }
  repeat (apply elem_of_cons in Hsearch as [->|Hsearch]).
  - unfold bfs in Hrun. destruct (decide (start = goal)) as [Heq|Hne].
    { injection Hrun as <-. by apply Hsame. }
    apply (Hloop _ (bfs_body_cases e Hok start goal gas)
             (bfs_body_quiet gas e start goal)); [|done].
    intros st Hfr. unfold bfs_body. by rewrite Hfr.
  - unfold dfs in Hrun. destruct (decide (start = goal)) as [Heq|Hne].
    { injection Hrun as <-. by apply Hsame. }
    apply (Hloop _ (dfs_body_cases e Hok start goal gas)
             (dfs_body_quiet gas e start goal)); [|done].
    intros st Hfr. unfold dfs_body. by rewrite Hfr.
  - unfold astar in Hrun. destruct (decide (start = goal)) as [Heq|Hne].
    { injection Hrun as <-. by apply Hsame. }
    eapply (while_loop_inv _
              (λ st, astar_inv e start goal st ∧ (goal ∉ a_explored st) ∧
                     quiet (a_result st))
              (stats_ok e start goal));
      [| |split_and!; [apply astar_inv_initial|simpl; set_solver|apply quiet_new]
       |done].
    + intros st st' (Hinv & Hgoal & Hq) Hb. split_and!.
      * by eapply astar_inv_step.
      * by eapply astar_step_explored.
      * by eapply astar_body_quiet.
    + intros st r0 (Hinv & Hgoal & Hq) Hb.
      pose proof Hinv as (_ & Hcount & Hfound).
      assert (∀ ex lip fr, relax_inv e start goal ex lip fr (a_came_from st)
                (g_score st) → ∀ c, c ∈ ex → reachable e start c) as Hreach.
      { intros ex lip fr Hri c Hc.
        assert (c ∈ dom (g_score st)) as [gc Hgc]%elem_of_dom.
        { by apply (ri_explored _ _ _ _ _ _ _ _ Hri). }
        destruct (ri_route _ _ _ _ _ _ _ _ Hri c gc Hgc) as (l & Hl & _).
        by exists l. }
      destruct (astar_body_progress e Hok start goal gas st Hinv)
        as [(st' & Heq & _)|[(_ & _ & Hri & Heq)|(rest & Hri & _ & Heq)]];
        rewrite Heq in Hb.
      * done.
      * injection Hb as <-. apply stats_empty; try done. by eapply Hreach.
      * destruct (reconstruct_path _ _ _ _) as [p| |]; [|done..].
        injection Hb as <-. apply stats_found; try done. by eapply Hreach.
  - by apply elem_of_nil in Hsearch.
Qed.

(** The bookkeeping of a result, found or not and whatever the fuel:
    [nodes_expanded] is the number of cells in [explored], every explored
    cell can be reached from [start], the goal is among them exactly when
    it was found (for a goal other than [start]), [frontier_history] has at
    least one entry for each expansion, [nodes_in_frontier] is never
    written, and a failed search leaves [path] empty and [path_cost] 0. *)
Theorem search_statistics (e : Environment) (start goal : coord) (gas : nat)
    (r : SearchResult) :
  grid_ok e →
  ∀ search, search ∈ [bfs; dfs; astar] →
    search gas e start goal = Ok r →
    nodes_expanded r = Z.of_nat (size (explored r)) ∧
    (∀ c, c ∈ explored r → reachable e start c) ∧
    (start ≠ goal → (goal ∈ explored r ↔ found r = true)) ∧
    nodes_in_frontier r = 0 ∧
    nodes_expanded r ≤ Z.of_nat (length (frontier_history r)) ∧
    (found r = false → path r = [] ∧ path_cost r = 0).
Proof. intros Hok search Hsearch Hrun. by eapply search_stats. Qed.

Lemma search_statistics_witness :
  nodes_expanded detour_dfs = Z.of_nat (size (explored detour_dfs)) ∧
  (∀ c, c ∈ explored detour_dfs → reachable detour_world (0, 0) c) ∧
  ((0, 0) ≠ (0, 2) → ((0, 2) ∈ explored detour_dfs ↔ found detour_dfs = true)) ∧
  nodes_in_frontier detour_dfs = 0 ∧
  nodes_expanded detour_dfs ≤ Z.of_nat (length (frontier_history detour_dfs)) ∧
  (found detour_dfs = false → path detour_dfs = [] ∧ path_cost detour_dfs = 0).
Proof.
  apply (search_statistics detour_world (0, 0) (0, 2) 20 detour_dfs) with dfs.
  - exact detour_world_ok.
  - apply list_elem_of_further, list_elem_of_here.
  - exact detour_dfs_run.
Defined.
